(** * Equipment-fleet bot: schema resolution, text normalisation,
      aggregation and cache of [bot.py], as a shallow embedding.

    Python values are modelled as the program has them:
    - a [str] is a sequence of Unicode code points, here [list Z];
      literals are written as UTF-8 text and decoded by [u];
    - a worksheet cell is an int, a float or a text ([cell]);
    - a DataFrame produced by the loader is the list of its rows, its
      [qty] column an int64 whose sums wrap around;
    - the order that [sort_values] gives to rows of equal quantity is not
      fixed by pandas: what is proved about the order of a view holds for
      every sort that orders by quantity (module [AnySort]); the views
      named as in the source use a stable sort and serve for what does
      not depend on ties;
    - the module-level [CACHE] dict is a [gmap] from key to
      (frame, expiry), threaded through [get_df_async] explicitly;
    - the spreadsheet service, the process environment and two library
      conversions are the fields of [env]; the load tasks of one
      [gather] run one after the other, in list order.

    Library behaviour the program relies on ([str.lower], [str.strip],
    [unicodedata.normalize], the [re] classes [\w] and [\s], [float])
    is modelled for the Basic Latin, Latin-1 and Cyrillic blocks, which
    hold every character of the program's lexicons; code points outside
    these blocks are taken as caseless, non-word symbols that NFKC leaves
    unchanged (combining marks are among them, so nothing is composed),
    and [float] reads ASCII digits only. *)

From Stdlib Require Import ZArith Bool Strings.String Strings.Byte DecimalString.
From stdpp Require Import base option list sorting gmap.

Local Open Scope Z_scope.
Local Open Scope bool_scope.

(* ------------------------------------------------------------------ *)
(** ** Strings as code-point sequences *)

Definition str := list Z.

(** UTF-8 decoder, used only to write literals readably. *)
Fixpoint utf8_decode (l : list Z) : str :=
  match l with
  | [] => []
  | b0 :: t0 =>
    if b0 <? 128 then b0 :: utf8_decode t0
    else match t0 with
    | [] => []
    | b1 :: t1 =>
      if b0 <? 224 then ((b0 - 192) * 64 + (b1 - 128)) :: utf8_decode t1
      else match t1 with
      | [] => []
      | b2 :: t2 =>
        if b0 <? 240
        then ((b0 - 224) * 4096 + (b1 - 128) * 64 + (b2 - 128)) :: utf8_decode t2
        else match t2 with
        | [] => []
        | b3 :: t3 =>
          ((b0 - 240) * 262144 + (b1 - 128) * 4096 + (b2 - 128) * 64 + (b3 - 128))
            :: utf8_decode t3
        end
      end
    end
  end.

Definition u (s : string) : str :=
  utf8_decode (map (fun b => Z.of_N (Byte.to_N b)) (list_byte_of_string s)).

Definition in_range (lo hi c : Z) : bool := (lo <=? c) && (c <=? hi).

(** [p in s] for strings: [p] occurs as a contiguous run of [s]. *)
Fixpoint startswith (p s : str) : bool :=
  match p, s with
  | [], _ => true
  | a :: p', b :: s' => (a =? b) && startswith p' s'
  | _ :: _, [] => false
  end.

Fixpoint str_in (p s : str) : bool :=
  startswith p s || match s with [] => false | _ :: t => str_in p t end.

Definition str_eqb (a b : str) : bool := bool_decide (a = b).

(** [any(tok in s for tok in toks)] *)
Definition any_in (toks : list str) (s : str) : bool :=
  existsb (fun tok => str_in tok s) toks.

(** [s in toks] for a list of strings *)
Definition in_list (s : str) (toks : list str) : bool :=
  existsb (str_eqb s) toks.

(** [s.replace(a, b)] for a one-character [a]. *)
Definition replace_char (a : Z) (b : str) (s : str) : str :=
  flat_map (fun c => if c =? a then b else [c]) s.

(* ------------------------------------------------------------------ *)
(** ** Unicode tables (Python 3.11, Latin and Cyrillic blocks) *)

(** [str.isspace], which is also the class [\s] of [re]. *)
Definition is_space (c : Z) : bool :=
  in_range 9 13 c || in_range 28 32 c || (c =? 133) || (c =? 160)
  || (c =? 5760) || in_range 8192 8202 c || in_range 8232 8233 c
  || (c =? 8239) || (c =? 8287) || (c =? 12288).

(** The class [\w] of [re]: alphanumerics and the underscore. *)
Definition is_word (c : Z) : bool :=
  in_range 48 57 c || in_range 65 90 c || (c =? 95) || in_range 97 122 c
  || (c =? 170) || in_range 178 179 c || (c =? 181) || in_range 185 186 c
  || in_range 188 190 c || in_range 192 214 c || in_range 216 246 c
  || in_range 248 255 c || in_range 1024 1153 c || in_range 1162 1327 c.

Definition lower_char (c : Z) : Z :=
  if in_range 65 90 c || in_range 192 214 c || in_range 216 222 c
     || in_range 1040 1071 c then c + 32
  else if in_range 1024 1039 c then c + 80
  else if c =? 1216 then 1231
  else if (in_range 1120 1152 c || in_range 1162 1214 c || in_range 1232 1326 c)
          && Z.even c then c + 1
  else if in_range 1217 1229 c && Z.odd c then c + 1
  else c.

(** [s.lower()] *)
Definition lower (s : str) : str := map lower_char s.

Definition upper_char (c : Z) : str :=
  if in_range 97 122 c || in_range 224 246 c || in_range 248 254 c
     || in_range 1072 1103 c then [c - 32]
  else if in_range 1104 1119 c then [c - 80]
  else if c =? 223 then [83; 115]
  else if c =? 181 then [924]
  else if c =? 255 then [376]
  else if c =? 1231 then [1216]
  else if (in_range 1120 1153 c || in_range 1162 1215 c || in_range 1232 1327 c)
          && Z.odd c then [c - 1]
  else if in_range 1217 1230 c && Z.even c then [c - 1]
  else [c].

(** [s.capitalize()]: first character title-cased, the rest lower-cased. *)
Definition capitalize (s : str) : str :=
  match s with
  | [] => []
  | c :: t => upper_char c ++ lower t
  end.

(** [unicodedata.normalize("NFKC", s)] on single code points. *)
Definition nfkc_char (c : Z) : str :=
  if c =? 160 then [32]
  else if c =? 168 then [32; 776]
  else if c =? 170 then [97]
  else if c =? 175 then [32; 772]
  else if c =? 178 then [50]
  else if c =? 179 then [51]
  else if c =? 180 then [32; 769]
  else if c =? 181 then [956]
  else if c =? 184 then [32; 807]
  else if c =? 185 then [49]
  else if c =? 186 then [111]
  else if c =? 188 then [49; 8260; 52]
  else if c =? 189 then [49; 8260; 50]
  else if c =? 190 then [51; 8260; 52]
  else [c].

Definition nfkc (s : str) : str := flat_map nfkc_char s.

(** [s.strip()] *)
Fixpoint lstrip (s : str) : str :=
  match s with
  | c :: t => if is_space c then lstrip t else s
  | [] => []
  end.

Definition rstrip (s : str) : str := rev (lstrip (rev s)).

Definition strip (s : str) : str := rstrip (lstrip s).

(** [re.sub(r"[^\w\s]", " ", s)] *)
Definition sub_nonword (s : str) : str :=
  map (fun c => if is_word c || is_space c then c else 32) s.

(** [re.sub(r"\s+", " ", s)]: every maximal run of whitespace becomes
    one space; [in_run] tells that the previous character was whitespace. *)
Fixpoint collapse_from (in_run : bool) (s : str) : str :=
  match s with
  | [] => []
  | c :: t =>
    if is_space c
    then (if in_run then collapse_from true t else 32 :: collapse_from true t)
    else c :: collapse_from false t
  end.

Definition collapse_ws (s : str) : str := collapse_from false s.

(** [re.sub(r"\s+", "", s)] *)
Definition remove_ws (s : str) : str := filter (fun c => is_space c = false) s.

(* ------------------------------------------------------------------ *)
(** ** Text normaliser *)

(** [APOSTS]: the apostrophe-like code points. *)
Definition APOSTS : list Z :=
  [39; 700; 8217; 697; 8242; 96; 180; 701; 42892; 699].

Definition _prenorm (s : str) : str :=
  let s := nfkc s in
  let s := map (fun c => if existsb (Z.eqb c) APOSTS then 39 else c) s in
  replace_char 160 [32] s.

(** The three lines shared by the type and the status classifier:
    [s = _prenorm(x).strip().lower()], then the two [re.sub]s and a
    final [strip]. *)
Definition normalize_text (x : str) : str :=
  let s := lower (strip (_prenorm x)) in
  let s := sub_nonword s in
  strip (collapse_ws s).

Definition Operational : str := u "Ярокли".
Definition NonOperational : str := u "Яроксиз".
Definition NeedsRepair : str := u "Таъмирталаб".
Definition Unknown : str := u "Холати номаълум".

(** A word boundary [\b] between [prev] (the character before, if any)
    and the rest [s]. *)
Definition is_word_opt (c : option Z) : bool :=
  match c with Some c => is_word c | None => false end.

Definition word_boundary (prev : option Z) (s : str) : bool :=
  xorb (is_word_opt prev) (is_word_opt (head s)).

(** Match literal [lit] at the start of [s], giving the rest. *)
Definition eat (lit : str) (s : str) : option str :=
  if startswith lit s then Some (drop (length lit) s) else None.

(** [состояни(и|е)\b] after optional whitespace, anchored at [s]. *)
Definition match_sostoyanii (s : str) : bool :=
  match eat (u "состояни") (lstrip s) with
  | Some t =>
    match t with
    | c :: t' =>
      ((c =? 1080) || (c =? 1077)) && word_boundary (Some c) t'
    | [] => false
    end
  | None => false
  end.

(** [\bв\s*рабоч(ем|ее)?\s*состояни(и|е)\b] anchored at [s], where
    [prev] is the character before [s]. *)
Definition match_rabochem_at (prev : option Z) (s : str) : bool :=
  word_boundary prev s &&
  match eat (u "в") s with
  | Some t =>
    match eat (u "рабоч") (lstrip t) with
    | Some r =>
      match eat (u "ем") r with Some r' => match_sostoyanii r' | None => false end
      || match eat (u "ее") r with Some r' => match_sostoyanii r' | None => false end
      || match_sostoyanii r
    | None => false
    end
  | None => false
  end.

(** [\bв\s*ремонтн] anchored at [s]. *)
Definition match_remontn_at (prev : option Z) (s : str) : bool :=
  word_boundary prev s &&
  match eat (u "в") s with
  | Some t => startswith (u "ремонтн") (lstrip t)
  | None => false
  end.

(** [re.search]: try the anchored matcher at every position. *)
Fixpoint re_search_from (m : option Z -> str -> bool) (prev : option Z) (s : str) : bool :=
  m prev s ||
  match s with
  | [] => false
  | c :: t => re_search_from m (Some c) t
  end.

Definition re_search (m : option Z -> str -> bool) (s : str) : bool :=
  re_search_from m None s.

Definition icons_ok : list str := [u "✅"; u "🟢"; u "green"; u "ok"].
Definition icons_bad : list str := [u "⛔"; u "🛑"; u "🔴"; u "❌"].
Definition icons_repair : list str := [u "🛠"; u "🟡"; u "⚠"].

(** The operational test of [normalize_status] (source lines 292-301). *)
Definition is_operational (s : str) : bool :=
  str_in (u "яроқли") s || str_in (u "ярокли") s
  || str_in (u "ишлайди") s || str_in (u "ишламоқда") s || str_in (u "ишлаб турибди") s
  || str_in (u "ишга яроқли") s || str_in (u "ишга ярокли") s
  || str_in (u "эксплуатацияда") s || str_in (u "фойдаланишда") s
  || str_in (u "в эксплуатации") s
  || str_in (u "operational") s || str_in (u "in service") s || str_in (u "working") s
  || re_search match_rabochem_at s
  || str_in (u "исправен") s || str_in (u "исправна") s || str_in (u "исправно") s
  || str_in (u "исправный") s
  || str_in (u "работает") s || str_in (u "ready") s || str_in (u "good") s
  || str_in (u "active") s.

(** The non-operational test (source lines 305-314). *)
Definition is_non_operational (s : str) : bool :=
  str_in (u "яроқсиз") s || str_in (u "яроксиз") s
  || str_in (u "ишламаяпти") s || str_in (u "ишламайди") s || str_in (u "ишламаган") s
  || str_in (u "ишдан чиққан") s || str_in (u "ишдан чиккан") s
  || str_in (u "тизимдан ташқари") s
  || str_in (u "не работает") s || str_in (u "в не исправн") s || str_in (u "вне исправн") s
  || str_in (u "broken") s || str_in (u "inactive") s || str_in (u "out of order") s
  || str_in (u "қисман ишламайди") s || str_in (u "частично не работает") s
  || (str_in (u "исправен") s && str_in (u "не") s)
  || str_in (u "неисправ") s.

(** The repair test (source lines 318-325). *)
Definition is_repair (s : str) : bool :=
  str_in (u "таъмирталаб") s || str_in (u "тамирталаб") s
  || str_in (u "таъмирда") s || str_in (u "ремонтда") s
  || str_in (u "ремонт") s || str_in (u "ремонтируется") s
  || str_in (u "на ремонте") s || re_search match_remontn_at s
  || str_in (u "обслуживан") s || str_in (u "техобслуж") s
  || str_in (u "maintenance") s || str_in (u "under repair") s || str_in (u "repair") s.

(** The classification of the normalised text [s] (source lines 283-328). *)
Definition classify_status (s : str) : str :=
  if any_in icons_ok s then Operational
  else if any_in icons_bad s then NonOperational
  else if any_in icons_repair s then NeedsRepair
  else if is_operational s then Operational
  else if is_non_operational s then NonOperational
  else if is_repair s then NeedsRepair
  else Unknown.

Definition normalize_status (status : str) : str :=
  if str_eqb (strip status) [] then Unknown
  else classify_status (normalize_text status).

(** [type_mapping]: the lexicon of [normalize_tech_type], in source order. *)
Definition type_mapping : list (str * str) :=
  [ (u "погрузчик", u "Погрузчик");
    (u "мини бортовой", u "Мини бортовой");
    (u "минии бортовой", u "Мини бортовой");
    (u "микро бортовой", u "Мини бортовой");
    (u "эвакуатор", u "Эвакуатор");
    (u "хлоровоз", u "Хлоровоз");
    (u "самосвал", u "Самосвал");
    (u "экскаватор", u "Экскаватор");
    (u "трактор", u "Трактор");
    (u "бульдозер", u "Бульдозер");
    (u "автокран", u "Автокран");
    (u "бетономешалка", u "Бетономешалка");
    (u "цистерна", u "Цистерна");
    (u "фургон", u "Фургон");
    (u "рефрижератор", u "Рефрижератор");
    (u "гидролинамическая", u "Гидродинамическая");
    (u "гидролинамический", u "Гидродинамическая");
    (u "гидродинамическая", u "Гидродинамическая");
    (u "гидродинамический", u "Гидродинамическая");
    (u "гидравлическая", u "Гидродинамическая");
    (u "лаболаторная", u "Лабораторная");
    (u "лобораторная", u "Лабораторная");
    (u "лабораторная", u "Лабораторная");
    (u "камаз", u "Камаз");
    (u "зил", u "ЗИЛ");
    (u "газель", u "ГАЗель");
    (u "уаз", u "УАЗ");
    (u "компрессор", u "Компрессор");
    (u "генератор", u "Генератор");
    (u "автобус", u "Автобус");
    (u "микроавтобус", u "Микроавтобус");
    (u "машина", u "Машина");
    (u "грузовик", u "Грузовик") ].

Definition summary_keywords : list str :=
  [u "жами"; u "итого"; u "барчаси"; u "всего"; u "jami"; u "all"].

(** First entry of the lexicon whose key occurs in [s]. *)
Fixpoint lookup_type (m : list (str * str)) (s : str) : option str :=
  match m with
  | [] => None
  | (key, standard_name) :: rest =>
    if str_in key s then Some standard_name else lookup_type rest s
  end.

(** [normalize_tech_type] on a text; [None] is Python's [None]. *)
Definition normalize_tech_type (tech_type : str) : option str :=
  if str_eqb (strip tech_type) [] then None
  else
    let normalized := normalize_text tech_type in
    if str_eqb normalized []
       || in_list normalized [u "nan"; u "none"; u "null"; []] then None
    else if any_in summary_keywords normalized then None
    else match lookup_type type_mapping normalized with
         | Some standard_name => Some standard_name
         | None => Some (capitalize (strip tech_type))
         end.

(* ------------------------------------------------------------------ *)
(** ** [float(s)] on text, up to the sign of the result

    [normalize_tracker_flag] only compares the parsed number with zero,
    so the parser returns the class of the value. *)

Inductive float_class := FPositive | FZero | FNegative | FNotANumber.

Definition is_digit (c : Z) : bool := in_range 48 57 c.

(** Underscores may only stand between two digits; they are removed. *)
Fixpoint drop_underscores (prev : Z) (s : str) : option str :=
  match s with
  | [] => if prev =? 95 then None else Some []
  | c :: t =>
    if c =? 95 then (if is_digit prev then drop_underscores c t else None)
    else if (prev =? 95) && negb (is_digit c) then None
    else option_map (cons c) (drop_underscores c t)
  end.

Fixpoint span_digits (s : str) : str * str :=
  match s with
  | c :: t =>
    if is_digit c then (let '(d, r) := span_digits t in (c :: d, r)) else ([], s)
  | [] => ([], [])
  end.

Definition digits_value (ds : str) : Z :=
  fold_left (fun acc c => acc * 10 + (c - 48)) ds 0.

(** An optional sign: the rest and whether it was a minus. *)
Definition split_sign (s : str) : bool * str :=
  match s with
  | c :: t => if c =? 45 then (true, t) else if c =? 43 then (false, t) else (false, s)
  | [] => (false, [])
  end.

(** The exponent part, which must reach the end of the text. *)
Definition parse_exponent (r : str) : option Z :=
  match r with
  | [] => Some 0
  | c :: t =>
    if (c =? 101) || (c =? 69) then
      let '(neg, t') := split_sign t in
      let '(ds, rest) := span_digits t' in
      match ds, rest with
      | _ :: _, [] => Some (if neg then - digits_value ds else digits_value ds)
      | _, _ => None
      end
    else None
  end.

(** Does the decimal [m * 10^e] (with [m > 0]) round to zero in binary64,
    that is, is it at most half the least subnormal [2^-1074]? *)
Definition rounds_to_zero (m e : Z) : bool :=
  (e <? 0) && (m * 2 ^ 1075 <=? 10 ^ (- e)).

Definition parse_decimal (neg : bool) (s : str) : option float_class :=
  let '(ip, r1) := span_digits s in
  let '(fp, r2) :=
    match r1 with
    | c :: t => if c =? 46 then span_digits t else ([], r1)
    | [] => ([], [])
    end in
  match ip ++ fp with
  | [] => None
  | _ :: _ =>
    match parse_exponent r2 with
    | None => None
    | Some ex =>
      let m := digits_value (ip ++ fp) in
      let e := ex - Z.of_nat (length fp) in
      if (m =? 0) || rounds_to_zero m e then Some FZero
      else Some (if neg then FNegative else FPositive)
    end
  end.

Definition py_float (x : str) : option float_class :=
  match drop_underscores 0 (strip x) with
  | None => None
  | Some s =>
    let '(neg, body) := split_sign s in
    let low := lower body in
    if str_eqb low (u "inf") || str_eqb low (u "infinity")
    then Some (if neg then FNegative else FPositive)
    else if str_eqb low (u "nan") then Some FNotANumber
    else parse_decimal neg body
  end.

(* ------------------------------------------------------------------ *)
(** ** Tracker flag *)

Definition tracker_no : list str :=
  [u "no"; u "нет"; u "yo'q"; u "йўқ"; u "yuk"; u "йук"; u "0"; u "false"; u "n"].

Definition tracker_yes : list str :=
  [u "yes"; u "да"; u "ha"; u "bor"; u "есть"; u "1"; u "true"; u "y"; u "д"].

(** The text tests of [normalize_tracker_flag] (source lines 358-376). *)
Definition tracker_text (s : str) : bool :=
  let s_low := lower s in
  if str_in (u "мавжуд эмас") s_low || str_in (u "mavjud emas") s_low then false
  else if str_in (u "мавжуд") s_low || str_in (u "mavjud") s_low then true
  else if in_list s_low tracker_no then false
  else if in_list s_low tracker_yes then true
  else if (str_in (u "gps") s_low || str_in (u "трекер") s_low)
          && negb (str_in (u "нет") s_low) && negb (str_in (u "yo'q") s_low)
          && negb (str_in (u "йўқ") s_low) then true
  else false.

(** [normalize_tracker_flag] on the text [str(value)]. *)
Definition normalize_tracker_flag (value : str) : bool :=
  let s := strip value in
  if str_eqb s [] then false
  else match py_float (replace_char 44 [46] s) with
       | Some FPositive => true
       | Some FZero => false
       | _ => tracker_text s
       end.

(* ------------------------------------------------------------------ *)
(** ** Schema resolver *)

Definition COL_TYPE : str := u "Техника тури".
Definition COL_REGION : str := u "Бириктирилган шахар ёки туман".
Definition COL_STATUS : str := u "Холати".

Definition STATUS_ALIASES : list str :=
  [ u "Холати"; u "Ҳолати"; u "Статус"; u "Состояние"; u "Ҳолат"; u "Holati";
    u "Status"; u "Техника холати"; u "Техника ҳолати"; u "Техника статусы";
    u "Техника состояние" ].

Definition TYPE_ALIASES : list str :=
  [ COL_TYPE; u "Техники тури"; u "Тип техники"; u "Тури техника";
    u "Техника тўри"; u "Вид техники"; u "Наименование техники" ].

Definition REGION_ALIASES : list str :=
  [ COL_REGION; u "Город/район"; u "Район"; u "Туман"; u "Населенный пункт";
    u "Шахар/туман"; u "Шахар ёки туман" ].

Definition QTY_ALIASES : list str :=
  [ u "Количество"; u "Кол-во"; u "Сони"; u "Qty"; u "Count" ].

Definition TRACKER_ALIASES : list str :=
  [ u "GPS"; u "Gps"; u "gps"; u "Трекер"; u "Трекер установлен";
    u "Наличие трекера"; u "Наличие GPS"; u "GPS трекер"; u "GPS-трекер";
    u "GPS / ГЛОНАСС"; u "GPS/ГЛОНАСС"; u "GPS билан таъминланганлиги";
    u "GPS билапн таъминланганлиги" ].

Definition _normalize_header (s : str) : str :=
  let s := lower (strip s) in
  let s := replace_char 1203 [1093] s in
  remove_ws s.

(** A Python [dict] with text keys: insertion-ordered, a repeated key
    keeps its place and takes the new value. *)
Definition dict := list (str * str).

Fixpoint dict_set (k v : str) (d : dict) : dict :=
  match d with
  | [] => [(k, v)]
  | (k', v') :: t =>
    if str_eqb k k' then (k, v) :: t else (k', v') :: dict_set k v t
  end.

Fixpoint dict_get (k : str) (d : dict) : option str :=
  match d with
  | [] => None
  | (k', v) :: t => if str_eqb k k' then Some v else dict_get k t
  end.

Definition _norm_map (cols : list str) : dict :=
  fold_left (fun d c => dict_set (_normalize_header c) c d) cols [].

(** Step 1: the first alias whose normal form is a key. *)
Fixpoint exact_match (norm_cols : dict) (aliases : list str) : option str :=
  match aliases with
  | [] => None
  | a :: rest =>
    match dict_get (_normalize_header a) norm_cols with
    | Some orig => Some orig
    | None => exact_match norm_cols rest
    end
  end.

(** Step 2: one pass of the inner loop body, updating [best]. *)
Definition substring_step (ka : str) (best : option str) (item : str * str)
  : option str :=
  let '(nc, orig) := item in
  if negb (str_eqb ka []) && str_in ka nc then
    match best with
    | None => Some orig
    | Some b =>
      if (length nc <? length (_normalize_header b))%nat then Some orig else best
    end
  else best.

Definition substring_match (norm_cols : dict) (aliases : list str) : option str :=
  fold_left
    (fun best a => fold_left (substring_step (_normalize_header a)) norm_cols best)
    aliases None.

(** Step 3: the token sets, in source order: status, region, type. *)
Definition status_tokens : list str :=
  [u "холат"; u "ҳолат"; u "holat"; u "status"; u "состояние"].
Definition region_tokens : list str :=
  [u "шахар"; u "туман"; u "район"; u "город"].
Definition type_tokens : list str :=
  [u "техника"; u "тип"; u "тур"; u "вид"].

Definition token_sets : list (list str) :=
  [status_tokens; region_tokens; type_tokens].

Fixpoint first_with_token (tokens : list str) (norm_cols : dict) : option str :=
  match norm_cols with
  | [] => None
  | (nc, orig) :: rest =>
    if any_in tokens nc then Some orig else first_with_token tokens rest
  end.

Fixpoint token_heuristic (sets : list (list str)) (norm_cols : dict) : option str :=
  match sets with
  | [] => None
  | tokens :: rest =>
    match first_with_token tokens norm_cols with
    | Some orig => Some orig
    | None => token_heuristic rest norm_cols
    end
  end.

(** Python truthiness of an [Optional[str]]. *)
Definition truthy (o : option str) : bool :=
  match o with
  | Some (_ :: _) => true
  | _ => false
  end.

(** [find_column(df, aliases)], on the column labels of [df]. *)
Definition find_column (columns : list str) (aliases : list str) : option str :=
  let norm_cols := _norm_map columns in
  match exact_match norm_cols aliases with
  | Some orig => Some orig
  | None =>
    let best := substring_match norm_cols aliases in
    if truthy best then best
    else token_heuristic token_sets norm_cols
  end.

(* ------------------------------------------------------------------ *)
(** ** Worksheets, cells and the row pipeline *)

(** A float as pandas sees it: not-a-number, an infinity, or a finite
    value, which is a rational [num/den]. *)
Inductive pyfloat := FNan | FInf | FFin (num : Z) (den : positive).

(** A worksheet cell after [get_all_records] has turned numeric-looking
    texts into numbers. *)
Inductive cell := CInt (n : Z) | CFloat (f : pyfloat) | CStr (s : str).

(** Row 1 holds the column labels, the other rows the values. *)
Record worksheet := { header : list str; body : list (list cell) }.

(** What a call to the spreadsheet service gives: the records, or an
    exception with its message. *)
Inductive response := Rows (ws : worksheet) | ApiError (msg : str).

(** The surroundings of the program: the two library conversions that
    are left open, the process environment and the spreadsheet service.
    [gc_open n sid] is the outcome of the [n]-th call to the service, made
    for sheet [sid]; [task_fails n] tells whether the [n]-th load task
    dies outside of [load_single_region_sync] (in the pacing gate or the
    thread hand-over). *)
Record env := {
  text_to_numeric : str -> pyfloat;   (* pd.to_numeric(errors="coerce") on a text *)
  float_str : pyfloat -> str;         (* str(x) for a float x *)
  getenv : str -> option str;         (* os.getenv *)
  gc_open : nat -> str -> response;
  task_fails : nat -> bool
}.

(** One row of the frame the loader returns. *)
Record record := {
  region_name : str;
  city_district : str;
  type_normalized : str;
  status_normalized : str;
  qty : Z;
  has_tracker : bool
}.

Definition DataFrame := list record.

(** [str(n)] for an int. *)
Definition int_str (n : Z) : str := u (NilZero.string_of_int (Z.to_int n)).

Definition py_str (E : env) (c : cell) : str :=
  match c with
  | CInt n => int_str n
  | CFloat f => float_str E f
  | CStr s => s
  end.

(** [pd.to_numeric(x, errors="coerce")] on one cell. *)
Definition to_numeric (E : env) (c : cell) : pyfloat :=
  match c with
  | CInt n => FFin n 1
  | CFloat f => f
  | CStr s => text_to_numeric E s
  end.

(** [.fillna(0).astype(int)]: a missing value becomes 0, a finite one is
    truncated towards zero, an infinite one raises ([None]). The target
    is an int64: a value out of its range does not raise, the cast
    gives the least int64 (as numpy does on x86-64), which the next step
    brings to 1. *)
Definition INT64_MIN : Z := - 2 ^ 63.

Definition fillna0_astype_int (x : pyfloat) : option Z :=
  match x with
  | FNan => Some 0
  | FInf => None
  | FFin n d =>
    let q := Z.quot n (Z.pos d) in
    if (INT64_MIN <=? q) && (q <? 2 ^ 63) then Some q else Some INT64_MIN
  end.

(** [df.loc[df["qty"] <= 0, "qty"] = 1] *)
Definition clamp_qty (q : Z) : Z := if q <=? 0 then 1 else q.

Fixpoint index_of (c : str) (columns : list str) : option nat :=
  match columns with
  | [] => None
  | h :: t => if str_eqb c h then Some O else option_map S (index_of c t)
  end.

(** [row[col]]; a row shorter than the header is padded with blanks. *)
Definition get_cell (columns : list str) (row : list cell) (col : str) : cell :=
  match index_of col columns with
  | Some i => nth i row (CStr [])
  | None => CStr []
  end.

Definition NOT_SPECIFIED : str := u "Не указан".

(** The quantity of one row (source lines 416-421). *)
Definition row_qty (E : env) (columns : list str) (qty_col : option str)
    (row : list cell) : option Z :=
  match qty_col with
  | Some c =>
    if truthy qty_col
    then option_map clamp_qty (fillna0_astype_int (to_numeric E (get_cell columns row c)))
    else Some 1
  | None => Some 1
  end.

Definition row_type (columns : list str) (type_col : str) (row : list cell)
  : option str :=
  match get_cell columns row type_col with
  | CStr s => normalize_tech_type s
  | _ => None
  end.

Definition row_status (columns : list str) (status_col : option str)
    (row : list cell) : str :=
  match status_col with
  | Some c =>
    if truthy status_col then
      match get_cell columns row c with
      | CStr s => normalize_status s
      | _ => Unknown
      end
    else Unknown
  | None => Unknown
  end.

Definition row_district (E : env) (region : str) (columns : list str)
    (region_col : option str) (row : list cell) : str :=
  match region_col with
  | Some c =>
    if truthy region_col then
      let x := get_cell columns row c in
      let is_placeholder :=   (* a missing value is filled with the placeholder *)
        match x with
        | CStr s => str_eqb s NOT_SPECIFIED
        | CFloat FNan => true
        | _ => false
        end in
      if is_placeholder || str_eqb (strip (py_str E x)) [] then region
      else strip (py_str E x)
    else region
  | None => region
  end.

Definition row_tracker (E : env) (columns : list str) (tracker_col : option str)
    (row : list cell) : bool :=
  match tracker_col with
  | Some c =>
    if truthy tracker_col
    then normalize_tracker_flag (py_str E (get_cell columns row c))
    else false
  | None => false
  end.

(** The loader writes its results into the frame it reads from: the
    columns [qty], [region_name], [type_normalized], [status_normalized]
    and [city_district], in this order. A label that is new goes to the
    end of the columns, a label that the sheet already has is
    overwritten, and a later step that reads a column sees what was
    written. *)
Definition fit (n : nat) (row : list cell) : list cell :=
  take n (row ++ replicate n (CStr [])).

Definition add_column (columns : list str) (name : str) : list str :=
  if in_list name columns then columns else columns ++ [name].

Definition set_cell (columns : list str) (row : list cell) (name : str) (v : cell)
  : list cell :=
  match index_of name columns with
  | Some i => <[i := v]> (fit (length columns) row)
  | None => fit (length columns) row ++ [v]
  end.

Definition derived_columns : list str :=
  [u "qty"; u "region_name"; u "type_normalized"; u "status_normalized";
   u "city_district"].

(** [df[col]] for a label that occurs more than once among the columns
    is a frame and not a column; the step that reads it raises. *)
Definition occurrences (col : str) (columns : list str) : nat :=
  length (List.filter (str_eqb col) columns).

Definition ambiguous (columns : list str) (col : option str) : bool :=
  truthy col && (1 <? occurrences (default [] col) columns)%nat.

(** The outcome of one row: an exception, a dropped row, or a record. *)
Inductive row_result := RowRaises | RowDropped | RowKept (r : record).

Definition row_record (E : env) (region : str) (columns : list str)
    (status_col type_col region_col qty_col tracker_col : option str)
    (tc : str) (row : list cell) : row_result :=
  match row_qty E columns qty_col row with
  | None => RowRaises
  | Some q =>
    let columns1 := add_column columns (u "qty") in
    let row1 := set_cell columns row (u "qty") (CInt q) in
    let columns2 := add_column columns1 (u "region_name") in
    let row2 := set_cell columns1 row1 (u "region_name") (CStr region) in
    match row_type columns2 tc row2 with
    | Some (c :: t) =>
      let columns3 := add_column columns2 (u "type_normalized") in
      let row3 := set_cell columns2 row2 (u "type_normalized") (CStr (c :: t)) in
      let status := row_status columns3 status_col row3 in
      let columns4 := add_column columns3 (u "status_normalized") in
      let row4 := set_cell columns3 row3 (u "status_normalized") (CStr status) in
      let district := row_district E region columns4 region_col row4 in
      let columns5 := add_column columns4 (u "city_district") in
      let row5 := set_cell columns4 row4 (u "city_district") (CStr district) in
      RowKept {| region_name := region;
                 city_district := district;
                 type_normalized := c :: t;
                 status_normalized := status;
                 qty := q;
                 has_tracker := row_tracker E columns5 tracker_col row5 |}
    | _ => RowDropped
    end
  end.

(** Collect the rows; one exception aborts the whole frame. *)
Fixpoint collect_rows (rs : list row_result) : option DataFrame :=
  match rs with
  | [] => Some []
  | RowRaises :: _ => None
  | RowDropped :: t => collect_rows t
  | RowKept r :: t => option_map (cons r) (collect_rows t)
  end.

(** [pd.DataFrame(values)] gives a column that holds floats and no text
    the float dtype, so its ints become floats; any other column keeps
    its cells as they are. *)
Definition is_text (c : cell) : bool :=
  match c with CStr _ => true | _ => false end.
Definition is_float (c : cell) : bool :=
  match c with CFloat _ => true | _ => false end.

Definition column_is_float (rows : list (list cell)) (j : nat) : bool :=
  let col := map (fun row => nth j row (CStr [])) rows in
  existsb is_float col && negb (existsb is_text col).

Definition int_to_float (c : cell) : cell :=
  match c with CInt n => CFloat (FFin n 1) | _ => c end.

Definition unify_row (rows : list (list cell)) (row : list cell) : list cell :=
  imap (fun j c => if column_is_float rows j then int_to_float c else c) row.

Definition unify_columns (rows : list (list cell)) : list (list cell) :=
  map (unify_row rows) rows.

(** The body of the [try] block of [load_single_region_sync] once the
    records are there (source lines 400-471, and again 481-527 in the
    retry): [None] when it raises. The status, type, region and quantity
    columns are resolved on the headers of the sheet; the tracker column
    is resolved last, when the five result columns are there as well. *)
Definition process (E : env) (region : str) (ws : worksheet) : option DataFrame :=
  match header ws, body ws with
  | [], _ | _, [] => Some []
  | _ :: _, _ :: _ =>
    let columns := map strip (header ws) in
    let status_col := find_column columns STATUS_ALIASES in
    let type_col := find_column columns TYPE_ALIASES in
    let region_col := find_column columns REGION_ALIASES in
    let qty_col := find_column columns QTY_ALIASES in
    let added := fold_left add_column derived_columns columns in
    let tracker_col := find_column added TRACKER_ALIASES in
    if ambiguous columns status_col || ambiguous columns qty_col
       || ambiguous columns type_col || ambiguous columns region_col
       || ambiguous added tracker_col
    then None
    else
      let rows :=
        map (row_record E region columns status_col type_col region_col qty_col
               tracker_col (default [] type_col)) (unify_columns (body ws)) in
      match collect_rows rows with
      | None => None
      | Some df => if truthy type_col then Some df else Some []
      end
  end.

(** The handler of every exception raised in the block: an empty frame. *)
Definition frame_or_empty (o : option DataFrame) : DataFrame := default [] o.

(** [load_single_region_sync]; [n] counts the calls made to the service
    so far, the new count is returned with the result. *)
Definition load_single_region_sync (E : env) (n : nat)
    (region_sheet : str * option str) : (str * DataFrame) * nat :=
  let '(region, sheet_id) := region_sheet in
  if truthy sheet_id then
    let sid := default [] sheet_id in
    match gc_open E n sid with
    | Rows ws => ((region, frame_or_empty (process E region ws)), S n)
    | ApiError msg =>
      if str_in (u "429") msg then
        match gc_open E (S n) sid with
        | Rows ws => ((region, frame_or_empty (process E region ws)), S (S n))
        | ApiError _ => ((region, []), S (S n))
        end
      else ((region, []), S n)
    end
  else ((region, []), n).

(* ------------------------------------------------------------------ *)
(** ** Fetch scheduler *)

Definition REGION_SHEETS (E : env) : list (str * option str) :=
  [ (u "Андижон", getenv E (u "SHEET_ANDIJON"));
    (u "Фарғона", getenv E (u "SHEET_FARGONA"));
    (u "Наманган", getenv E (u "SHEET_NAMANGAN"));
    (u "Тошкент шаҳри", getenv E (u "SHEET_TASHKENT"));
    (u "Тошкент вил.", getenv E (u "SHEET_TASHKENT_VIL"));
    (u "Самарқанд", getenv E (u "SHEET_SAMARKAND"));
    (u "Жиззах", getenv E (u "SHEET_JIZZAKH"));
    (u "Сирдарё", getenv E (u "SHEET_SIRDARYO"));
    (u "Қашқадарё", getenv E (u "SHEET_QASHQADARYO"));
    (u "Сурхондарё", getenv E (u "SHEET_SURXONDARYO"));
    (u "Бухоро", getenv E (u "SHEET_BUKHARA"));
    (u "Навоий", getenv E (u "SHEET_NAVOIY"));
    (u "Хоразм", getenv E (u "SHEET_XORAZM"));
    (u "Қорақалпоғистон", getenv E (u "SHEET_QORAQALPOG"));
    (u "Дамхужа", getenv E (u "SHEET_DAMXOJA"));
    (u "Мусаффо", getenv E (u "SHEET_MUSAFFO"));
    (u "Чимган-Чарбоғ", getenv E (u "SHEET_CHIMGAN"));
    (u "Сувўлчагичхизмати", getenv E (u "SHEET_SUVULCHAGICH")) ].

(** [REGION_SHEETS.get(region)] *)
Fixpoint sheets_get (region : str) (d : list (str * option str)) : option str :=
  match d with
  | [] => None
  | (name, sid) :: t => if str_eqb region name then sid else sheets_get region t
  end.

(** What lies outside the process and changes as it runs: how many calls
    the spreadsheet service has received and how many load tasks were
    started. *)
Record world := { api_calls : nat; tasks : nat }.

(** [load_single_region_async]: [None] when the task raises. *)
Definition load_single_region_async (E : env) (w : world)
    (region_sheet : str * option str) : option (str * DataFrame) * world :=
  if task_fails E (tasks w)
  then (None, {| api_calls := api_calls w; tasks := S (tasks w) |})
  else
    let '(r, n) := load_single_region_sync E (api_calls w) region_sheet in
    (Some r, {| api_calls := n; tasks := S (tasks w) |}).

(** [asyncio.gather] with [return_exceptions=True], the tasks taken in
    list order: a task that raised leaves [None] in the results. *)
Fixpoint gather (E : env) (w : world) (regions : list (str * option str))
  : list (option (str * DataFrame)) * world :=
  match regions with
  | [] => ([], w)
  | rs :: rest =>
    let '(r, w1) := load_single_region_async E w rs in
    let '(results, w2) := gather E w1 rest in
    (r :: results, w2)
  end.

(** The frames of the tasks that returned a non-empty frame. *)
Fixpoint nonempty_parts (results : list (option (str * DataFrame))) : list DataFrame :=
  match results with
  | [] => []
  | None :: rest => nonempty_parts rest
  | Some (_, []) :: rest => nonempty_parts rest
  | Some (_, df) :: rest => df :: nonempty_parts rest
  end.

Definition load_all_regions_async (E : env) (w : world) : DataFrame * world :=
  let regions := List.filter (fun rs => truthy (snd rs)) (REGION_SHEETS E) in
  match regions with
  | [] => ([], w)
  | _ :: _ =>
    let '(results, w') := gather E w regions in
    match nonempty_parts results with
    | [] => ([], w')
    | parts => (concat parts, w')
    end
  end.

(* ------------------------------------------------------------------ *)
(** ** Cache *)

(** [CACHE_TTL = timedelta(minutes=30)], in microseconds, the resolution
    of [datetime]. *)
Definition CACHE_TTL : Z := 30 * 60 * 1000000.

Definition ALL : str := u "ALL".

(** The program state: the [CACHE] dict, the outside world, and a count
    of the times [get_df_async] went to the loaders. *)
Record state := {
  CACHE : gmap str (DataFrame * Z);
  outside : world;
  fetches : nat
}.

(** [key = region or "ALL"] *)
Definition cache_key (region : option str) : str :=
  if truthy region then default [] region else ALL.

(** The awaited call in the [try] block of [get_df_async]: the frame, or
    [None] when the call raises. *)
Definition fetch_frame (E : env) (w : world) (region : option str)
  : option DataFrame * world :=
  if truthy region && negb (str_eqb (default [] region) ALL)
  then
    let '(r, w') :=
      load_single_region_async E w
        (default [] region, sheets_get (default [] region) (REGION_SHEETS E)) in
    (option_map snd r, w')
  else
    let '(df, w') := load_all_regions_async E w in
    (Some df, w').

(** The unexpired entry for [key], if there is one. *)
Definition fresh_entry (cache : gmap str (DataFrame * Z)) (key : str) (now : Z)
  : option DataFrame :=
  match cache !! key with
  | Some (df, expiry) => if now <? expiry then Some df else None
  | None => None
  end.

(** [get_df_async(region, force_refresh)] called when the clock reads
    [now]. *)
Definition get_df_async (E : env) (st : state) (now : Z)
    (region : option str) (force_refresh : bool) : DataFrame * state :=
  let key := cache_key region in
  match (if force_refresh then None else fresh_entry (CACHE st) key now) with
  | Some df => (df, st)
  | None =>
    let '(loaded, w) := fetch_frame E (outside st) region in
    match loaded with
    | Some df =>
      (df, {| CACHE := <[key := (df, now + CACHE_TTL)]> (CACHE st);
              outside := w; fetches := S (fetches st) |})
    | None =>
      let st' := {| CACHE := CACHE st; outside := w; fetches := S (fetches st) |} in
      match CACHE st !! key with
      | Some (df, _) => (df, st')
      | None => ([], st')
      end
    end
  end.

(* ------------------------------------------------------------------ *)
(** ** Aggregation engine *)

(** Order of Python strings: lexicographic on code points. *)
Fixpoint str_compare (a b : str) : comparison :=
  match a, b with
  | [], [] => Eq
  | [], _ :: _ => Lt
  | _ :: _, [] => Gt
  | x :: a', y :: b' =>
    match x ?= y with
    | Eq => str_compare a' b'
    | c => c
    end
  end.

Definition str_lt (a b : str) : Prop := str_compare a b = Lt.

(** The group keys of [groupby]: each key once, in ascending order. *)
Fixpoint insert_key (k : str) (ks : list str) : list str :=
  match ks with
  | [] => [k]
  | k' :: t =>
    match str_compare k k' with
    | Lt => k :: ks
    | Eq => ks
    | Gt => k' :: insert_key k t
    end
  end.

Definition sorted_keys (l : list str) : list str := foldr insert_key [] l.

(** The [qty] column has dtype int64: sums wrap around. *)
Definition wrap64 (x : Z) : Z := (x + 2 ^ 63) mod 2 ^ 64 - 2 ^ 63.

(** The sum of [qty] over the rows of one group. *)
Definition group_total (key : record -> str) (df : DataFrame) (k : str) : Z :=
  foldr (fun r acc => if str_eqb (key r) k then wrap64 (qty r + acc) else acc) 0 df.

(** [df.groupby(key, as_index=False).agg(qty=("qty", "sum"))] *)
Definition groupby_sum (key : record -> str) (df : DataFrame) : list (str * Z) :=
  map (fun k => (k, group_total key df k)) (sorted_keys (map key df)).

(** [.sort_values("qty", ascending=False)] as a stable sort would do
    it: descending, rows of equal quantity keep their order. pandas'
    default sort is not stable, so this is one of the orders the call
    may give; the views below are used for what does not depend on the
    order of ties (which rows there are, and their totals), and the
    module [AnySort] states the views over the sort itself. *)
Fixpoint insert_desc (x : str * Z) (l : list (str * Z)) : list (str * Z) :=
  match l with
  | [] => [x]
  | y :: t => if snd x <? snd y then y :: insert_desc x t else x :: l
  end.

Definition sort_values_desc (rows : list (str * Z)) : list (str * Z) :=
  foldr insert_desc [] rows.

Definition ranked (key : record -> str) (df : DataFrame) : list (str * Z) :=
  sort_values_desc (groupby_sum key df).

Definition count_type_per_region (df_all : DataFrame) (tech_type : str)
  : list (str * Z) :=
  match df_all with
  | [] => []
  | _ :: _ =>
    match normalize_tech_type tech_type with
    | Some (c :: t) =>
      let sub := List.filter (fun r => str_eqb (type_normalized r) (c :: t)) df_all in
      match sub with
      | [] => []
      | _ :: _ => ranked region_name sub
      end
    | _ => []
    end
  end.

Definition get_status_distribution_for_type_region (df_all : DataFrame)
    (tech_type : str) (region : str) : list (str * Z) :=
  match df_all with
  | [] => []
  | _ :: _ =>
    match normalize_tech_type tech_type with
    | Some (c :: t) =>
      let filtered :=
        List.filter (fun r => str_eqb (region_name r) region
                              && str_eqb (type_normalized r) (c :: t)) df_all in
      match filtered with
      | [] => []
      | _ :: _ => ranked status_normalized filtered
      end
    | _ => []
    end
  end.

Definition all_types_summary (df : DataFrame) : list (str * Z) :=
  match df with
  | [] => []
  | _ :: _ => ranked type_normalized df
  end.

Definition get_status_distribution_any (df_subset : DataFrame) : list (str * Z) :=
  match df_subset with
  | [] => []
  | _ :: _ => ranked status_normalized df_subset
  end.

Definition count_trackers_by_region (df_all : DataFrame) : list (str * Z) :=
  match df_all with
  | [] => []
  | _ :: _ =>
    let sub := List.filter has_tracker df_all in
    match sub with
    | [] => []
    | _ :: _ => ranked region_name sub
    end
  end.

(** *** The ranked views over the sort

    What [sort_values("qty", ascending=False)] promises: the same rows,
    by descending quantity. The order of rows of equal quantity is left
    to the sort. *)
Definition by_quantity (rows : list (str * Z)) : Prop :=
  StronglySorted (fun a b => snd b <= snd a) rows.

Definition sorts_by_qty (sort_values : list (str * Z) -> list (str * Z)) : Prop :=
  forall rows, sort_values rows ≡ₚ rows /\ by_quantity (sort_values rows).

(** The five views with the sort as a parameter. *)
Module AnySort.
Section Views.
Variable sort_values : list (str * Z) -> list (str * Z).

Definition ranked (key : record -> str) (df : DataFrame) : list (str * Z) :=
  sort_values (groupby_sum key df).

Definition count_type_per_region (df_all : DataFrame) (tech_type : str)
  : list (str * Z) :=
  match df_all with
  | [] => []
  | _ :: _ =>
    match normalize_tech_type tech_type with
    | Some (c :: t) =>
      let sub := List.filter (fun r => str_eqb (type_normalized r) (c :: t)) df_all in
      match sub with
      | [] => []
      | _ :: _ => ranked region_name sub
      end
    | _ => []
    end
  end.

Definition get_status_distribution_for_type_region (df_all : DataFrame)
    (tech_type : str) (region : str) : list (str * Z) :=
  match df_all with
  | [] => []
  | _ :: _ =>
    match normalize_tech_type tech_type with
    | Some (c :: t) =>
      let filtered :=
        List.filter (fun r => str_eqb (region_name r) region
                              && str_eqb (type_normalized r) (c :: t)) df_all in
      match filtered with
      | [] => []
      | _ :: _ => ranked status_normalized filtered
      end
    | _ => []
    end
  end.

Definition all_types_summary (df : DataFrame) : list (str * Z) :=
  match df with
  | [] => []
  | _ :: _ => ranked type_normalized df
  end.

Definition get_status_distribution_any (df_subset : DataFrame) : list (str * Z) :=
  match df_subset with
  | [] => []
  | _ :: _ => ranked status_normalized df_subset
  end.

Definition count_trackers_by_region (df_all : DataFrame) : list (str * Z) :=
  match df_all with
  | [] => []
  | _ :: _ =>
    let sub := List.filter has_tracker df_all in
    match sub with
    | [] => []
    | _ :: _ => ranked region_name sub
    end
  end.

End Views.
End AnySort.

(** The view with the sort left out is its group-and-sum table. *)
Definition unsorted (rows : list (str * Z)) : list (str * Z) := rows.

(** A sort that puts rows of equal quantity in the reverse of their
    order. *)
Fixpoint insert_after (x : str * Z) (l : list (str * Z)) : list (str * Z) :=
  match l with
  | [] => [x]
  | y :: t => if snd x <=? snd y then y :: insert_after x t else x :: l
  end.

Definition sort_values_reversing (rows : list (str * Z)) : list (str * Z) :=
  foldr insert_after [] rows.

(* ------------------------------------------------------------------ *)
(** ** Vocabulary of the statements and sample data *)

(** Every entry of the map pairs a column with its normal form. *)
Definition from_columns (columns : list str) (d : dict) : Prop :=
  forall k v, In (k, v) d -> In v columns /\ _normalize_header v = k.

Definition has_key (k : str) (d : dict) : Prop := exists v, In (k, v) d.

Definition ascii (c : Z) : Prop := c < 128.

Definition NOT_AVAILABLE : str := u "мавжуд эмас".

(** The three roles that have a token set, with the alias list the
    loader passes for each and the token set the source comments assign
    to it. *)
Inductive role := RoleStatus | RoleRegion | RoleType.

Definition role_aliases (r : role) : list str :=
  match r with
  | RoleStatus => STATUS_ALIASES
  | RoleRegion => REGION_ALIASES
  | RoleType => TYPE_ALIASES
  end.

Definition role_tokens (r : role) : list str :=
  match r with
  | RoleStatus => status_tokens
  | RoleRegion => region_tokens
  | RoleType => type_tokens
  end.

(** The claim C9 at one role and one list of headers: a header returned
    by the token step holds a token of the role being resolved. *)
Definition token_step_role_specific (r : role) (columns : list str) : Prop :=
  exact_match (_norm_map columns) (role_aliases r) = None ->
  truthy (substring_match (_norm_map columns) (role_aliases r)) = false ->
  forall h, find_column columns (role_aliases r) = Some h ->
    any_in (role_tokens r) (_normalize_header h) = true.

(** No column holds a token of the set. *)
Definition no_column_hits (tokens : list str) (columns : list str) : Prop :=
  forall c, In c columns -> any_in tokens (_normalize_header c) = false.

(** The token step told on the headers themselves. For one token set:
    take the first header whose normal form holds a token of the set;
    the header given is the last one with the same normal form as it
    (the map from normal forms to headers keeps one header per normal
    form, the last, at the place of the first). *)
Definition first_hit (tokens : list str) (columns : list str) : option str :=
  List.find (fun c => any_in tokens (_normalize_header c)) columns.

Definition last_with_key (k : str) (columns : list str) : option str :=
  List.find (fun c => str_eqb k (_normalize_header c)) (rev columns).

Definition token_pick (tokens : list str) (columns : list str) : option str :=
  match first_hit tokens columns with
  | Some c => last_with_key (_normalize_header c) columns
  | None => None
  end.

(** The three sets in their fixed order: status, region, type. *)
Definition token_step_choice (columns : list str) : option str :=
  match token_pick status_tokens columns with
  | Some h => Some h
  | None =>
    match token_pick region_tokens columns with
    | Some h => Some h
    | None => token_pick type_tokens columns
    end
  end.

(** The first key of a map that holds a token of the set. *)
Fixpoint first_key (tokens : list str) (d : dict) : option str :=
  match d with
  | [] => None
  | (nc, _) :: rest => if any_in tokens nc then Some nc else first_key tokens rest
  end.

(** Three headers, two of which differ by case only. *)
Definition twin_headers : list str := [u "Холат1"; u "X"; u "ХОЛАТ1"].

(** [r] with its quantity replaced. *)
Definition with_qty (r : record) (q : Z) : record :=
  {| region_name := region_name r;
     city_district := city_district r;
     type_normalized := type_normalized r;
     status_normalized := status_normalized r;
     qty := q;
     has_tracker := has_tracker r |}.

(** A key column: any of the text columns of the frame. *)
Definition key_column (key : record -> str) : Prop :=
  forall r q, key (with_qty r q) = key r.

(** The two ways a frame is reshaped in C8: its rows are reordered, or
    one row is split in two rows that differ from it in quantity only. *)
Inductive reshaped : DataFrame -> DataFrame -> Prop :=
| reshaped_reorder (df df' : DataFrame) :
    df ≡ₚ df' -> reshaped df df'
| reshaped_split (l1 l2 : DataFrame) (r : record) (a b : Z) :
    a + b = qty r ->
    reshaped (l1 ++ r :: l2) (l1 ++ with_qty r a :: with_qty r b :: l2).

(** A view: keep the rows that satisfy [P], group them by [key], rank. *)
Definition view (P : record -> bool) (key : record -> str) (df : DataFrame)
  : list (str * Z) :=
  ranked key (List.filter P df).

Definition row_filter (P : record -> bool) : Prop :=
  forall r q, P (with_qty r q) = P r.

(** A frame of two rows, and the same frame with the five "ЗИЛ" units
    entered as two rows of two and three. *)
Definition five_zil : record :=
  {| region_name := u "Андижон"; city_district := u "Асака";
     type_normalized := u "ЗИЛ"; status_normalized := NeedsRepair;
     qty := 5; has_tracker := true |}.

Definition one_kamaz : record :=
  {| region_name := u "Бухоро"; city_district := u "Бухоро";
     type_normalized := u "Камаз"; status_normalized := Operational;
     qty := 1; has_tracker := false |}.

(** The order of claim C5: among equal totals the key that is smaller
    once lower-cased. *)
Definition rank_before_ci (a b : str * Z) : Prop :=
  snd b < snd a \/
  (snd a = snd b /\ str_compare (lower (fst a)) (lower (fst b)) <> Gt).

(** One unit each of the types "Задвижка", "ЗИЛ" and "Автобус". *)
Definition unit_of_type (t : str) : record :=
  {| region_name := u "Андижон"; city_district := u "Андижон";
     type_normalized := t; status_normalized := Operational;
     qty := 1; has_tracker := false |}.

Definition tie_frame : DataFrame :=
  [unit_of_type (u "Задвижка"); unit_of_type (u "ЗИЛ"); unit_of_type (u "Автобус")].

(** The sheet of region "Андижон" that gives this frame. *)
Definition tie_sheet : worksheet :=
  {| header := [u "Техника тури"; u "Холати"; u "Туман"];
     body := [ [CStr (u "задвижка"); CStr (u "ишлайди"); CStr []];
               [CStr (u "ЗИЛ-130"); CStr (u "ишлайди"); CStr []];
               [CStr (u "автобус"); CStr (u "ишлайди"); CStr []] ] |}.


(** A sheet of five rows: a text, a zero, a negative number and a
    decimal in the quantity column, and a totals row. *)
Definition demo_sheet : worksheet :=
  {| header := [u "Техника тури"; u "Холати"; u "Сони"; u "Туман"; u "GPS"];
     body :=
       [ [CStr (u "Экскаватор"); CStr (u "ишлайди"); CStr (u "abc"); CStr []; CStr (u "мавжуд")];
         [CStr (u "зил"); CStr (u "ремонт"); CInt 0; CStr (u "Асака"); CInt 0];
         [CStr (u "Камаз"); CStr (u "яроқсиз"); CInt (-3); CStr (u "Асака"); CStr (u "мавжуд эмас")];
         [CStr (u "прицеп"); CStr []; CFloat (FFin 27 10); CStr (u "Шаҳрихон"); CInt 1];
         [CStr (u "Жами"); CStr []; CInt 40; CStr []; CStr []] ] |}.

Definition demo_env : env :=
  {| text_to_numeric := fun _ => FNan;
     float_str := fun _ => u "2.7";
     getenv := fun _ => Some (u "sheet-1");
     gc_open := fun _ _ => Rows demo_sheet;
     task_fails := fun _ => false |}.

Definition demo_source : str * option str := (u "Андижон", Some (u "sheet-1")).

(** The row of the demo sheet whose quantity cell is the text "abc". *)
Definition demo_record : record :=
  {| region_name := u "Андижон"; city_district := u "Андижон";
     type_normalized := u "Экскаватор"; status_normalized := Operational;
     qty := 1; has_tracker := true |}.



Definition start_world : world := {| api_calls := 0; tasks := 0 |}.

Definition empty_state : state :=
  {| CACHE := ∅; outside := {| api_calls := 0; tasks := 0 |}; fetches := 0 |}.

(** Two calls for "Андижон", ten minutes apart, on an empty cache. *)
Definition ten_minutes : Z := 10 * 60 * 1000000.

Definition first_call : DataFrame * state :=
  get_df_async demo_env empty_state 0 (Some (u "Андижон")) false.

Definition second_call : DataFrame * state :=
  get_df_async demo_env (snd first_call) ten_minutes (Some (u "Андижон")) false.

(** A service whose load tasks all die, and a cache that holds an
    expired entry for "Андижон". *)
Definition dying_env : env :=
  {| text_to_numeric := fun _ => FNan;
     float_str := fun _ => u "2.7";
     getenv := fun _ => Some (u "sheet-1");
     gc_open := fun _ _ => Rows demo_sheet;
     task_fails := fun _ => true |}.

Definition stale_state : state :=
  {| CACHE := {[ u "Андижон" := ([demo_record], 5) ]};
     outside := {| api_calls := 0; tasks := 0 |}; fetches := 0 |}.

(** A service that answers every call with a quota error, and a cache
    whose entry for "ALL" is a non-empty frame that has expired. *)
Definition failing_env : env :=
  {| text_to_numeric := fun _ => FNan;
     float_str := fun _ => u "2.7";
     getenv := fun _ => Some (u "sheet-1");
     gc_open := fun _ _ => ApiError (u "APIError: [429]: Quota exceeded");
     task_fails := fun _ => false |}.

Definition stale_all_state : state :=
  {| CACHE := {[ ALL := ([demo_record], 5) ]};
     outside := {| api_calls := 0; tasks := 0 |}; fetches := 0 |}.

(* ------------------------------------------------------------------ *)
(** ** Further operations of the program *)

(** Alias [a] occurs in the normal form of column [c]: the test of the
    substring step of [find_column]. *)
Definition alias_in_column (a c : str) : Prop :=
  _normalize_header a <> [] /\
  str_in (_normalize_header a) (_normalize_header c) = true.

(** [best] is set and its normal form has at most [n] characters. *)
Definition best_within (best : option str) (n : nat) : Prop :=
  exists b, best = Some b /\ (length (_normalize_header b) <= n)%nat.

(** [best], if set, is a column that some alias occurs in. *)
Definition best_matches (columns aliases : list str) (best : option str) : Prop :=
  forall b, best = Some b ->
    In b columns /\ exists a, In a aliases /\ alias_in_column a b.

(** The classification by the word lexicons alone: the icon rule keeps
    its two word tokens, "green" and "ok". *)
Definition classify_words (s : str) : str :=
  if str_in (u "green") s || str_in (u "ok") s then Operational
  else if is_operational s then Operational
  else if is_non_operational s then NonOperational
  else if is_repair s then NeedsRepair
  else Unknown.

(** Phrases of the non-operational lexicon that contain a token of the
    operational test or of the icon rule ("работает", "ok", "active"),
    and the inflected forms of "неисправ" that contain "исправен",
    "исправна", "исправно" or "исправный". *)
Definition shadowed_phrases : list str :=
  [ u "не работает"; u "частично не работает"; u "broken"; u "inactive";
    u "неисправен"; u "неисправна"; u "неисправно"; u "неисправный" ].

Definition MICROBUS : str := u "Микроавтобус".

(** The mathematical sum of the [qty] column and the int64 value that
    [int(df["qty"].sum())] gives. *)
Definition qty_total (df : DataFrame) : Z := foldr (fun r acc => qty r + acc) 0 df.
Definition qty_sum (df : DataFrame) : Z := wrap64 (qty_total df).

(** The sum of the totals of a result table. *)
Definition sum_totals (rows : list (str * Z)) : Z :=
  foldr (fun x acc => snd x + acc) 0 rows.

Fixpoint sum_over (g : str -> Z) (ks : list str) : Z :=
  match ks with
  | [] => 0
  | k :: rest => g k + sum_over g rest
  end.

(** [is_equipment_type] on a text. *)
Definition equipment_keywords : list str :=
  [ u "прицеп"; u "сак"; u "цистерн"; u "насос"; u "компрессор"; u "генератор";
    u "агрегат"; u "мотопомп"; u "насосная"; u "насос станц" ].

Definition is_equipment_type (type_name : str) : bool :=
  any_in equipment_keywords (lower type_name).

(** The two frames [df[~mask_equipment]] and [df[mask_equipment]]. *)
Definition auto_frame (df : DataFrame) : DataFrame :=
  List.filter (fun r => negb (is_equipment_type (type_normalized r))) df.
Definition equip_frame (df : DataFrame) : DataFrame :=
  List.filter (fun r => is_equipment_type (type_normalized r)) df.

(** [summarize_region_categories], which is also
    [summarize_republic_categories]: vehicles, equipment, total. *)
Definition summarize_region_categories (df_region : DataFrame) : Z * Z * Z :=
  match df_region with
  | [] => (0, 0, 0)
  | _ :: _ =>
    let auto_qty := qty_sum (auto_frame df_region) in
    let equip_qty := qty_sum (equip_frame df_region) in
    (auto_qty, equip_qty, auto_qty + equip_qty)
  end.

Definition summarize_republic_categories (df_all : DataFrame) : Z * Z * Z :=
  summarize_region_categories df_all.

Definition summarize_district_categories (df_region : DataFrame) (district : str)
  : Z * Z * Z :=
  summarize_region_categories
    (List.filter (fun r => str_eqb (city_district r) district) df_region).

(** A frame whose quantities are not negative and whose sum fits an
    int64. *)
Definition fits_int64 (df : DataFrame) : Prop :=
  Forall (fun r => 0 <= qty r) df /\ qty_total df < 2 ^ 63.

(** The rows of one type, as selected by [count_type_per_region]. *)
Definition of_type (t : str) (df : DataFrame) : DataFrame :=
  List.filter (fun r => str_eqb (type_normalized r) t) df.

Definition two_trailers : record :=
  {| region_name := u "Андижон"; city_district := u "Асака";
     type_normalized := u "Прицеп"; status_normalized := Unknown;
     qty := 2; has_tracker := false |}.

(** [as_dict.get(region, 0)] on the table of a group-and-sum. *)
Fixpoint table_get (k : str) (rows : list (str * Z)) : option Z :=
  match rows with
  | [] => None
  | (k', q) :: rest => if str_eqb k k' then Some q else table_get k rest
  end.

(** [get_region_counts]: a count for every key of [REGION_SHEETS], in
    their order. *)
Definition get_region_counts (E : env) (df_all : DataFrame) : list (str * Z) :=
  match df_all with
  | [] => map (fun region => (region, 0)) (map fst (REGION_SHEETS E))
  | _ :: _ =>
    let stats := groupby_sum region_name df_all in
    map (fun region => (region, default 0 (table_get region stats)))
        (map fst (REGION_SHEETS E))
  end.

(** The canonical record of the data model, for the source [region]. *)
Definition canonical (region : str) (r : record) : Prop :=
  region_name r = region /\
  type_normalized r <> [] /\
  In (status_normalized r) [Operational; NonOperational; NeedsRepair; Unknown] /\
  1 <= qty r /\
  (city_district r = region \/
   (city_district r <> [] /\ strip (city_district r) = city_district r)).

(** The frame a finished task contributes to the combined frame. *)
Definition result_frame (res : option (str * DataFrame)) : DataFrame :=
  match res with
  | Some (_, df) => df
  | None => []
  end.

(** The sources that [load_all_regions_async] loads. *)
Definition configured (E : env) : list (str * option str) :=
  List.filter (fun rs => truthy (snd rs)) (REGION_SHEETS E).

(** [CACHE.clear()], as the two cache-clearing handlers do. *)
Definition clear_cache (st : state) : state :=
  {| CACHE := ∅; outside := outside st; fetches := fetches st |}.

(** A service that knows one sheet only and answers with the demo
    sheet. *)
Definition one_sheet_env : env :=
  {| text_to_numeric := fun _ => FNan;
     float_str := fun _ => u "2.7";
     getenv := fun name => if str_eqb name (u "SHEET_ANDIJON") then Some (u "sheet-1") else None;
     gc_open := fun _ _ => Rows demo_sheet;
     task_fails := fun _ => false |}.

(** [html.escape(s)] with its default [quote=True]: five replacements
    one after the other, the ampersand first. *)
Definition html_escape (s : str) : str :=
  replace_char 39 (u "&#x27;")
    (replace_char 34 (u "&quot;")
       (replace_char 62 (u "&gt;")
          (replace_char 60 (u "&lt;")
             (replace_char 38 (u "&amp;") s)))).

(** [esc(s)] for a text [s]. *)
Definition esc (s : str) : str := html_escape s.

(** The entity that stands for a character in escaped text; a
    character without entity stands for itself. *)
Definition entity (c : Z) : str :=
  if c =? 38 then u "&amp;"
  else if c =? 60 then u "&lt;"
  else if c =? 62 then u "&gt;"
  else if c =? 34 then u "&quot;"
  else if c =? 39 then u "&#x27;"
  else [c].

(** The characters with a meaning in HTML markup, the ampersand apart:
    [<], [>] and the two quotes. *)
Definition markup_chars : list Z := [60; 62; 34; 39].

(** [range(0, n, step)] for a positive [step]. *)
Definition range_step (n step : nat) : list nat :=
  map (fun k => k * step)%nat (seq 0 ((n + step - 1) / step)).

(** [[text[i:i+size] for i in range(0, len(text), size)]] *)
Definition message_parts (size : nat) (text : str) : list str :=
  map (fun i => take size (drop i text)) (range_step (length text) size).

(** The chat as [safe_edit_message] meets it: [edit_text] and [answer]
    accept a text ([None]) or raise [TelegramBadRequest] with a
    message. *)
Record chat := {
  edit_text : str -> option str;
  answer : str -> option str
}.

Inductive sent := Edit (text : str) | Answer (text : str).

Definition sent_text (m : sent) : str :=
  match m with Edit t => t | Answer t => t end.

Inductive exn := BadRequest (msg : str) | IndexError.

(** [for part in parts: await message.answer(part)]: what was sent, and
    the exception that stopped the loop, if any. *)
Fixpoint answer_all (C : chat) (parts : list str) : list sent * option exn :=
  match parts with
  | [] => ([], None)
  | p :: t =>
    match answer C p with
    | Some e => ([], Some (BadRequest e))
    | None => let '(l, r) := answer_all C t in (Answer p :: l, r)
    end
  end.

(** [safe_edit_message(message, text)]: the texts the chat accepted, in
    order, and the exception that leaves the function, if any. *)
Definition safe_edit_message (C : chat) (text : str) : list sent * option exn :=
  match edit_text C text with
  | None => ([Edit text], None)
  | Some e =>
    if str_in (u "message is too long") e then
      match message_parts 4000 text with
      | [] => ([], Some IndexError)
      | p0 :: rest =>
        match edit_text C p0 with
        | Some e' => ([], Some (BadRequest e'))
        | None => let '(l, r) := answer_all C rest in (Edit p0 :: l, r)
        end
      end
    else ([], Some (BadRequest e))
  end.

(** A chat that takes texts of at most 4096 characters, and a text of
    4100 characters. *)
Definition bounded_chat : chat :=
  {| edit_text := fun t => if (length t <=? 4096)%nat then None
                           else Some (u "Bad Request: message is too long");
     answer := fun t => if (length t <=? 4096)%nat then None
                        else Some (u "Bad Request: message is too long") |}.

Definition long_text : str := repeat 97 4100.

(** [RateLimitMiddleware]. The clock readings are of a type [T];
    [expired now t] is the test [now - t > self.per], [limit] is
    [self.limit], and [users] is [self._users], a missing key standing
    for the empty list. *)
Section RateLimit.
Context {T : Type}.
Variable expired : T -> T -> bool.
Variable limit : Z.
Variable le : T -> T -> Prop.

(** [while timestamps and now - timestamps[0] > self.per:
       timestamps.pop(0)] *)
Fixpoint pop_expired (now : T) (timestamps : list T) : list T :=
  match timestamps with
  | [] => []
  | t :: rest => if expired now t then pop_expired now rest else timestamps
  end.

(** [__call__] for an event of [from_user] (its id, if the event has a
    user) when the clock reads [now]: whether the handler is called, and
    the timestamps kept. *)
Definition rate_limit_call (users : gmap Z (list T)) (from_user : option Z) (now : T)
  : bool * gmap Z (list T) :=
  match from_user with
  | None => (true, users)
  | Some user_id =>
    let timestamps := pop_expired now (default [] (users !! user_id)) in
    if limit <=? Z.of_nat (length timestamps)
    then (false, <[user_id := timestamps]> users)
    else (true, <[user_id := timestamps ++ [now]]> users)
  end.

(** The middleware fed with events one after the other: which of them
    reached the handler, and the timestamps kept at the end. *)
Definition rate_limit_next (s : list bool * gmap Z (list T)) (e : option Z * T)
  : list bool * gmap Z (list T) :=
  let '(handled, users) := rate_limit_call (snd s) (fst e) (snd e) in
  (fst s ++ [handled], users).

Definition rate_limit_run (events : list (option Z * T)) : list bool * gmap Z (list T) :=
  fold_left rate_limit_next events ([], ∅).

(** The times of the events of user [uid] that reached the handler. *)
Definition handled_by (uid : Z) (x : (option Z * T) * bool) : bool :=
  snd x && match fst (fst x) with
           | Some v => v =? uid
           | None => false
           end.

Definition handled_times (uid : Z) (events : list (option Z * T)) (flags : list bool)
  : list T :=
  map (fun x => snd (fst x)) (List.filter (handled_by uid) (zip events flags)).

(** What the kept timestamps [kept] of a user are to the times [hist]
    of the events of the user that reached the handler, after events at
    the times [times]: the end of [hist], in order, what comes before
    having expired at one of the times. *)
Definition kept_inv (times hist kept : list T) : Prop :=
  StronglySorted le kept /\
  Forall (fun t => t ∈ times) kept /\
  exists gone, hist = gone ++ kept /\
    Forall (fun d => exists m, m ∈ times /\ expired m d = true) gone.

End RateLimit.

(** A clock in microseconds and the window of one second. *)
Definition expired_us (now t : Z) : bool := 1000000 <? now - t.

Definition burst : list (option Z * Z) :=
  [(Some 7, 0); (Some 7, 10); (Some 7, 20); (Some 7, 30); (Some 7, 40)].

(** Assignment [d[k] = v] on a [dict] with text keys and values of any
    type. *)
Fixpoint dict_put {V : Type} (k : str) (v : V) (d : list (str * V)) : list (str * V) :=
  match d with
  | [] => [(k, v)]
  | (k', v') :: t =>
    if str_eqb k k' then (k, v) :: t else (k', v') :: dict_put k v t
  end.

(** [Series.unique()]: the distinct values in order of first
    appearance. *)
Fixpoint unique (l : list str) : list str :=
  match l with
  | [] => []
  | x :: t => x :: List.filter (fun y => negb (str_eqb y x)) (unique t)
  end.

(** The statuses in the order [get_detailed_city_status] takes them. *)
Definition STATUS_ORDER : list str := [Operational; NonOperational; NeedsRepair; Unknown].

Definition status_rows (st : str) (df : DataFrame) : DataFrame :=
  List.filter (fun r => str_eqb (status_normalized r) st) df.

Definition city_rows (city : str) (df : DataFrame) : DataFrame :=
  List.filter (fun r => str_eqb (city_district r) city) df.

(** The rows of one region and one type. *)
Definition selected (t region : str) (df : DataFrame) : DataFrame :=
  List.filter (fun r => str_eqb (region_name r) region
                        && str_eqb (type_normalized r) t) df.

(** The inner loop of [get_detailed_city_status]: the positive status
    totals of the rows of one location. *)
Definition status_counts (city_data : DataFrame) : list (str * Z) :=
  fold_left (fun d st =>
               let cnt := qty_sum (status_rows st city_data) in
               if 0 <? cnt then dict_put st cnt d else d)
            STATUS_ORDER [].

(** [str(city) if str(city).strip() else "Не указан"] *)
Definition city_key (city : str) : str :=
  match strip city with
  | [] => NOT_SPECIFIED
  | _ :: _ => city
  end.

Definition get_detailed_city_status (df_all : DataFrame) (tech_type region : str)
  : list (str * list (str * Z)) :=
  match df_all with
  | [] => []
  | _ :: _ =>
    match normalize_tech_type tech_type with
    | Some (c :: t) =>
      let filtered := selected (c :: t) region df_all in
      match filtered with
      | [] => []
      | _ :: _ =>
        fold_left (fun city_status city =>
                     let counts := status_counts (city_rows city filtered) in
                     if 0 <? sum_totals counts
                     then dict_put (city_key city) counts city_status
                     else city_status)
                  (unique (map city_district filtered)) []
      end
    | _ => []
    end
  end.

(** All the units a per-location table accounts for. *)
Definition grand_total (city_status : list (str * list (str * Z))) : Z :=
  foldr (fun x acc => sum_totals (snd x) + acc) 0 city_status.

(** Frames whose locations are not blank and whose statuses are the
    four labels. *)
Definition located (df : DataFrame) : Prop :=
  forall r, In r df ->
    strip (city_district r) <> [] /\ In (status_normalized r) STATUS_ORDER.

(* ================================================================== *)
(** * Properties *)

(** ** Facts about strings *)

Lemma startswith_spec (p s : str) :
  startswith p s = true <-> exists r, s = p ++ r.
Proof.
  revert s; induction p as [|a p IH]; intros s; simpl.
  - split; [intros _; by exists s | done].
  - destruct s as [|b s].
    + split; [done | intros [r Hr]; discriminate].
    + rewrite andb_true_iff, Z.eqb_eq, IH. split.
      * intros [-> [r ->]]. by exists r.
      * intros [r Hr]. injection Hr as -> ->. eauto.
Qed.

Lemma str_in_spec (p s : str) :
  str_in p s = true <-> exists a b, s = a ++ p ++ b.
Proof.
  induction s as [|c s IH]; simpl.
  - rewrite orb_false_r, startswith_spec. split.
    + intros [r Hr]. by exists [], r.
    + intros (a & b & Hab). destruct a; [by exists b | discriminate].
  - rewrite orb_true_iff, startswith_spec, IH. split.
    + intros [[r Hr] | (a & b & ->)].
      * by exists [], r.
      * by exists (c :: a), b.
    + intros (a & b & Hab). destruct a as [|c' a]; simpl in Hab.
      * left. by exists b.
      * right. injection Hab as -> ->. by exists a, b.
Qed.

Lemma str_in_head (c : Z) (p s : str) :
  str_in (c :: p) s = true -> In c s.
Proof.
  rewrite str_in_spec. intros (a & b & ->).
  apply in_or_app. right. by left.
Qed.

Lemma str_eqb_spec (a b : str) : str_eqb a b = true <-> a = b.
Proof. unfold str_eqb. apply bool_decide_eq_true. Qed.

Lemma str_in_map (f : Z -> Z) (p s : str) :
  str_in p s = true -> str_in (map f p) (map f s) = true.
Proof.
  rewrite !str_in_spec. intros (a & b & ->).
  exists (map f a), (map f b). by rewrite !map_app.
Qed.

(** ** Status classifier *)

(** C1 (the code departs from the claim): the text "не исправен" holds,
    once normalised, both the word for "serviceable" and the negation
    token, and [normalize_status] classifies it as operational: the
    operational test, which comes first, already accepts "исправен", so
    the override in the non-operational test is never reached. *)
Theorem normalize_status_negated_serviceable :
  str_in (u "исправен") (normalize_text (u "не исправен")) = true /\
  str_in (u "не") (normalize_text (u "не исправен")) = true /\
  normalize_status (u "не исправен") = Operational /\
  normalize_status (u "не исправен") <> NonOperational.
Proof.
  split; [vm_compute; reflexivity|].
  split; [vm_compute; reflexivity|].
  split; [vm_compute; reflexivity|].
  vm_compute. discriminate.
Qed.

(** C6: each of the four canonical labels is classified as itself, and
    whatever the input the result is one of the four labels. *)
Theorem normalize_status_canonical :
  normalize_status Operational = Operational /\
  normalize_status NonOperational = NonOperational /\
  normalize_status NeedsRepair = NeedsRepair /\
  normalize_status Unknown = Unknown /\
  forall status : str,
    normalize_status status = Operational \/
    normalize_status status = NonOperational \/
    normalize_status status = NeedsRepair \/
    normalize_status status = Unknown.
Proof.
  split; [vm_compute; reflexivity|].
  split; [vm_compute; reflexivity|].
  split; [vm_compute; reflexivity|].
  split; [vm_compute; reflexivity|].
  intros status. unfold normalize_status.
  destruct (str_eqb (strip status) []); [by repeat right|].
  generalize (normalize_text status). intros s. unfold classify_status.
  destruct (any_in icons_ok s); [by left|].
  destruct (any_in icons_bad s); [by right; left|].
  destruct (any_in icons_repair s); [by right; right; left|].
  destruct (is_operational s); [by left|].
  destruct (is_non_operational s); [by right; left|].
  destruct (is_repair s); [by right; right; left | by repeat right].
Qed.

(** *** Why the negation override cannot fire

    After normalisation a text holds word characters and single spaces
    only, so no emoji token can occur in it; and the operational test
    accepts every text that holds "исправен". *)

Lemma In_lstrip (c : Z) (s : str) : In c (lstrip s) -> In c s.
Proof.
  induction s as [|d s IH]; simpl; [done|].
  destruct (is_space d); [right; auto | done].
Qed.

Lemma In_strip (c : Z) (s : str) : In c (strip s) -> In c s.
Proof.
  unfold strip, rstrip. intros H.
  apply In_lstrip. apply in_rev. apply In_lstrip. by apply in_rev in H.
Qed.

Lemma In_collapse_from (b : bool) (c : Z) (s : str) :
  In c (collapse_from b s) -> c = 32 \/ (In c s /\ is_space c = false).
Proof.
  revert b; induction s as [|d s IH]; intros b; simpl; [done|].
  destruct (is_space d) eqn:Hd.
  - destruct b; simpl.
    + intros H. destruct (IH _ H) as [?|[? ?]]; auto.
    + intros [H|H]; [by left|]. destruct (IH _ H) as [?|[? ?]]; auto.
  - intros [<-|H]; [right; auto|]. destruct (IH _ H) as [?|[? ?]]; auto.
Qed.

Lemma normalize_text_chars (x : str) (c : Z) :
  In c (normalize_text x) -> is_word c = true \/ c = 32.
Proof.
  unfold normalize_text, collapse_ws. intros H.
  apply In_strip, In_collapse_from in H. destruct H as [->|[H Hsp]]; [by right|].
  unfold sub_nonword in H. apply in_map_iff in H. destruct H as (d & Hd & _).
  destruct (is_word d) eqn:Hw; simpl in Hd.
  - subst d. by left.
  - destruct (is_space d) eqn:Hs; subst c; [congruence | by right].
Qed.

Lemma no_symbol_in_normal_text (x tok : str) (c : Z) :
  is_word c = false -> c <> 32 ->
  str_in (c :: tok) (normalize_text x) = false.
Proof.
  intros Hw Hc. destruct (str_in _ _) eqn:H; [|done].
  apply str_in_head, normalize_text_chars in H. destruct H; congruence.
Qed.

Lemma no_bad_icon_in_normal_text (x : str) :
  any_in icons_bad (normalize_text x) = false.
Proof.
  unfold any_in, icons_bad; simpl.
  rewrite !orb_false_iff; repeat split; try done;
    (etransitivity; [|apply (no_symbol_in_normal_text x [])]; [reflexivity|done|done]).
Qed.

Lemma no_repair_icon_in_normal_text (x : str) :
  any_in icons_repair (normalize_text x) = false.
Proof.
  unfold any_in, icons_repair; simpl.
  rewrite !orb_false_iff; repeat split; try done;
    (etransitivity; [|apply (no_symbol_in_normal_text x [])]; [reflexivity|done|done]).
Qed.

(** Every text that holds "исправен" after normalisation is classified
    as operational, negated or not. *)
Lemma serviceable_is_operational (status : str) :
  strip status <> [] ->
  str_in (u "исправен") (normalize_text status) = true ->
  normalize_status status = Operational.
Proof.
  intros Hne Hin. unfold normalize_status.
  destruct (str_eqb (strip status) []) eqn:He; [by apply str_eqb_spec in He|].
  unfold classify_status.
  rewrite no_bad_icon_in_normal_text, no_repair_icon_in_normal_text.
  destruct (any_in icons_ok _); [done|].
  unfold is_operational. rewrite Hin.
  rewrite !orb_true_r. reflexivity.
Qed.

(** ** Tracker flag *)

Lemma lstrip_app_nonspace (a r : str) (c : Z) :
  is_space c = false -> lstrip (a ++ c :: r) = lstrip a ++ c :: r.
Proof.
  intros Hc. induction a as [|d a IH]; simpl.
  - by rewrite Hc.
  - destruct (is_space d); [apply IH | done].
Qed.

Lemma rstrip_app_nonspace (a r : str) (c : Z) :
  is_space c = false -> rstrip (a ++ c :: r) = a ++ c :: rstrip r.
Proof.
  intros Hc. unfold rstrip.
  rewrite rev_app_distr. simpl. rewrite <- app_assoc. simpl.
  rewrite lstrip_app_nonspace by done.
  rewrite rev_app_distr. simpl. rewrite rev_involutive.
  by rewrite <- app_assoc.
Qed.

(** A run that begins and ends with a non-space survives [strip]. *)
Lemma strip_keeps_infix (c d : Z) (m s : str) :
  is_space c = false -> is_space d = false ->
  str_in (c :: m ++ [d]) s = true ->
  str_in (c :: m ++ [d]) (strip s) = true.
Proof.
  intros Hc Hd. rewrite !str_in_spec. intros (a & b & ->).
  unfold strip. simpl. rewrite lstrip_app_nonspace by done.
  replace (lstrip a ++ c :: (m ++ [d]) ++ b)
    with ((lstrip a ++ c :: m) ++ d :: b) by (by rewrite <- !app_assoc).
  rewrite rstrip_app_nonspace by done.
  exists (lstrip a), (rstrip b). by rewrite <- !app_assoc.
Qed.

Lemma In_lstrip_nonspace (c : Z) (s : str) :
  In c s -> is_space c = false -> In c (lstrip s).
Proof.
  intros H Hc. apply in_split in H. destruct H as (a & b & ->).
  rewrite lstrip_app_nonspace by done. apply in_or_app. right. by left.
Qed.

Lemma In_strip_nonspace (c : Z) (s : str) :
  In c s -> is_space c = false -> In c (strip s).
Proof.
  intros H Hc. unfold strip, rstrip.
  apply -> in_rev. apply In_lstrip_nonspace; [|done].
  apply in_rev. rewrite rev_involutive. by apply In_lstrip_nonspace.
Qed.

(** *** [float] accepts ASCII text only *)

Lemma lower_char_ascii (c : Z) : lower_char c < 128 -> c < 128.
Proof.
  unfold lower_char, in_range.
  repeat case_match; intros; lia.
Qed.

Lemma lower_ascii (s lit : str) :
  lower s = lit -> Forall ascii lit -> Forall ascii s.
Proof.
  intros <-. unfold lower. rewrite Forall_map. intros H.
  eapply Forall_impl; [exact H|]. intros c. apply lower_char_ascii.
Qed.

Lemma span_digits_spec (s d r : str) :
  span_digits s = (d, r) -> s = d ++ r /\ Forall ascii d.
Proof.
  revert d r; induction s as [|c s IH]; intros d r; simpl.
  - intros [= <- <-]. by split.
  - destruct (is_digit c) eqn:Hc.
    + destruct (span_digits s) as [d' r'] eqn:Hs. intros [= <- <-].
      destruct (IH _ _ eq_refl) as [-> Hd]. split; [done|].
      constructor; [|done]. unfold is_digit, in_range in Hc. unfold ascii. lia.
    + intros [= <- <-]. by split.
Qed.

Lemma split_sign_ascii (s body : str) (neg : bool) :
  split_sign s = (neg, body) -> Forall ascii body -> Forall ascii s.
Proof.
  destruct s as [|c s]; simpl; [by intros [= <- <-]|].
  destruct (c =? 45) eqn:H1; [|destruct (c =? 43) eqn:H2].
  - intros [= <- <-] H. constructor; [unfold ascii; lia | done].
  - intros [= <- <-] H. constructor; [unfold ascii; lia | done].
  - by intros [= <- <-].
Qed.

Lemma parse_exponent_ascii (r : str) (e : Z) :
  parse_exponent r = Some e -> Forall ascii r.
Proof.
  destruct r as [|c t]; simpl; [done|].
  destruct ((c =? 101) || (c =? 69)) eqn:Hc; [|done].
  destruct (split_sign t) as [neg t'] eqn:Hs.
  destruct (span_digits t') as [ds rest] eqn:Hd.
  destruct ds as [|d0 ds]; [done|]. destruct rest; [|done]. intros _.
  apply span_digits_spec in Hd. destruct Hd as [-> Hd].
  constructor; [unfold ascii; lia|].
  eapply split_sign_ascii; [done|]. by rewrite app_nil_r.
Qed.

Lemma parse_decimal_ascii (neg : bool) (s : str) (k : float_class) :
  parse_decimal neg s = Some k -> Forall ascii s.
Proof.
  unfold parse_decimal.
  destruct (span_digits s) as [ip r1] eqn:H1.
  apply span_digits_spec in H1. destruct H1 as [-> Hip].
  destruct r1 as [|c t].
  - intros _. by rewrite app_nil_r.
  - destruct (c =? 46) eqn:Hc.
    + destruct (span_digits t) as [fp r2] eqn:H2.
      apply span_digits_spec in H2. destruct H2 as [-> Hfp].
      destruct (ip ++ fp); [done|].
      destruct (parse_exponent r2) eqn:He; [|done]. intros _.
      apply parse_exponent_ascii in He.
      apply Forall_app; split; [done|].
      constructor; [unfold ascii; lia|]. by apply Forall_app.
    + destruct (ip ++ []); [done|].
      destruct (parse_exponent (c :: t)) eqn:He; [|done]. intros _.
      apply parse_exponent_ascii in He. by apply Forall_app.
Qed.

Lemma drop_underscores_ascii (prev : Z) (s s' : str) :
  drop_underscores prev s = Some s' -> Forall ascii s' -> Forall ascii s.
Proof.
  revert prev s'; induction s as [|c s IH]; intros prev s'; simpl; [done|].
  destruct (c =? 95) eqn:Hc.
  - destruct (is_digit prev); [|done]. intros H Hs'.
    constructor; [unfold ascii; lia | eauto].
  - destruct ((prev =? 95) && negb (is_digit c)); [done|].
    destruct (drop_underscores c s) as [t|] eqn:Hd; [|done].
    simpl. intros [= <-] Hs'. inversion Hs'; subst.
    constructor; [done | eauto].
Qed.

Lemma py_float_ascii (x : str) (k : float_class) :
  py_float x = Some k -> Forall ascii (strip x).
Proof.
  unfold py_float.
  destruct (drop_underscores 0 (strip x)) as [s|] eqn:Hd; [|done].
  destruct (split_sign s) as [neg body] eqn:Hs. intros H.
  eapply drop_underscores_ascii; [done|].
  eapply split_sign_ascii; [done|].
  destruct (str_eqb (lower body) (u "inf") || str_eqb (lower body) (u "infinity")) eqn:Hinf.
  - apply orb_true_iff in Hinf. destruct Hinf as [Hi|Hi]; apply str_eqb_spec in Hi;
      (eapply lower_ascii; [done|]); repeat constructor.
  - destruct (str_eqb (lower body) (u "nan")) eqn:Hnan.
    + apply str_eqb_spec in Hnan. eapply lower_ascii; [done|]. repeat constructor.
    + by eapply parse_decimal_ascii.
Qed.

(** A text with a letter beyond ASCII is not a number. *)
Lemma py_float_rejects (x : str) (c : Z) :
  In c x -> is_space c = false -> 128 <= c -> py_float x = None.
Proof.
  intros Hin Hsp Hc. destruct (py_float x) as [k|] eqn:Hf; [|done].
  apply py_float_ascii in Hf. rewrite Forall_forall in Hf.
  assert (ascii c) as Ha.
  { apply Hf. apply list_elem_of_In. by apply In_strip_nonspace. }
  unfold ascii in Ha. lia.
Qed.

Lemma In_replace_char (a c : Z) (b s : str) :
  In c s -> c <> a -> In c (replace_char a b s).
Proof.
  intros Hin Hne. unfold replace_char. apply in_flat_map.
  exists c. split; [done|].
  destruct (c =? a) eqn:H; [lia | by left].
Qed.

(** C7: "0" gives false, "1.5" gives true, and every value that holds
    the phrase "мавжуд эмас" gives false, although the phrase begins
    with the positive keyword "мавжуд". *)
Theorem normalize_tracker_flag_cases :
  normalize_tracker_flag (u "0") = false /\
  normalize_tracker_flag (u "1.5") = true /\
  str_in (u "мавжуд") NOT_AVAILABLE = true /\
  forall value : str,
    str_in NOT_AVAILABLE value = true ->
    normalize_tracker_flag value = false.
Proof.
  split; [vm_compute; reflexivity|].
  split; [vm_compute; reflexivity|].
  split; [vm_compute; reflexivity|].
  intros value Hin.
  assert (str_in NOT_AVAILABLE (strip value) = true) as Hs.
  { revert Hin. apply (strip_keeps_infix 1084 1089 (removelast (tail NOT_AVAILABLE))); done. }
  unfold normalize_tracker_flag.
  destruct (str_eqb (strip value) []) eqn:He; [done|].
  rewrite (py_float_rejects _ 1084).
  - unfold tracker_text.
    apply (str_in_map lower_char) in Hs. change (map lower_char (strip value)) with (lower (strip value)) in Hs.
    change (map lower_char NOT_AVAILABLE) with (lower NOT_AVAILABLE) in Hs.
    replace (lower NOT_AVAILABLE) with (u "мавжуд эмас") in Hs by (vm_compute; reflexivity).
    by rewrite Hs.
  - apply In_replace_char; [|done]. by apply (str_in_head _ (tail NOT_AVAILABLE)).
  - done.
  - done.
Qed.

(** The phrase inside a longer cell text. *)
Lemma normalize_tracker_flag_cases_witness :
  str_in NOT_AVAILABLE (u "GPS мавжуд эмас") = true /\
  normalize_tracker_flag (u "GPS мавжуд эмас") = false.
Proof.
  split; [vm_compute; reflexivity|].
  apply (proj2 (proj2 (proj2 normalize_tracker_flag_cases))).
  vm_compute; reflexivity.
Defined.

(** ** Schema resolver *)

Section NormMap.
Variable columns : list str.

Lemma dict_set_In (k v k' v' : str) (d : dict) :
  In (k', v') (dict_set k v d) -> (k' = k /\ v' = v) \/ In (k', v') d.
Proof.
  induction d as [|[k0 v0] d IH]; simpl.
  - intros [[= <- <-]|[]]. by left.
  - destruct (str_eqb k k0) eqn:He; simpl.
    + intros [[= <- <-]|H]; [by left | right; by right].
    + intros [H|H]; [right; by left|].
      destruct (IH H) as [?|?]; [by left | right; by right].
Qed.

Lemma dict_set_has_key (k v : str) (d : dict) : has_key k (dict_set k v d).
Proof.
  induction d as [|[k0 v0] d IH]; simpl.
  - exists v. by left.
  - destruct (str_eqb k k0) eqn:He.
    + exists v. by left.
    + destruct IH as [v' Hv']. exists v'. by right.
Qed.

Lemma dict_set_keeps_key (k v k' : str) (d : dict) :
  has_key k' d -> has_key k' (dict_set k v d).
Proof.
  induction d as [|[k0 v0] d IH]; simpl; intros [v' Hv']; [done|].
  destruct (str_eqb k k0) eqn:He.
  - apply str_eqb_spec in He. subst k0.
    destruct Hv' as [[= <- <-]|Hv'].
    + exists v. by left.
    + exists v'. by right.
  - destruct Hv' as [[= <- <-]|Hv'].
    + exists v0. by left.
    + destruct IH as [v'' Hv'']; [by exists v'|]. exists v''. by right.
Qed.

Lemma dict_get_In (k v : str) (d : dict) : dict_get k d = Some v -> In (k, v) d.
Proof.
  induction d as [|[k0 v0] d IH]; simpl; [done|].
  destruct (str_eqb k k0) eqn:He.
  - apply str_eqb_spec in He. intros [= <-]. left. by subst.
  - intros H. right. auto.
Qed.

Lemma dict_get_has_key (k : str) (d : dict) :
  has_key k d -> exists v, dict_get k d = Some v.
Proof.
  induction d as [|[k0 v0] d IH]; simpl; intros [v Hv]; [done|].
  destruct (str_eqb k k0) eqn:He; [eauto|].
  destruct Hv as [[= -> ->]|Hv].
  - assert (str_eqb k k = true) by by apply str_eqb_spec. congruence.
  - apply IH. by exists v.
Qed.

Lemma norm_map_acc (cols : list str) (d : dict) :
  (forall c, In c cols -> In c columns) -> from_columns columns d ->
  from_columns columns (fold_left (fun d c => dict_set (_normalize_header c) c d) cols d)
  /\ (forall k, has_key k d \/ (exists c, In c cols /\ _normalize_header c = k) ->
       has_key k (fold_left (fun d c => dict_set (_normalize_header c) c d) cols d)).
Proof.
  revert d; induction cols as [|c cols IH]; intros d Hsub Hd; simpl.
  - split; [done|]. intros k [H|(c & [] & _)]. done.
  - destruct (IH (dict_set (_normalize_header c) c d)) as [H1 H2].
    + intros c' Hc'. apply Hsub. by right.
    + intros k v Hkv. apply dict_set_In in Hkv. destruct Hkv as [[-> ->]|Hkv].
      * split; [apply Hsub; by left | done].
      * by apply Hd.
    + split; [done|]. intros k Hk. apply H2.
      destruct Hk as [Hk|(c' & [<-|Hc'] & <-)].
      * left. by apply dict_set_keeps_key.
      * left. apply dict_set_has_key.
      * right. eauto.
Qed.

Lemma norm_map_from_columns : from_columns columns (_norm_map columns).
Proof. apply norm_map_acc; [done|]. intros k v []. Qed.

Lemma norm_map_has_key (h : str) :
  In h columns -> has_key (_normalize_header h) (_norm_map columns).
Proof.
  intros H. apply norm_map_acc; [done | by intros k v [] |]. right. eauto.
Qed.
End NormMap.

Lemma exact_match_finds (d : dict) (aliases : list str) (a : str) :
  In a aliases -> has_key (_normalize_header a) d ->
  exists h' a', exact_match d aliases = Some h' /\ In a' aliases /\
    dict_get (_normalize_header a') d = Some h'.
Proof.
  induction aliases as [|a0 aliases IH]; simpl; [done|]. intros Hin Hkey.
  destruct (dict_get (_normalize_header a0) d) as [h0|] eqn:H0.
  - exists h0, a0. auto.
  - destruct Hin as [->|Hin].
    + apply dict_get_has_key in Hkey. destruct Hkey as [v Hv]. congruence.
    + destruct (IH Hin Hkey) as (h' & a' & ? & ? & ?). exists h', a'. auto.
Qed.

(** C4: when some header equals some alias after normalisation,
    [find_column] returns a header that equals an alias after
    normalisation, whatever other headers are there; and it is that very
    header when no other header matches an alias exactly. *)
Theorem find_column_exact_match (columns aliases : list str) (h a : str) :
  In h columns -> In a aliases ->
  _normalize_header h = _normalize_header a ->
  exists h',
    find_column columns aliases = Some h' /\
    In h' columns /\
    (exists a', In a' aliases /\ _normalize_header h' = _normalize_header a') /\
    ((forall c a', In c columns -> In a' aliases ->
        _normalize_header c = _normalize_header a' -> c = h) -> h' = h).
Proof.
  intros Hh Ha Heq.
  destruct (exact_match_finds (_norm_map columns) aliases a Ha) as (h' & a' & He & Ha' & Hg).
  { rewrite <- Heq. by apply norm_map_has_key. }
  apply dict_get_In, norm_map_from_columns in Hg. destruct Hg as [Hc Hn].
  exists h'. unfold find_column. rewrite He. repeat split; [done|eauto|].
  intros Huniq. by apply (Huniq h' a').
Qed.

(** A sheet whose status column is spelled in upper case with the
    Uzbek letter, next to a long header that merely contains an alias. *)
Lemma find_column_exact_match_witness :
  exists h',
    find_column [u "Статус техники"; u "ҲОЛАТИ"; u "Тури"] STATUS_ALIASES = Some h' /\
    In h' [u "Статус техники"; u "ҲОЛАТИ"; u "Тури"] /\
    (exists a', In a' STATUS_ALIASES /\ _normalize_header h' = _normalize_header a') /\
    ((forall c a', In c [u "Статус техники"; u "ҲОЛАТИ"; u "Тури"] ->
        In a' STATUS_ALIASES ->
        _normalize_header c = _normalize_header a' -> c = u "ҲОЛАТИ") ->
     h' = u "ҲОЛАТИ").
Proof.
  apply (find_column_exact_match _ _ (u "ҲОЛАТИ") (u "Холати")).
  - right; left; reflexivity.
  - left; reflexivity.
  - vm_compute; reflexivity.
Defined.

(** *** The token heuristic *)

Lemma first_with_token_Some (tokens : list str) (d : dict) (h : str) :
  first_with_token tokens d = Some h ->
  exists nc, In (nc, h) d /\ any_in tokens nc = true.
Proof.
  induction d as [|[nc orig] d IH]; simpl; [done|].
  destruct (any_in tokens nc) eqn:Hn.
  - intros [= <-]. exists nc. auto.
  - intros H. destruct (IH H) as (nc' & ? & ?). exists nc'. auto.
Qed.

Lemma first_with_token_None (tokens : list str) (d : dict) :
  first_with_token tokens d = None ->
  forall nc v, In (nc, v) d -> any_in tokens nc = false.
Proof.
  induction d as [|[nc orig] d IH]; simpl; [done|].
  destruct (any_in tokens nc) eqn:Hn; [done|].
  intros H nc' v [[= <- <-]|Hin]; [done | eauto].
Qed.

Lemma first_with_token_misses (tokens : list str) (columns : list str) :
  first_with_token tokens (_norm_map columns) = None ->
  no_column_hits tokens columns.
Proof.
  intros H c Hc.
  destruct (norm_map_has_key columns c Hc) as [v Hv].
  by apply (first_with_token_None _ _ H _ v).
Qed.

Lemma first_with_token_hits (tokens : list str) (columns : list str) (h : str) :
  first_with_token tokens (_norm_map columns) = Some h ->
  In h columns /\ any_in tokens (_normalize_header h) = true.
Proof.
  intros H. apply first_with_token_Some in H. destruct H as (nc & Hin & Hany).
  apply norm_map_from_columns in Hin. destruct Hin as [Hc <-]. auto.
Qed.

Lemma str_eqb_refl (k : str) : str_eqb k k = true.
Proof. by apply str_eqb_spec. Qed.

Lemma dict_get_set (k k' v : str) (d : dict) :
  dict_get k (dict_set k' v d) = if str_eqb k k' then Some v else dict_get k d.
Proof.
  induction d as [|[k0 v0] d IH]; cbn [dict_set dict_get]; [done|].
  destruct (str_eqb k' k0) eqn:H0.
  - apply str_eqb_spec in H0. subst k0. cbn [dict_get].
    by destruct (str_eqb k k').
  - cbn [dict_get]. rewrite IH.
    destruct (str_eqb k k0) eqn:H1, (str_eqb k k') eqn:H2; try done.
    apply str_eqb_spec in H1, H2. subst k0 k'. by rewrite str_eqb_refl in H0.
Qed.

Lemma first_key_set (tokens : list str) (k v : str) (d : dict) :
  first_key tokens (dict_set k v d)
  = match first_key tokens d with
    | Some k0 => Some k0
    | None => if any_in tokens k then Some k else None
    end.
Proof.
  induction d as [|[k0 v0] d IH]; cbn [dict_set first_key]; [done|].
  destruct (str_eqb k k0) eqn:H0.
  - apply str_eqb_spec in H0. subst k0. cbn [first_key].
    destruct (any_in tokens k); [done|]. by destruct (first_key tokens d).
  - cbn [first_key]. by destruct (any_in tokens k0).
Qed.

Lemma first_key_hit (tokens : list str) (d : dict) (k : str) :
  first_key tokens d = Some k -> any_in tokens k = true.
Proof.
  induction d as [|[k0 v0] d IH]; cbn [first_key]; [done|].
  destruct (any_in tokens k0) eqn:H0; [by intros [= <-] | done].
Qed.

(** The entry the token loop stops at is the one stored under the first
    key that holds a token. *)
Lemma first_with_token_key (tokens : list str) (d : dict) :
  first_with_token tokens d
  = match first_key tokens d with
    | Some k => dict_get k d
    | None => None
    end.
Proof.
  induction d as [|[k0 v0] d IH]; cbn [first_with_token first_key]; [done|].
  destruct (any_in tokens k0) eqn:H0.
  - cbn [dict_get]. by rewrite str_eqb_refl.
  - rewrite IH. destruct (first_key tokens d) as [k|] eqn:Hk; [|done].
    cbn [dict_get]. destruct (str_eqb k k0) eqn:H1; [|done].
    apply str_eqb_spec in H1. subst k0.
    apply first_key_hit in Hk. congruence.
Qed.

Lemma norm_map_snoc (columns : list str) (c : str) :
  _norm_map (columns ++ [c]) = dict_set (_normalize_header c) c (_norm_map columns).
Proof. unfold _norm_map. by rewrite fold_left_app. Qed.

(** The map holds, under each normal form, the last header that has it. *)
Lemma norm_map_get (columns : list str) (k : str) :
  dict_get k (_norm_map columns) = last_with_key k columns.
Proof.
  induction columns as [|c columns IH] using rev_ind; [done|].
  rewrite norm_map_snoc, dict_get_set, IH.
  unfold last_with_key. rewrite rev_app_distr. cbn [rev app find].
  by destruct (str_eqb k (_normalize_header c)).
Qed.

Lemma find_snoc {A : Type} (f : A -> bool) (l : list A) (x : A) :
  find f (l ++ [x])
  = match find f l with
    | Some y => Some y
    | None => if f x then Some x else None
    end.
Proof.
  induction l as [|y l IH]; cbn [app find]; [done|]. by destruct (f y).
Qed.

(** The keys of the map stand in the order in which their normal forms
    first appear among the headers. *)
Lemma norm_map_first_key (tokens : list str) (columns : list str) :
  first_key tokens (_norm_map columns)
  = option_map _normalize_header (first_hit tokens columns).
Proof.
  induction columns as [|c columns IH] using rev_ind; [done|].
  rewrite norm_map_snoc, first_key_set, IH. unfold first_hit.
  rewrite find_snoc.
  destruct (find _ columns); [done|]. cbn [option_map].
  by destruct (any_in tokens (_normalize_header c)).
Qed.

Lemma first_with_token_pick (tokens : list str) (columns : list str) :
  first_with_token tokens (_norm_map columns) = token_pick tokens columns.
Proof.
  rewrite first_with_token_key, norm_map_first_key. unfold token_pick.
  destruct (first_hit tokens columns) as [c|]; [|done].
  cbn [option_map]. apply norm_map_get.
Qed.

Lemma first_with_token_no_hits (tokens : list str) (columns : list str) :
  first_with_token tokens (_norm_map columns) = None <->
  no_column_hits tokens columns.
Proof.
  split; [apply first_with_token_misses|].
  intros Hno. destruct (first_with_token tokens (_norm_map columns)) as [h|] eqn:H;
    [|done].
  apply first_with_token_hits in H as [Hin Hany]. rewrite (Hno h Hin) in Hany.
  discriminate.
Qed.

(** C9, as amended: when neither the exact nor the substring step
    resolves the alias list, [find_column] tries the three fixed token
    sets in the order status, region, type, whatever role the aliases
    stand for. For the first set of which some header holds a token it
    takes the first such header and gives the last header with the same
    normal form as it; a header it gives is one of the headers and holds
    a token of that set; and it gives nothing exactly when no header
    holds a token of any of the three sets. *)
Theorem find_column_token_step (columns aliases : list str) :
  exact_match (_norm_map columns) aliases = None ->
  truthy (substring_match (_norm_map columns) aliases) = false ->
  find_column columns aliases = token_step_choice columns /\
  (forall h, find_column columns aliases = Some h ->
     In h columns /\
     (any_in status_tokens (_normalize_header h) = true \/
      (no_column_hits status_tokens columns /\
       any_in region_tokens (_normalize_header h) = true) \/
      (no_column_hits status_tokens columns /\
       no_column_hits region_tokens columns /\
       any_in type_tokens (_normalize_header h) = true))) /\
  (find_column columns aliases = None <->
   no_column_hits status_tokens columns /\
   no_column_hits region_tokens columns /\
   no_column_hits type_tokens columns).
Proof.
  intros He Hs.
  assert (find_column columns aliases
          = token_heuristic token_sets (_norm_map columns)) as ->
    by (unfold find_column; by rewrite He, Hs).
  unfold token_sets, token_heuristic, token_step_choice.
  rewrite <- !first_with_token_pick.
  split.
  { destruct (first_with_token status_tokens _); [done|].
    destruct (first_with_token region_tokens _); [done|].
    by destruct (first_with_token type_tokens _). }
  split.
  - intros h.
    destruct (first_with_token status_tokens _) as [h1|] eqn:H1.
    { intros [= <-]. apply first_with_token_hits in H1. destruct H1. auto. }
    apply first_with_token_misses in H1.
    destruct (first_with_token region_tokens _) as [h2|] eqn:H2.
    { intros [= <-]. apply first_with_token_hits in H2. destruct H2. auto. }
    apply first_with_token_misses in H2.
    destruct (first_with_token type_tokens _) as [h3|] eqn:H3; [|done].
    intros [= <-]. apply first_with_token_hits in H3. destruct H3. auto 6.
  - rewrite <- !first_with_token_no_hits.
    destruct (first_with_token status_tokens _); [by split; [|intros (? & _)]|].
    destruct (first_with_token region_tokens _); [by split; [|intros (_ & ? & _)]|].
    destruct (first_with_token type_tokens _); [by split; [|intros (_ & _ & ?)]|].
    done.
Qed.

(** The quantity role on three headers of which the first and the last
    have the same normal form: the step gives the last one, stored under
    the key of the first. *)
Lemma find_column_token_step_witness :
  find_column twin_headers QTY_ALIASES = Some (u "ХОЛАТ1") /\
  token_step_choice twin_headers = Some (u "ХОЛАТ1") /\
  In (u "ХОЛАТ1") twin_headers.
Proof.
  assert (exact_match (_norm_map twin_headers) QTY_ALIASES = None) as He
    by (vm_compute; reflexivity).
  assert (truthy (substring_match (_norm_map twin_headers) QTY_ALIASES) = false) as Hs
    by (vm_compute; reflexivity).
  destruct (find_column_token_step twin_headers QTY_ALIASES He Hs) as (Hc & Hh & _).
  assert (token_step_choice twin_headers = Some (u "ХОЛАТ1")) as Ht
    by (vm_compute; reflexivity).
  split; [by rewrite Hc|]. split; [done|].
  apply (Hh (u "ХОЛАТ1")). by rewrite Hc.
Defined.

(** C9 as stated fails: resolving the status role on a sheet whose only
    header is "Район" reaches the token step and returns that header,
    which holds a region token and no status token. *)
Lemma token_step_not_role_specific :
  ~ token_step_role_specific RoleStatus [u "Район"].
Proof.
  intros H.
  assert (any_in (role_tokens RoleStatus) (_normalize_header (u "Район")) = true) as Hc.
  { apply H; vm_compute; reflexivity. }
  vm_compute in Hc. discriminate.
Qed.

(** ** Aggregation engine *)

Lemma str_compare_refl (a : str) : str_compare a a = Eq.
Proof. induction a as [|x a IH]; simpl; [done|]. by rewrite Z.compare_refl. Qed.

Lemma str_compare_eq (a b : str) : str_compare a b = Eq -> a = b.
Proof.
  revert b; induction a as [|x a IH]; intros [|y b]; simpl; try done.
  destruct (x ?= y) eqn:Hxy; try done.
  apply Z.compare_eq in Hxy. intros H. f_equal; auto.
Qed.

Lemma str_compare_antisym (a b : str) :
  str_compare b a = CompOpp (str_compare a b).
Proof.
  revert b; induction a as [|x a IH]; intros [|y b]; simpl; try done.
  rewrite (Z.compare_antisym x y). destruct (x ?= y); simpl; auto.
Qed.

Lemma str_compare_gt (a b : str) : str_compare a b = Gt -> str_compare b a = Lt.
Proof. intros H. by rewrite str_compare_antisym, H. Qed.

Lemma str_lt_trans (a b c : str) : str_lt a b -> str_lt b c -> str_lt a c.
Proof.
  unfold str_lt. revert b c; induction a as [|x a IH]; intros [|y b] [|z c]; simpl; try done.
  destruct (x ?= y) eqn:Hxy; try done.
  - apply Z.compare_eq in Hxy. subst y. destruct (x ?= z); try done. apply IH.
  - destruct (y ?= z) eqn:Hyz; try done.
    + apply Z.compare_eq in Hyz. subst z. by rewrite Hxy.
    + intros _ _. rewrite Z.compare_lt_iff in *.
      assert (x < z) as H by lia. apply Z.compare_lt_iff in H. by rewrite H.
Qed.

Lemma str_lt_irrefl (a : str) : ~ str_lt a a.
Proof. unfold str_lt. by rewrite str_compare_refl. Qed.

(** Turn every comparison in the context into an equation or a [str_lt]
    fact and look for a cycle. *)
Ltac order_facts :=
  repeat match goal with
  | H : str_compare _ _ = Eq |- _ => apply str_compare_eq in H; subst
  | H : str_compare _ _ = Gt |- _ => apply str_compare_gt in H
  | H : str_compare ?a ?b = Lt |- _ => change (str_lt a b) in H
  end.

Ltac order_cycle :=
  order_facts;
  match goal with
  | H : str_lt ?a ?a |- _ => destruct (str_lt_irrefl a H)
  | H1 : str_lt ?a ?b, H2 : str_lt ?b ?a |- _ =>
    destruct (str_lt_irrefl a (str_lt_trans a b a H1 H2))
  | H1 : str_lt ?a ?b, H2 : str_lt ?b ?c, H3 : str_lt ?c ?a |- _ =>
    destruct (str_lt_irrefl a (str_lt_trans a c a (str_lt_trans a b c H1 H2) H3))
  end.

Lemma insert_key_comm (a b : str) (l : list str) :
  insert_key a (insert_key b l) = insert_key b (insert_key a l).
Proof.
  induction l as [|k l IH]; simpl.
  - destruct (str_compare a b) eqn:Hab, (str_compare b a) eqn:Hba;
      try done; try order_cycle.
    all: order_facts; done.
  - destruct (str_compare b k) eqn:Hbk, (str_compare a k) eqn:Hak; simpl;
      rewrite ?Hbk, ?Hak;
      try (destruct (str_compare a b) eqn:Hab); try (destruct (str_compare b a) eqn:Hba);
      simpl; rewrite ?Hbk, ?Hak; try done; try order_cycle; try (by rewrite IH).
    all: order_facts; try done.
Qed.

Lemma insert_key_idem (a : str) (l : list str) :
  insert_key a (insert_key a l) = insert_key a l.
Proof.
  induction l as [|k l IH]; cbn [insert_key].
  - by rewrite str_compare_refl.
  - destruct (str_compare a k) eqn:Hak; cbn [insert_key].
    + by rewrite Hak.
    + by rewrite str_compare_refl.
    + by rewrite Hak, IH.
Qed.

Lemma sorted_keys_perm (l l' : list str) :
  l ≡ₚ l' -> sorted_keys l = sorted_keys l'.
Proof.
  unfold sorted_keys. induction 1 as [|x l l' _ IH|x y l|l l' l'' _ IH1 _ IH2]; simpl.
  - done.
  - by rewrite IH.
  - apply insert_key_comm.
  - congruence.
Qed.

Lemma wrap64_add_r (a b : Z) : wrap64 (a + wrap64 b) = wrap64 (a + b).
Proof.
  unfold wrap64. f_equal.
  replace (a + ((b + 2 ^ 63) mod 2 ^ 64 - 2 ^ 63) + 2 ^ 63)
    with (a + (b + 2 ^ 63) mod 2 ^ 64) by lia.
  rewrite Z.add_mod_idemp_r by lia. f_equal. lia.
Qed.

Lemma group_total_perm (key : record -> str) (df df' : DataFrame) (k : str) :
  df ≡ₚ df' -> group_total key df k = group_total key df' k.
Proof.
  unfold group_total. induction 1 as [|x l l' _ IH|x y l|l l' l'' _ IH1 _ IH2]; simpl.
  - done.
  - by rewrite IH.
  - repeat case_match; try done. rewrite !wrap64_add_r. f_equal. lia.
  - congruence.
Qed.

Lemma groupby_sum_perm (key : record -> str) (df df' : DataFrame) :
  df ≡ₚ df' -> groupby_sum key df = groupby_sum key df'.
Proof.
  intros H. unfold groupby_sum.
  rewrite (sorted_keys_perm (map key df) (map key df')) by by apply Permutation_map.
  apply map_ext. intros k. f_equal. by apply group_total_perm.
Qed.

Lemma groupby_sum_split (key : record -> str) (r : record) (a b : Z) (df : DataFrame) :
  key_column key -> a + b = qty r ->
  groupby_sum key (with_qty r a :: with_qty r b :: df) = groupby_sum key (r :: df).
Proof.
  intros Hk Hab. unfold groupby_sum. cbn [map]. rewrite !Hk.
  unfold sorted_keys. cbn [foldr]. rewrite insert_key_idem.
  apply map_ext. intros k. f_equal.
  unfold group_total. cbn [foldr]. rewrite !Hk.
  change (qty (with_qty r a)) with a. change (qty (with_qty r b)) with b.
  case_match; [|done]. rewrite wrap64_add_r. f_equal. lia.
Qed.

(** The guards against an empty frame change nothing. *)
Lemma ranked_guard (key : record -> str) (df : DataFrame) :
  match df with [] => [] | _ :: _ => ranked key df end = ranked key df.
Proof. by destruct df. Qed.

Lemma filter_perm (P : record -> bool) (df df' : DataFrame) :
  df ≡ₚ df' -> List.filter P df ≡ₚ List.filter P df'.
Proof.
  induction 1 as [|x l l' _ IH|x y l|l l' l'' _ IH1 _ IH2]; simpl.
  - done.
  - destruct (P x); [by constructor | done].
  - destruct (P x), (P y); try done. apply perm_swap.
  - by etransitivity.
Qed.

Lemma ranked_perm (key : record -> str) (df df' : DataFrame) :
  df ≡ₚ df' -> ranked key df = ranked key df'.
Proof. intros H. unfold ranked. by rewrite (groupby_sum_perm key _ _ H). Qed.

Lemma view_reshaped (P : record -> bool) (key : record -> str) (df df' : DataFrame) :
  row_filter P -> key_column key -> reshaped df df' ->
  view P key df = view P key df'.
Proof.
  intros HP Hk [d d' Hperm | l1 l2 r a b Hab]; unfold view.
  - apply ranked_perm. by apply filter_perm.
  - transitivity (ranked key (List.filter P (r :: l1 ++ l2))).
    { apply ranked_perm, filter_perm. symmetry. apply Permutation_middle. }
    transitivity (ranked key (List.filter P (with_qty r a :: with_qty r b :: l1 ++ l2))).
    2: { apply ranked_perm, filter_perm.
         etransitivity; [|apply Permutation_middle].
         constructor. apply Permutation_middle. }
    cbn [List.filter]. rewrite !HP. destruct (P r); [|done].
    unfold ranked. by rewrite groupby_sum_split.
Qed.

Lemma filter_all (df : DataFrame) : List.filter (fun _ => true) df = df.
Proof. induction df as [|r df IH]; simpl; congruence. Qed.

Lemma get_status_distribution_any_view (df : DataFrame) :
  get_status_distribution_any df = view (fun _ => true) status_normalized df.
Proof.
  unfold get_status_distribution_any, view. by rewrite ranked_guard, filter_all.
Qed.

Lemma all_types_summary_view (df : DataFrame) :
  all_types_summary df = view (fun _ => true) type_normalized df.
Proof. unfold all_types_summary, view. by rewrite ranked_guard, filter_all. Qed.

Lemma count_type_per_region_view (df : DataFrame) (tech_type : str) :
  count_type_per_region df tech_type =
  match normalize_tech_type tech_type with
  | Some (c :: t) => view (fun r => str_eqb (type_normalized r) (c :: t)) region_name df
  | _ => []
  end.
Proof.
  unfold count_type_per_region, view.
  destruct (normalize_tech_type tech_type) as [[|c t]|]; try by destruct df.
  rewrite ranked_guard. by destruct df.
Qed.

Lemma count_trackers_by_region_view (df : DataFrame) :
  count_trackers_by_region df = view has_tracker region_name df.
Proof.
  unfold count_trackers_by_region, view. rewrite ranked_guard. by destruct df.
Qed.

(** C8: the totals of the group-and-sum views are the same multiset
    when the rows of the frame are reordered and when one row of
    quantity N is replaced by two rows of quantities A and B, A + B = N,
    that agree with it in every other field. *)
Theorem group_sum_totals_invariant (df df' : DataFrame) :
  reshaped df df' ->
  get_status_distribution_any df ≡ₚ get_status_distribution_any df' /\
  (forall tech_type,
     count_type_per_region df tech_type ≡ₚ count_type_per_region df' tech_type) /\
  all_types_summary df ≡ₚ all_types_summary df' /\
  count_trackers_by_region df ≡ₚ count_trackers_by_region df'.
Proof.
  intros H. repeat split.
  - rewrite !get_status_distribution_any_view.
    by rewrite (view_reshaped _ _ df df').
  - intros tech_type. rewrite !count_type_per_region_view.
    destruct (normalize_tech_type tech_type) as [[|c t]|]; try done.
    by rewrite (view_reshaped _ _ df df').
  - rewrite !all_types_summary_view. by rewrite (view_reshaped _ _ df df').
  - rewrite !count_trackers_by_region_view. by rewrite (view_reshaped _ _ df df').
Qed.

Lemma group_sum_totals_invariant_witness :
  reshaped ([one_kamaz] ++ five_zil :: [])
           ([one_kamaz] ++ with_qty five_zil 2 :: with_qty five_zil 3 :: []) /\
  get_status_distribution_any ([one_kamaz] ++ five_zil :: []) ≡ₚ
  get_status_distribution_any
    ([one_kamaz] ++ with_qty five_zil 2 :: with_qty five_zil 3 :: []).
Proof.
  split.
  - apply reshaped_split. reflexivity.
  - apply (group_sum_totals_invariant
             ([one_kamaz] ++ five_zil :: [])
             ([one_kamaz] ++ with_qty five_zil 2 :: with_qty five_zil 3 :: [])).
    apply reshaped_split. reflexivity.
Defined.

(** *** Order of the ranked views *)

Lemma HdRel_insert_key (x k : str) (l : list str) :
  HdRel str_lt x l -> str_lt x k -> HdRel str_lt x (insert_key k l).
Proof.
  intros Hl Hk. destruct l as [|k' l]; simpl; [by constructor|].
  inversion Hl; subst. destruct (str_compare k k'); by constructor.
Qed.

Lemma insert_key_sorted (k : str) (l : list str) :
  Sorted str_lt l -> Sorted str_lt (insert_key k l).
Proof.
  induction 1 as [|k' l Hs IH Hhd]; simpl.
  - by repeat constructor.
  - destruct (str_compare k k') eqn:Hc.
    + by constructor.
    + constructor; [by constructor | by constructor].
    + constructor; [done|]. apply HdRel_insert_key; [done|]. by apply str_compare_gt.
Qed.

Lemma sorted_keys_sorted (l : list str) : Sorted str_lt (sorted_keys l).
Proof.
  unfold sorted_keys. induction l as [|k l IH]; simpl; [constructor|].
  by apply insert_key_sorted.
Qed.

Lemma In_insert_desc (x y : str * Z) (l : list (str * Z)) :
  In y (insert_desc x l) -> y = x \/ In y l.
Proof.
  induction l as [|z l IH]; simpl.
  - intros [<-|[]]. by left.
  - destruct (snd x <? snd z).
    + intros [<-|H]; [right; by left|]. destruct (IH H); [by left | right; by right].
    + intros [<-|H]; [by left | by right].
Qed.

Lemma In_sort_values_desc (y : str * Z) (l : list (str * Z)) :
  In y (sort_values_desc l) -> In y l.
Proof.
  unfold sort_values_desc. induction l as [|x l IH]; simpl; [done|].
  intros H. apply In_insert_desc in H. destruct H; [by left | right; auto].
Qed.

Lemma insert_desc_perm (x : str * Z) (l : list (str * Z)) : insert_desc x l ≡ₚ x :: l.
Proof.
  induction l as [|y l IH]; simpl; [done|].
  destruct (snd x <? snd y); [|done]. rewrite IH. apply perm_swap.
Qed.

Lemma sort_values_desc_perm (l : list (str * Z)) : sort_values_desc l ≡ₚ l.
Proof.
  unfold sort_values_desc. induction l as [|x l IH]; simpl; [done|].
  rewrite insert_desc_perm. by constructor.
Qed.

Lemma insert_after_perm (x : str * Z) (l : list (str * Z)) : insert_after x l ≡ₚ x :: l.
Proof.
  induction l as [|y l IH]; simpl; [done|].
  destruct (snd x <=? snd y); [|done]. rewrite IH. apply perm_swap.
Qed.

Lemma sort_values_reversing_perm (l : list (str * Z)) : sort_values_reversing l ≡ₚ l.
Proof.
  unfold sort_values_reversing. induction l as [|x l IH]; simpl; [done|].
  rewrite insert_after_perm. by constructor.
Qed.

Lemma by_quantity_cons (x : str * Z) (l : list (str * Z)) :
  by_quantity (x :: l) <-> Forall (fun y => snd y <= snd x) l /\ by_quantity l.
Proof. apply StronglySorted_cons. Qed.

Lemma insert_desc_by_quantity (x : str * Z) (l : list (str * Z)) :
  by_quantity l -> by_quantity (insert_desc x l).
Proof.
  induction l as [|z l IH]; intros Hl; cbn [insert_desc].
  - by repeat constructor.
  - apply by_quantity_cons in Hl as [Hz Hl].
    destruct (snd x <? snd z) eqn:Hc.
    + apply Z.ltb_lt in Hc. apply by_quantity_cons. split; [|by apply IH].
      rewrite (insert_desc_perm x l). constructor; [lia | done].
    + apply Z.ltb_ge in Hc. apply by_quantity_cons. split.
      * constructor; [done|]. eapply Forall_impl; [exact Hz|].
        intros y Hy. cbv beta in *. lia.
      * by apply by_quantity_cons.
Qed.

Lemma insert_after_by_quantity (x : str * Z) (l : list (str * Z)) :
  by_quantity l -> by_quantity (insert_after x l).
Proof.
  induction l as [|z l IH]; intros Hl; cbn [insert_after].
  - by repeat constructor.
  - apply by_quantity_cons in Hl as [Hz Hl].
    destruct (snd x <=? snd z) eqn:Hc.
    + apply Z.leb_le in Hc. apply by_quantity_cons. split; [|by apply IH].
      rewrite (insert_after_perm x l). constructor; [lia | done].
    + apply Z.leb_gt in Hc. apply by_quantity_cons. split.
      * constructor; [lia|]. eapply Forall_impl; [exact Hz|].
        intros y Hy. cbv beta in *. lia.
      * by apply by_quantity_cons.
Qed.

(** Both the sort that keeps rows of equal quantity in their order and
    the one that reverses them do what [sort_values] promises. *)
Lemma sort_values_desc_sorts : sorts_by_qty sort_values_desc.
Proof.
  intros rows. split; [apply sort_values_desc_perm|].
  unfold sort_values_desc. induction rows as [|x rows IH]; cbn [foldr]; [constructor|].
  by apply insert_desc_by_quantity.
Qed.

Lemma sort_values_reversing_sorts : sorts_by_qty sort_values_reversing.
Proof.
  intros rows. split; [apply sort_values_reversing_perm|].
  unfold sort_values_reversing. induction rows as [|x rows IH]; cbn [foldr];
    [constructor|].
  by apply insert_after_by_quantity.
Qed.

Lemma any_ranked (sort_values : list (str * Z) -> list (str * Z))
    (key : record -> str) (df : DataFrame) :
  sorts_by_qty sort_values ->
  by_quantity (AnySort.ranked sort_values key df) /\
  AnySort.ranked sort_values key df ≡ₚ AnySort.ranked unsorted key df.
Proof.
  intros Hs. unfold AnySort.ranked, unsorted.
  by destruct (Hs (groupby_sum key df)) as [Hp Hq].
Qed.

Lemma nothing_ranked : by_quantity [] /\ @nil (str * Z) ≡ₚ [].
Proof. split; [constructor | done]. Qed.

(** C5, as amended: every ranked view holds the rows of its
    group-and-sum table (the view with the sort left out: one row per
    key, with the total of the group), listed by descending total. This
    holds whatever the sort does with rows of equal total: the code asks
    for no order among them. *)
Theorem ranked_views_sorted (sort_values : list (str * Z) -> list (str * Z))
    (df : DataFrame) (tech_type region : str) :
  sorts_by_qty sort_values ->
  (by_quantity (AnySort.count_type_per_region sort_values df tech_type) /\
   AnySort.count_type_per_region sort_values df tech_type
   ≡ₚ AnySort.count_type_per_region unsorted df tech_type) /\
  (by_quantity (AnySort.all_types_summary sort_values df) /\
   AnySort.all_types_summary sort_values df ≡ₚ AnySort.all_types_summary unsorted df) /\
  (by_quantity (AnySort.get_status_distribution_any sort_values df) /\
   AnySort.get_status_distribution_any sort_values df
   ≡ₚ AnySort.get_status_distribution_any unsorted df) /\
  (by_quantity
     (AnySort.get_status_distribution_for_type_region sort_values df tech_type region) /\
   AnySort.get_status_distribution_for_type_region sort_values df tech_type region
   ≡ₚ AnySort.get_status_distribution_for_type_region unsorted df tech_type region) /\
  (by_quantity (AnySort.count_trackers_by_region sort_values df) /\
   AnySort.count_trackers_by_region sort_values df
   ≡ₚ AnySort.count_trackers_by_region unsorted df).
Proof.
  intros Hs.
  split; [|split; [|split; [|split]]].
  - unfold AnySort.count_type_per_region.
    destruct df as [|r df]; [apply nothing_ranked|].
    destruct (normalize_tech_type tech_type) as [[|c t]|]; try apply nothing_ranked.
    cbv zeta. destruct (List.filter _ (r :: df)) as [|r' sub];
      [apply nothing_ranked | by apply any_ranked].
  - unfold AnySort.all_types_summary.
    destruct df as [|r df]; [apply nothing_ranked | by apply any_ranked].
  - unfold AnySort.get_status_distribution_any.
    destruct df as [|r df]; [apply nothing_ranked | by apply any_ranked].
  - unfold AnySort.get_status_distribution_for_type_region.
    destruct df as [|r df]; [apply nothing_ranked|].
    destruct (normalize_tech_type tech_type) as [[|c t]|]; try apply nothing_ranked.
    cbv zeta. destruct (List.filter _ (r :: df)) as [|r' sub];
      [apply nothing_ranked | by apply any_ranked].
  - unfold AnySort.count_trackers_by_region.
    destruct df as [|r df]; [apply nothing_ranked|].
    cbv zeta. destruct (List.filter _ (r :: df)) as [|r' sub];
      [apply nothing_ranked | by apply any_ranked].
Qed.

Lemma ranked_views_sorted_witness :
  by_quantity (AnySort.all_types_summary sort_values_reversing [one_kamaz; five_zil]) /\
  AnySort.all_types_summary sort_values_reversing [one_kamaz; five_zil]
  ≡ₚ AnySort.all_types_summary unsorted [one_kamaz; five_zil].
Proof.
  exact (proj1 (proj2 (ranked_views_sorted sort_values_reversing [one_kamaz; five_zil]
                         (u "зил") (u "Андижон") sort_values_reversing_sorts))).
Defined.

(** The views named as in the source are the views over a stable sort. *)
Lemma stable_views (df : DataFrame) (tech_type region : str) :
  count_type_per_region df tech_type
  = AnySort.count_type_per_region sort_values_desc df tech_type /\
  all_types_summary df = AnySort.all_types_summary sort_values_desc df /\
  get_status_distribution_any df = AnySort.get_status_distribution_any sort_values_desc df /\
  get_status_distribution_for_type_region df tech_type region
  = AnySort.get_status_distribution_for_type_region sort_values_desc df tech_type region /\
  count_trackers_by_region df = AnySort.count_trackers_by_region sort_values_desc df.
Proof. by repeat split. Qed.

Lemma tie_frame_from_sheet :
  process demo_env (u "Андижон") tie_sheet = Some tie_frame.
Proof. vm_compute. reflexivity. Qed.

(** C5 as stated fails. With one unit each of "Автобус", "ЗИЛ" and
    "Задвижка" the three totals are equal, and the rule of the claim
    would list "Автобус", "Задвижка", "ЗИЛ". A sort that keeps equal rows
    in the order of the grouping lists "ЗИЛ" before "Задвижка"; a sort
    that reverses them lists "ЗИЛ" before "Автобус". *)
Lemma ranked_views_not_case_insensitive :
  (sorts_by_qty sort_values_desc /\
   AnySort.all_types_summary sort_values_desc tie_frame
   = [(u "Автобус", 1); (u "ЗИЛ", 1); (u "Задвижка", 1)] /\
   ~ Sorted rank_before_ci (AnySort.all_types_summary sort_values_desc tie_frame)) /\
  (sorts_by_qty sort_values_reversing /\
   AnySort.all_types_summary sort_values_reversing tie_frame
   = [(u "Задвижка", 1); (u "ЗИЛ", 1); (u "Автобус", 1)] /\
   ~ Sorted rank_before_ci (AnySort.all_types_summary sort_values_reversing tie_frame)).
Proof.
  assert (AnySort.all_types_summary sort_values_desc tie_frame
          = [(u "Автобус", 1); (u "ЗИЛ", 1); (u "Задвижка", 1)]) as H1
    by (vm_compute; reflexivity).
  assert (AnySort.all_types_summary sort_values_reversing tie_frame
          = [(u "Задвижка", 1); (u "ЗИЛ", 1); (u "Автобус", 1)]) as H2
    by (vm_compute; reflexivity).
  split; (split; [apply sort_values_desc_sorts || apply sort_values_reversing_sorts|]).
  - split; [exact H1|]. rewrite H1.
    intros H. apply Sorted_inv in H as [H _]. apply Sorted_inv in H as [_ H].
    apply HdRel_inv in H. destruct H as [H|[_ H]].
    + cbn [snd] in H. lia.
    + apply H. vm_compute. reflexivity.
  - split; [exact H2|]. rewrite H2.
    intros H. apply Sorted_inv in H as [H _]. apply Sorted_inv in H as [_ H].
    apply HdRel_inv in H. destruct H as [H|[_ H]].
    + cbn [snd] in H. lia.
    + apply H. vm_compute. reflexivity.
Qed.

(** ** Row pipeline *)

Ltac unambiguous :=
  cbv zeta;
  match goal with
  | |- context [if ?b then None else _] =>
    destruct b; [first [done | by simpl | simpl; lia] |]
  end.

Lemma clamp_qty_pos (q : Z) : 1 <= clamp_qty q.
Proof. unfold clamp_qty. destruct (q <=? 0) eqn:H; [lia|]. apply Z.leb_gt in H. lia. Qed.

Lemma row_qty_pos (E : env) (columns : list str) (qty_col : option str)
    (row : list cell) (q : Z) :
  row_qty E columns qty_col row = Some q -> 1 <= q.
Proof.
  unfold row_qty. destruct qty_col as [c|]; [|intros [= <-]; lia].
  destruct (truthy (Some c)); [|intros [= <-]; lia].
  destruct (fillna0_astype_int _) as [z|]; simpl; [|done].
  intros [= <-]. apply clamp_qty_pos.
Qed.

Lemma collect_rows_In (rs : list row_result) (df : DataFrame) (r : record) :
  collect_rows rs = Some df -> In r df -> In (RowKept r) rs.
Proof.
  revert df; induction rs as [|res rs IH]; intros df; simpl.
  - by intros [= <-].
  - destruct res as [| |r0]; [done | |].
    + intros H Hr. right. eauto.
    + destruct (collect_rows rs) as [df0|]; simpl; [|done].
      intros [= <-] [<-|Hr]; [by left | right; eauto].
Qed.

Lemma row_record_qty (E : env) (region : str) (columns : list str)
    (sc tc rc qc kc : option str) (t : str) (row : list cell) (r : record) :
  row_record E region columns sc tc rc qc kc t row = RowKept r ->
  row_qty E columns qc row = Some (qty r).
Proof.
  unfold row_record. destruct (row_qty E columns qc row) as [q|]; [|done].
  cbv zeta. destruct (row_type _ t _) as [[|c s]|]; try done.
  by intros [= <-].
Qed.

(** The rows of a processed sheet come from its rows, one record each. *)
Lemma process_rows (E : env) (region : str) (ws : worksheet) (df : DataFrame)
    (r : record) :
  process E region ws = Some df -> In r df ->
  exists row,
    In row (unify_columns (body ws)) /\
    row_qty E (map strip (header ws))
      (find_column (map strip (header ws)) QTY_ALIASES) row = Some (qty r).
Proof.
  unfold process. destruct (header ws) as [|h hs] eqn:Hh; [by intros [= <-]|].
  destruct (body ws) as [|b bs] eqn:Hb; [by intros [= <-]|].
  unambiguous.
  destruct (collect_rows _) as [df0|] eqn:Hc; [|done].
  destruct (truthy (find_column _ TYPE_ALIASES)); [|by intros [= <-]].
  intros [= <-] Hr.
  apply (collect_rows_In _ _ _ Hc) in Hr. apply in_map_iff in Hr.
  destruct Hr as (row & Hrow & Hin). exists row. split; [done|].
  by apply row_record_qty in Hrow.
Qed.








(** ** Cache *)

Lemma fresh_entry_insert (cache : gmap str (DataFrame * Z)) (key : str)
    (df : DataFrame) (expiry now : Z) :
  now < expiry -> fresh_entry (<[key := (df, expiry)]> cache) key now = Some df.
Proof.
  intros H. unfold fresh_entry. rewrite lookup_insert_eq.
  apply Z.ltb_lt in H. by rewrite H.
Qed.

Lemma get_df_async_hit (E : env) (st : state) (now : Z) (region : option str)
    (df : DataFrame) :
  fresh_entry (CACHE st) (cache_key region) now = Some df ->
  get_df_async E st now region false = (df, st).
Proof. intros H. unfold get_df_async. by rewrite H. Qed.

Lemma get_df_async_fetched (E : env) (st : state) (now : Z) (region : option str)
    (force : bool) (df : DataFrame) (w : world) :
  (if force then None else fresh_entry (CACHE st) (cache_key region) now) = None ->
  fetch_frame E (outside st) region = (Some df, w) ->
  get_df_async E st now region force =
    (df, {| CACHE := <[cache_key region := (df, now + CACHE_TTL)]> (CACHE st);
            outside := w; fetches := S (fetches st) |}).
Proof. intros Hm Hf. unfold get_df_async. by rewrite Hm, Hf. Qed.

Lemma get_df_async_raised (E : env) (st : state) (now : Z) (region : option str)
    (force : bool) (w : world) :
  (if force then None else fresh_entry (CACHE st) (cache_key region) now) = None ->
  fetch_frame E (outside st) region = (None, w) ->
  get_df_async E st now region force =
    (match CACHE st !! cache_key region with
     | Some (df, _) => df
     | None => []
     end,
     {| CACHE := CACHE st; outside := w; fetches := S (fetches st) |}).
Proof.
  intros Hm Hf. unfold get_df_async. rewrite Hm, Hf.
  by destruct (CACHE st !! cache_key region) as [[df e]|].
Qed.

(** C2: without forced refresh, an unexpired entry is returned and
    nothing is fetched; otherwise the frame is fetched once, stored with
    expiry [now + CACHE_TTL] and returned; when the fetch raises, the
    previous entry's frame is returned if there is one, else an empty
    frame; and a second call for the same key before the expiry returns
    the same frame without a further fetch. *)
Theorem get_df_async_cache (E : env) (st : state) (now : Z) (region : option str) :
  (forall df,
     fresh_entry (CACHE st) (cache_key region) now = Some df ->
     get_df_async E st now region false = (df, st)) /\
  (forall df w,
     fresh_entry (CACHE st) (cache_key region) now = None ->
     fetch_frame E (outside st) region = (Some df, w) ->
     get_df_async E st now region false =
       (df, {| CACHE := <[cache_key region := (df, now + CACHE_TTL)]> (CACHE st);
               outside := w; fetches := S (fetches st) |})) /\
  (forall w,
     fresh_entry (CACHE st) (cache_key region) now = None ->
     fetch_frame E (outside st) region = (None, w) ->
     get_df_async E st now region false =
       (match CACHE st !! cache_key region with
        | Some (df, _) => df
        | None => []
        end,
        {| CACHE := CACHE st; outside := w; fetches := S (fetches st) |})) /\
  (forall df w now2,
     fresh_entry (CACHE st) (cache_key region) now = None ->
     fetch_frame E (outside st) region = (Some df, w) ->
     now2 < now + CACHE_TTL ->
     let first := get_df_async E st now region false in
     let second := get_df_async E (snd first) now2 region false in
     fst first = df /\ fst second = df /\
     snd second = snd first /\
     fetches (snd second) = S (fetches st) /\
     outside (snd second) = w).
Proof.
  split; [intros df; apply get_df_async_hit|].
  split; [intros df w Hm Hf; by apply get_df_async_fetched|].
  split; [intros w Hm Hf; by apply get_df_async_raised|].
  intros df w now2 Hm Hf Hlt first second. subst first second.
  rewrite (get_df_async_fetched E st now region false df w Hm Hf). simpl.
  rewrite (get_df_async_hit E _ now2 region df); [done|].
  simpl. by apply fresh_entry_insert.
Qed.

Lemma get_df_async_cache_witness :
  (fst first_call = snd (fst (load_single_region_sync demo_env 0 demo_source)) /\
   fst second_call = snd (fst (load_single_region_sync demo_env 0 demo_source)) /\
   snd second_call = snd first_call /\
   fetches (snd second_call) = 1%nat /\
   outside (snd second_call) = {| api_calls := 1; tasks := 1 |}) /\
  get_df_async demo_env (snd first_call) ten_minutes (Some (u "Андижон")) false
    = (fst first_call, snd first_call) /\
  get_df_async dying_env stale_state 10 (Some (u "Андижон")) false
    = ([demo_record],
       {| CACHE := CACHE stale_state;
          outside := {| api_calls := 0; tasks := 1 |}; fetches := 1 |}).
Proof.
  split; [|split].
  - apply (proj2 (proj2 (proj2
             (get_df_async_cache demo_env empty_state 0 (Some (u "Андижон")))))).
    + reflexivity.
    + vm_compute. reflexivity.
    + vm_compute. reflexivity.
  - apply (proj1 (get_df_async_cache demo_env (snd first_call) ten_minutes
                    (Some (u "Андижон")))).
    vm_compute. reflexivity.
  - apply (proj1 (proj2 (proj2
             (get_df_async_cache dying_env stale_state 10 (Some (u "Андижон")))))).
    + vm_compute. reflexivity.
    + vm_compute. reflexivity.
Defined.

(** *** When every source fails *)

Section AllFail.
Variable E : env.
Hypothesis every_call_fails : forall n sid, exists msg, gc_open E n sid = ApiError msg.

Lemma failing_source_is_empty (n : nat) (rs : str * option str) :
  snd (fst (load_single_region_sync E n rs)) = [].
Proof.
  unfold load_single_region_sync. destruct rs as [region sheet_id].
  destruct (truthy sheet_id); [|done].
  destruct (every_call_fails n (default [] sheet_id)) as [msg ->].
  destruct (str_in _ msg); [|done].
  by destruct (every_call_fails (S n) (default [] sheet_id)) as [msg' ->].
Qed.

Lemma failing_gather_has_no_part (w : world) (regions : list (str * option str)) :
  nonempty_parts (fst (gather E w regions)) = [].
Proof.
  revert w; induction regions as [|rs regions IH]; intros w; simpl; [done|].
  destruct (load_single_region_async E w rs) as [r w1] eqn:H1.
  specialize (IH w1). destruct (gather E w1 regions) as [results w2]. simpl in *.
  unfold load_single_region_async in H1.
  destruct (task_fails E (tasks w)).
  - injection H1 as <- _. done.
  - pose proof (failing_source_is_empty (api_calls w) rs) as He.
    destruct (load_single_region_sync E (api_calls w) rs) as [[name df] n'].
    simpl in He. subst df. injection H1 as <- _. done.
Qed.

Lemma failing_load_all_is_empty (w : world) :
  fst (load_all_regions_async E w) = [].
Proof.
  unfold load_all_regions_async.
  destruct (List.filter _ (REGION_SHEETS E)) as [|rs0 regions]; [done|].
  pose proof (failing_gather_has_no_part w (rs0 :: regions)) as Hn.
  destruct (gather E w (rs0 :: regions)) as [results w']. simpl in Hn.
  by rewrite Hn.
Qed.
End AllFail.

(** C10: when every call to the spreadsheet service fails, every
    per-source load returns an empty frame and so does the load of all
    sources; a call of [get_df_async] for "ALL" that goes to the loaders
    stores the empty frame with expiry [now + CACHE_TTL], whatever the
    cache held for that key, and a later unforced call before the expiry
    returns the empty frame and leaves the state as it is. *)
Theorem all_sources_failing_caches_empty (E : env) (st : state) (now now2 : Z)
    (force : bool) :
  (forall n sid, exists msg, gc_open E n sid = ApiError msg) ->
  force = true \/ fresh_entry (CACHE st) ALL now = None ->
  now2 < now + CACHE_TTL ->
  (forall n rs, snd (fst (load_single_region_sync E n rs)) = []) /\
  (forall w, fst (load_all_regions_async E w) = []) /\
  fst (get_df_async E st now None force) = [] /\
  CACHE (snd (get_df_async E st now None force)) !! ALL = Some ([], now + CACHE_TTL) /\
  fetches (snd (get_df_async E st now None force)) = S (fetches st) /\
  get_df_async E (snd (get_df_async E st now None force)) now2 None false
    = ([], snd (get_df_async E st now None force)).
Proof.
  intros Hfail Hmiss Hlt.
  split; [by apply failing_source_is_empty|].
  split; [by apply failing_load_all_is_empty|].
  assert (exists w, fetch_frame E (outside st) None = (Some [], w)) as [w Hf].
  { unfold fetch_frame. simpl.
    pose proof (failing_load_all_is_empty E Hfail (outside st)) as He.
    destruct (load_all_regions_async E (outside st)) as [df w]. simpl in He.
    subst df. by exists w. }
  rewrite (get_df_async_fetched E st now None force [] w); [|by destruct Hmiss as [->|?]; [|destruct force]|done].
  simpl. split; [done|]. split; [apply lookup_insert_eq|]. split; [done|].
  apply get_df_async_hit. simpl. by apply fresh_entry_insert.
Qed.

Lemma all_sources_failing_caches_empty_witness :
  fst (get_df_async failing_env stale_all_state 10 None false) = [] /\
  CACHE (snd (get_df_async failing_env stale_all_state 10 None false)) !! ALL
    = Some ([], 10 + CACHE_TTL) /\
  get_df_async failing_env
    (snd (get_df_async failing_env stale_all_state 10 None false)) 11 None false
    = ([], snd (get_df_async failing_env stale_all_state 10 None false)).
Proof.
  destruct (all_sources_failing_caches_empty failing_env stale_all_state 10 11 false)
    as (_ & _ & H1 & H2 & _ & H3).
  - intros n sid. by eexists.
  - right. vm_compute. reflexivity.
  - reflexivity.
  - auto.
Defined.

(* ================================================================== *)
(** * Further properties *)

(** ** Schema resolver: the substring step *)

Section SubstringStep.
Variable columns : list str.

Lemma substring_step_within (ka : str) (best : option str) (item : str * str) (n : nat) :
  _normalize_header (snd item) = fst item ->
  best_within best n -> best_within (substring_step ka best item) n.
Proof.
  destruct item as [nc orig]. simpl. intros Hn (b & -> & Hb). unfold substring_step.
  destruct (negb (str_eqb ka []) && str_in ka nc); [|by exists b].
  destruct (length nc <? length (_normalize_header b))%nat eqn:Hlt; [|by exists b].
  apply Nat.ltb_lt in Hlt. exists orig. split; [done|]. rewrite Hn. lia.
Qed.

Lemma substring_step_hit (ka : str) (best : option str) (nc orig : str) :
  _normalize_header orig = nc -> ka <> [] -> str_in ka nc = true ->
  best_within (substring_step ka best (nc, orig)) (length nc).
Proof.
  intros Hn Hka Hin. unfold substring_step. rewrite Hin.
  destruct (str_eqb ka []) eqn:He; [by apply str_eqb_spec in He|]. simpl.
  destruct best as [b|]; [|exists orig; split; [done | rewrite Hn; lia]].
  destruct (length nc <? length (_normalize_header b))%nat eqn:Hlt.
  - exists orig. split; [done | rewrite Hn; lia].
  - apply Nat.ltb_ge in Hlt. by exists b.
Qed.

Lemma inner_loop_within (ka : str) (d : dict) (best : option str) (n : nat) :
  from_columns columns d -> best_within best n ->
  best_within (fold_left (substring_step ka) d best) n.
Proof.
  revert best; induction d as [|[nc orig] d IH]; intros best Hd Hb; cbn [fold_left]; [done|].
  apply IH.
  - intros k v Hkv. apply Hd. by right.
  - apply substring_step_within; [|done]. cbn [fst snd]. apply (Hd nc orig). by left.
Qed.

Lemma inner_loop_hit (ka : str) (d : dict) (best : option str) (nc orig : str) :
  from_columns columns d -> In (nc, orig) d -> ka <> [] -> str_in ka nc = true ->
  best_within (fold_left (substring_step ka) d best) (length nc).
Proof.
  revert best; induction d as [|[nc0 orig0] d IH]; intros best Hd Hin Hka Hs; cbn [fold_left]; [done|].
  assert (from_columns columns d) as Hd' by (intros k v Hkv; apply Hd; by right).
  destruct Hin as [[= -> ->]|Hin].
  - apply inner_loop_within; [done|].
    apply substring_step_hit; [|done|done]. apply (Hd nc orig). by left.
  - by apply IH.
Qed.

Lemma outer_loop_within (d : dict) (aliases : list str) (best : option str) (n : nat) :
  from_columns columns d -> best_within best n ->
  best_within
    (fold_left (fun best a => fold_left (substring_step (_normalize_header a)) d best)
       aliases best) n.
Proof.
  revert best; induction aliases as [|a aliases IH]; intros best Hd Hb; cbn [fold_left]; [done|].
  apply IH; [done|]. by apply inner_loop_within.
Qed.

Lemma outer_loop_hit (d : dict) (aliases : list str) (best : option str)
    (a nc orig : str) :
  from_columns columns d -> In a aliases -> In (nc, orig) d ->
  _normalize_header a <> [] -> str_in (_normalize_header a) nc = true ->
  best_within
    (fold_left (fun best a => fold_left (substring_step (_normalize_header a)) d best)
       aliases best) (length nc).
Proof.
  revert best; induction aliases as [|a0 aliases IH]; intros best Hd Ha Hin Hne Hs;
    cbn [fold_left]; [done|].
  destruct Ha as [->|Ha].
  - apply outer_loop_within; [done|]. by apply (inner_loop_hit _ _ _ nc orig).
  - by apply IH.
Qed.

Lemma substring_step_matches (aliases : list str) (a : str) (best : option str)
    (nc orig : str) :
  In a aliases -> In orig columns -> _normalize_header orig = nc ->
  best_matches columns aliases best ->
  best_matches columns aliases (substring_step (_normalize_header a) best (nc, orig)).
Proof.
  intros Ha Ho Hn Hb. unfold substring_step.
  destruct (negb (str_eqb (_normalize_header a) []) && str_in (_normalize_header a) nc)
    eqn:Hc; [|done].
  apply andb_true_iff in Hc. destruct Hc as [Hne Hs].
  assert (best_matches columns aliases (Some orig)) as Hnew.
  { intros b [= <-]. split; [done|]. exists a. split; [done|]. split.
    - intros He. apply negb_true_iff in Hne.
      assert (str_eqb (_normalize_header a) [] = true) by by apply str_eqb_spec. congruence.
    - by rewrite Hn. }
  destruct best as [b|]; [|done].
  by destruct (length nc <? length (_normalize_header b))%nat.
Qed.

Lemma inner_loop_matches (aliases : list str) (a : str) (d : dict) (best : option str) :
  In a aliases -> from_columns columns d ->
  best_matches columns aliases best ->
  best_matches columns aliases (fold_left (substring_step (_normalize_header a)) d best).
Proof.
  revert best; induction d as [|[nc orig] d IH]; intros best Ha Hd Hb; cbn [fold_left]; [done|].
  destruct (Hd nc orig) as [Ho Hn]; [by left|].
  apply IH; [done | intros k v Hkv; apply Hd; by right |].
  by apply substring_step_matches.
Qed.

Lemma outer_loop_matches (aliases done_ : list str) (d : dict) (best : option str) :
  (forall a, In a done_ -> In a aliases) -> from_columns columns d ->
  best_matches columns aliases best ->
  best_matches columns aliases
    (fold_left (fun best a => fold_left (substring_step (_normalize_header a)) d best)
       done_ best).
Proof.
  revert best; induction done_ as [|a rest IH]; intros best Hsub Hd Hb; cbn [fold_left]; [done|].
  apply IH; [intros a' Ha'; apply Hsub; by right | done |].
  apply inner_loop_matches; [apply Hsub; by left | done | done].
Qed.

Lemma substring_match_matches (aliases : list str) :
  best_matches columns aliases (substring_match (_norm_map columns) aliases).
Proof.
  unfold substring_match. apply outer_loop_matches; [done | apply norm_map_from_columns |].
  by intros b.
Qed.

Lemma substring_match_within (aliases : list str) (a c : str) :
  In a aliases -> In c columns -> alias_in_column a c ->
  best_within (substring_match (_norm_map columns) aliases)
    (length (_normalize_header c)).
Proof.
  intros Ha Hc [Hne Hs]. unfold substring_match.
  destruct (norm_map_has_key columns c Hc) as [orig Ho].
  apply (outer_loop_hit _ _ _ a _ orig); try done. apply norm_map_from_columns.
Qed.
End SubstringStep.

Lemma exact_match_member (columns aliases : list str) (h : str) :
  exact_match (_norm_map columns) aliases = Some h -> In h columns.
Proof.
  induction aliases as [|a aliases IH]; simpl; [done|].
  destruct (dict_get _ _) as [orig|] eqn:Hg; [|done].
  intros [= <-]. apply dict_get_In in Hg. apply norm_map_from_columns in Hg. by destruct Hg.
Qed.

Lemma token_heuristic_member (sets : list (list str)) (columns : list str) (h : str) :
  token_heuristic sets (_norm_map columns) = Some h -> In h columns.
Proof.
  induction sets as [|tokens sets IH]; simpl; [done|].
  destruct (first_with_token tokens _) as [orig|] eqn:Hf; [|done].
  intros [= <-]. apply first_with_token_hits in Hf. by destruct Hf.
Qed.

(** X1: [find_column] never invents a header: what it returns is one
    of the given columns, and with no columns it returns nothing. *)
Theorem find_column_member (columns aliases : list str) (h : str) :
  find_column columns aliases = Some h -> In h columns.
Proof.
  unfold find_column.
  destruct (exact_match _ _) as [orig|] eqn:He.
  { intros [= <-]. by apply exact_match_member in He. }
  destruct (truthy _) eqn:Ht.
  - intros Hs. by apply (substring_match_matches columns aliases) in Hs as [? _].
  - apply token_heuristic_member.
Qed.

Lemma find_column_member_witness :
  find_column [u "Район"; u "Тури"] STATUS_ALIASES = Some (u "Район") /\
  In (u "Район") [u "Район"; u "Тури"].
Proof.
  assert (find_column [u "Район"; u "Тури"] STATUS_ALIASES = Some (u "Район")) as H
    by (vm_compute; reflexivity).
  split; [exact H|]. exact (find_column_member _ _ _ H).
Defined.

(** X2: when no header equals an alias but some header contains one,
    [find_column] returns a header that contains an alias and whose
    normal form is as short as that of any header containing an alias. *)
Theorem find_column_shortest_substring (columns aliases : list str) (a c : str) :
  exact_match (_norm_map columns) aliases = None ->
  In a aliases -> In c columns -> alias_in_column a c ->
  exists h,
    find_column columns aliases = Some h /\
    In h columns /\
    (exists a', In a' aliases /\ alias_in_column a' h) /\
    (forall a' c', In a' aliases -> In c' columns -> alias_in_column a' c' ->
       (length (_normalize_header h) <= length (_normalize_header c'))%nat).
Proof.
  intros He Ha Hc Hac.
  destruct (substring_match_within columns aliases a c Ha Hc Hac) as (h & Hs & _).
  destruct (substring_match_matches columns aliases h Hs) as (Hh & a' & Ha' & Hm).
  exists h. unfold find_column. rewrite He, Hs.
  assert (truthy (Some h) = true) as ->.
  { destruct Hm as [Hne Hin]. destruct h as [|x h]; [|done].
    apply str_in_spec in Hin. destruct Hin as (p & q & Hpq).
    change (_normalize_header []) with (@nil Z) in Hpq.
    destruct p; [destruct (_normalize_header a'); done | done]. }
  repeat split; [done | by exists a' |].
  intros a2 c2 Ha2 Hc2 Hm2.
  destruct (substring_match_within columns aliases a2 c2 Ha2 Hc2 Hm2) as (h' & Hs' & Hle).
  rewrite Hs in Hs'. by injection Hs' as <-.
Qed.

(** Two headers that contain the alias "Статус"; the shorter wins. *)
Lemma find_column_shortest_substring_witness :
  exists h,
    find_column [u "Статус техники сейчас"; u "Статус1"; u "Тури"] STATUS_ALIASES = Some h /\
    In h [u "Статус техники сейчас"; u "Статус1"; u "Тури"] /\
    (exists a', In a' STATUS_ALIASES /\ alias_in_column a' h) /\
    (forall a' c', In a' STATUS_ALIASES ->
       In c' [u "Статус техники сейчас"; u "Статус1"; u "Тури"] ->
       alias_in_column a' c' ->
       (length (_normalize_header h) <= length (_normalize_header c'))%nat).
Proof.
  apply (find_column_shortest_substring _ _ (u "Статус") (u "Статус техники сейчас")).
  - vm_compute. reflexivity.
  - right; right; left. reflexivity.
  - left. reflexivity.
  - split; [vm_compute; discriminate | vm_compute; reflexivity].
Defined.

(** ** Status classifier: rules that cannot fire *)

Lemma str_in_trans (q p s : str) :
  str_in q p = true -> str_in p s = true -> str_in q s = true.
Proof.
  rewrite !str_in_spec. intros (a & b & ->) (c & d & ->).
  exists (c ++ a), (b ++ d). by rewrite <- !app_assoc.
Qed.

Lemma icons_ok_in_normal_text (x : str) :
  any_in icons_ok (normalize_text x)
  = str_in (u "green") (normalize_text x) || str_in (u "ok") (normalize_text x).
Proof.
  unfold any_in, icons_ok. cbn [existsb].
  replace (str_in (u "✅") (normalize_text x)) with false.
  2: { symmetry. etransitivity; [|apply (no_symbol_in_normal_text x [] 9989)]; done. }
  replace (str_in (u "🟢") (normalize_text x)) with false.
  2: { symmetry. etransitivity; [|apply (no_symbol_in_normal_text x [] 128994)]; done. }
  by rewrite orb_false_r.
Qed.

(** X3: the emoji shortcuts of [normalize_status] never decide: the
    text is stripped of every non-word character before they are
    tested, so the result is the one of the word lexicons alone. *)
Theorem normalize_status_by_words (status : str) :
  normalize_status status =
    if str_eqb (strip status) [] then Unknown
    else classify_words (normalize_text status).
Proof.
  unfold normalize_status. destruct (str_eqb (strip status) []); [done|].
  unfold classify_status, classify_words.
  by rewrite icons_ok_in_normal_text, no_bad_icon_in_normal_text,
    no_repair_icon_in_normal_text.
Qed.

Lemma shadowed_phrase_operational (s p : str) :
  In p shadowed_phrases -> str_in p s = true ->
  (str_in (u "green") s || str_in (u "ok") s) || is_operational s = true.
Proof.
  intros Hp Hs.
  assert (forall q, str_in q p = true -> str_in q s = true) as Hq
    by (intros q Hq; by apply (str_in_trans q p s)).
  unfold shadowed_phrases in Hp. cbn [In] in Hp. unfold is_operational.
  destruct Hp as [<-|[<-|[<-|[<-|[<-|[<-|[<-|[<-|[]]]]]]]]].
  - rewrite (Hq (u "работает")) by (vm_compute; reflexivity). by rewrite !orb_true_r.
  - rewrite (Hq (u "работает")) by (vm_compute; reflexivity). by rewrite !orb_true_r.
  - rewrite (Hq (u "ok")) by (vm_compute; reflexivity). by rewrite !orb_true_r.
  - rewrite (Hq (u "active")) by (vm_compute; reflexivity). by rewrite !orb_true_r.
  - rewrite (Hq (u "исправен")) by (vm_compute; reflexivity). by rewrite !orb_true_r.
  - rewrite (Hq (u "исправна")) by (vm_compute; reflexivity). by rewrite !orb_true_r.
  - rewrite (Hq (u "исправно")) by (vm_compute; reflexivity). by rewrite !orb_true_r.
  - rewrite (Hq (u "исправный")) by (vm_compute; reflexivity). by rewrite !orb_true_r.
Qed.

(** X4: a text that holds "не работает", "частично не работает",
    "broken", "inactive" or an inflected form of "неисправ" is
    classified as operational: the operational test and the "ok" token,
    which come first, accept a part of each of these phrases. *)
Theorem shadowed_phrases_are_operational (status p : str) :
  strip status <> [] ->
  In p shadowed_phrases ->
  str_in p (normalize_text status) = true ->
  normalize_status status = Operational.
Proof.
  intros Hne Hp Hs. unfold normalize_status.
  destruct (str_eqb (strip status) []) eqn:He; [by apply str_eqb_spec in He|].
  pose proof (shadowed_phrase_operational _ _ Hp Hs) as H.
  unfold classify_status.
  rewrite icons_ok_in_normal_text, no_bad_icon_in_normal_text,
    no_repair_icon_in_normal_text.
  destruct (str_in (u "green") _ || str_in (u "ok") _); [done|].
  simpl in H. by rewrite H.
Qed.

Lemma shadowed_phrases_are_operational_witness :
  strip (u "Двигатель НЕ работает!") <> [] /\
  In (u "не работает") shadowed_phrases /\
  str_in (u "не работает") (normalize_text (u "Двигатель НЕ работает!")) = true /\
  normalize_status (u "Двигатель НЕ работает!") = Operational.
Proof.
  assert (strip (u "Двигатель НЕ работает!") <> []) as H1 by (vm_compute; discriminate).
  assert (In (u "не работает") shadowed_phrases) as H2 by (left; reflexivity).
  assert (str_in (u "не работает") (normalize_text (u "Двигатель НЕ работает!")) = true)
    as H3 by (vm_compute; reflexivity).
  split; [exact H1|]. split; [exact H2|]. split; [exact H3|].
  exact (shadowed_phrases_are_operational _ _ H1 H2 H3).
Defined.

(** ** Type classifier *)

Lemma lookup_type_In (m : list (str * str)) (s v : str) :
  lookup_type m s = Some v -> exists k, In (k, v) m /\ str_in k s = true.
Proof.
  induction m as [|[k0 v0] m IH]; simpl; [done|].
  destruct (str_in k0 s) eqn:Hk.
  - intros [= <-]. exists k0. auto.
  - intros H. destruct (IH H) as (k & ? & ?). exists k. auto.
Qed.

Lemma lookup_type_stops (pre post : list (str * str)) (k v s : str) :
  str_in k s = true ->
  exists v', lookup_type (pre ++ (k, v) :: post) s = Some v' /\
             (v' = v \/ In v' (map snd pre)).
Proof.
  intros Hk. induction pre as [|[k0 v0] pre IH]; simpl.
  - rewrite Hk. exists v. auto.
  - destruct (str_in k0 s).
    + exists v0. auto.
    + destruct IH as (v' & ? & [?|?]); exists v'; auto.
Qed.

Lemma type_mapping_labels_nonempty (k v : str) : In (k, v) type_mapping -> v <> [].
Proof.
  assert (forallb (fun kv => negb (str_eqb (snd kv) [])) type_mapping = true) as H
    by (vm_compute; reflexivity).
  rewrite forallb_forall in H. intros Hin Hv. specialize (H _ Hin). simpl in H.
  apply negb_true_iff in H. subst v. by vm_compute in H.
Qed.

Lemma upper_char_nonempty (c : Z) : upper_char c <> [].
Proof. unfold upper_char. repeat case_match; done. Qed.

Lemma normalize_tech_type_some (tech_type label : str) :
  normalize_tech_type tech_type = Some label -> label <> [].
Proof.
  unfold normalize_tech_type.
  destruct (str_eqb (strip tech_type) []) eqn:Hs; [done|].
  destruct (str_eqb (normalize_text tech_type) [] || _); [done|].
  destruct (any_in summary_keywords _); [done|].
  destruct (lookup_type type_mapping _) as [v|] eqn:Hl.
  - intros [= <-]. apply lookup_type_In in Hl. destruct Hl as (k & Hin & _).
    by apply (type_mapping_labels_nonempty k).
  - intros [= <-].
    destruct (strip tech_type) as [|c t] eqn:Ht.
    + assert (str_eqb [] [] = true) by by apply str_eqb_spec. congruence.
    + simpl. intros Hc. apply app_eq_nil in Hc. destruct Hc as [Hc _].
      by apply upper_char_nonempty in Hc.
Qed.

(** X5: a label given by [normalize_tech_type] is never empty, and is
    given only to a text that is not blank after normalisation and holds
    no totals keyword. *)
Theorem normalize_tech_type_label (tech_type label : str) :
  normalize_tech_type tech_type = Some label ->
  label <> [] /\
  normalize_text tech_type <> [] /\
  any_in summary_keywords (normalize_text tech_type) = false.
Proof.
  intros H. split; [by apply (normalize_tech_type_some tech_type)|].
  revert H. unfold normalize_tech_type.
  destruct (str_eqb (strip tech_type) []) eqn:Hs; [done|].
  destruct (str_eqb (normalize_text tech_type) [] || _) eqn:Hn; [done|].
  apply orb_false_iff in Hn. destruct Hn as [Hn _].
  destruct (any_in summary_keywords _) eqn:Hk; [done|].
  intros _. split; [|done].
  intros He. assert (str_eqb (normalize_text tech_type) [] = true) by by apply str_eqb_spec.
  congruence.
Qed.

Lemma normalize_tech_type_label_witness :
  normalize_tech_type (u " зил-130 ") = Some (u "ЗИЛ") /\
  u "ЗИЛ" <> [] /\
  normalize_text (u " зил-130 ") <> [] /\
  any_in summary_keywords (normalize_text (u " зил-130 ")) = false.
Proof.
  assert (normalize_tech_type (u " зил-130 ") = Some (u "ЗИЛ")) as H
    by (vm_compute; reflexivity).
  split; [exact H|]. exact (normalize_tech_type_label _ _ H).
Defined.

(** *** The fallback label

    What [raw.strip().capitalize()] can be is read off the case tables:
    a text capitalised to "Микроавтобус" is that word in some mix of
    cases, between whitespace. *)

Ltac range_facts :=
  repeat match goal with
  | H : in_range _ _ _ = true |- _ => unfold in_range in H
  | H : _ && _ = true |- _ => apply andb_true_iff in H; destruct H
  | H : _ || _ = true |- _ => apply orb_true_iff in H; destruct H
  | H : (_ <=? _) = true |- _ => apply Z.leb_le in H
  | H : (_ =? _) = true |- _ => apply Z.eqb_eq in H
  end.

Ltac eqb_false :=
  repeat match goal with
  | |- context [?x =? ?k] => rewrite (proj2 (Z.eqb_neq x k)) by lia
  end.

Lemma lower_char_cyrillic (c y : Z) :
  lower_char c = y -> 1072 <= y <= 1103 -> 1040 <= c <= 1103.
Proof.
  unfold lower_char. repeat case_match; intros; range_facts; lia.
Qed.

Lemma lower_cyrillic (t y : str) :
  lower t = y -> Forall (fun v => 1072 <= v <= 1103) y ->
  Forall (fun c => 1040 <= c <= 1103) t.
Proof.
  intros <-. induction t as [|c t IH]; cbn [lower map]; [constructor|].
  intros H. apply Forall_cons in H as [Hc Ht].
  constructor; [by apply (lower_char_cyrillic c (lower_char c)) | by apply IH].
Qed.

Lemma prenorm_app (a b : str) : _prenorm (a ++ b) = _prenorm a ++ _prenorm b.
Proof. unfold _prenorm, nfkc, replace_char. by rewrite flat_map_app, map_app, flat_map_app. Qed.

Lemma prenorm_char_id (c : Z) :
  nfkc_char c = [c] -> existsb (Z.eqb c) APOSTS = false -> c <> 160 ->
  _prenorm [c] = [c].
Proof.
  intros Hn Ha Hc. unfold _prenorm, nfkc, replace_char. cbn [flat_map].
  rewrite Hn. cbn [app map]. rewrite Ha. cbn [flat_map app].
  by rewrite (proj2 (Z.eqb_neq c 160)).
Qed.

Ltac plain_char :=
  apply prenorm_char_id;
  [ unfold nfkc_char; by eqb_false
  | unfold APOSTS; cbn [existsb]; by eqb_false
  | lia ].

Lemma prenorm_cyrillic (c : Z) :
  1040 <= c <= 1103 -> _prenorm [c] = [c] /\ is_space c = false.
Proof.
  intros Hc. split; [plain_char|].
  apply not_true_is_false. unfold is_space. intros H. range_facts; lia.
Qed.

Lemma prenorm_cyrillic_text (s : str) :
  Forall (fun c => 1040 <= c <= 1103) s ->
  _prenorm s = s /\ Forall (fun c => is_space c = false) s.
Proof.
  induction 1 as [|c s Hc _ [IH1 IH2]]; [by split|].
  destruct (prenorm_cyrillic c Hc) as [H1 H2]. split; [|by constructor].
  change (c :: s) with ([c] ++ s). by rewrite prenorm_app, H1, IH1.
Qed.

Lemma prenorm_space (c : Z) :
  is_space c = true -> Forall (fun x => is_space x = true) (_prenorm [c]).
Proof.
  intros H. pose proof H as H0. unfold is_space in H. range_facts;
    first
      [ subst c; by repeat constructor
      | assert (_prenorm [c] = [c]) as -> by plain_char;
        by repeat constructor ].
Qed.

Lemma prenorm_spaces (l : str) :
  Forall (fun x => is_space x = true) l ->
  Forall (fun x => is_space x = true) (_prenorm l).
Proof.
  induction 1 as [|c l Hc _ IH]; [constructor|].
  change (c :: l) with ([c] ++ l). rewrite prenorm_app.
  apply Forall_app. split; [by apply prenorm_space | done].
Qed.

Lemma lstrip_spaces (l rest : str) :
  Forall (fun x => is_space x = true) l -> lstrip (l ++ rest) = lstrip rest.
Proof. induction 1 as [|c l Hc _ IH]; [done|]. cbn [app lstrip]. by rewrite Hc. Qed.

Lemma rstrip_spaces (r : str) :
  Forall (fun x => is_space x = true) r -> rstrip r = [].
Proof.
  intros H. unfold rstrip.
  rewrite <- (app_nil_r (rev r)), lstrip_spaces; [done|].
  by apply Forall_rev.
Qed.

Lemma rstrip_nonspace_head (c : Z) (t : str) :
  is_space c = false -> rstrip (c :: t) = c :: rstrip t.
Proof. intros Hc. exact (rstrip_app_nonspace [] t c Hc). Qed.

Lemma strip_sandwich (l m r : str) :
  Forall (fun x => is_space x = true) l ->
  Forall (fun x => is_space x = false) m ->
  Forall (fun x => is_space x = true) r ->
  strip (l ++ m ++ r) = m.
Proof.
  intros Hl Hm Hr. unfold strip. rewrite lstrip_spaces by done.
  induction Hm as [|c m Hc Hm IH].
  - cbn [app]. rewrite <- (app_nil_r r), lstrip_spaces by done. done.
  - cbn [app lstrip]. rewrite Hc, (rstrip_nonspace_head c _ Hc). f_equal.
    destruct m as [|d m].
    + cbn [app]. by apply rstrip_spaces.
    + apply Forall_cons in Hm as [Hd Hm']. cbn [app lstrip] in IH.
      by rewrite Hd in IH.
Qed.

Lemma lstrip_decompose (s : str) :
  exists l, s = l ++ lstrip s /\ Forall (fun x => is_space x = true) l.
Proof.
  induction s as [|c s (l & Hs & Hl)]; [by exists []|].
  cbn [lstrip]. destruct (is_space c) eqn:Hc.
  - exists (c :: l). split; [cbn [app]; by f_equal | by constructor].
  - by exists [].
Qed.

Lemma strip_decompose (s : str) :
  exists l r, s = l ++ strip s ++ r /\
    Forall (fun x => is_space x = true) l /\ Forall (fun x => is_space x = true) r.
Proof.
  destruct (lstrip_decompose s) as (l & Hs & Hl).
  destruct (lstrip_decompose (rev (lstrip s))) as (r & Hr & Hrs).
  exists l, (rev r). split; [|split; [done | by apply Forall_rev]].
  unfold strip, rstrip. rewrite <- rev_app_distr, <- Hr, rev_involutive. done.
Qed.

Lemma upper_char_first (c : Z) (w rest : str) :
  upper_char c ++ w = 1052 :: rest -> (c = 1084 \/ c = 1052) /\ w = rest.
Proof.
  unfold upper_char. repeat case_match; cbn [app]; intros Heq; simplify_eq;
    range_facts; first [exfalso; lia | split; [lia | done]].
Qed.

(** A text that capitalises to "Микроавтобус" has the normal form
    "микроавтобус". *)
Lemma capitalize_microbus (raw : str) :
  capitalize (strip raw) = MICROBUS -> normalize_text raw = u "микроавтобус".
Proof.
  assert (MICROBUS = 1052 :: [1080; 1082; 1088; 1086; 1072; 1074; 1090; 1086;
                              1073; 1091; 1089]) as -> by (vm_compute; reflexivity).
  destruct (strip_decompose raw) as (l & r & Hraw & Hl & Hr).
  remember (strip raw) as s eqn:Hs. clear Hs.
  destruct s as [|c1 rest]; [done|]. cbn [capitalize]. intros H.
  apply upper_char_first in H as [Hc1 Hrest].
  assert (Forall (fun c => 1040 <= c <= 1103) (c1 :: rest)) as Hcyr.
  { constructor; [lia|]. apply (lower_cyrillic rest _ Hrest).
    repeat constructor; lia. }
  destruct (prenorm_cyrillic_text _ Hcyr) as [Hpre Hns].
  assert (lower (c1 :: rest) = u "микроавтобус") as Hlow.
  { cbn [lower map]. fold (lower rest). rewrite Hrest.
    destruct Hc1 as [-> | ->]; vm_compute; reflexivity. }
  unfold normalize_text. rewrite Hraw, !prenorm_app, Hpre.
  rewrite strip_sandwich by (done || by apply prenorm_spaces).
  rewrite Hlow. vm_compute. reflexivity.
Qed.

Lemma microbus_key_shadowed (s : str) :
  str_in (u "микроавтобус") s = true -> lookup_type type_mapping s <> Some MICROBUS.
Proof.
  intros Hm.
  assert (str_in (u "автобус") s = true) as Hb.
  { apply (str_in_trans _ (u "микроавтобус")); [vm_compute; reflexivity | done]. }
  destruct (lookup_type_stops (firstn 29 type_mapping) (skipn 30 type_mapping)
              (u "автобус") (u "Автобус") _ Hb) as (v' & Hl & Hv).
  change (firstn 29 type_mapping ++ (u "автобус", u "Автобус") :: skipn 30 type_mapping)
    with type_mapping in Hl.
  rewrite Hl. intros [= ->].
  destruct Hv as [Hv|Hv]; [by vm_compute in Hv|].
  assert (existsb (str_eqb MICROBUS) (map snd (firstn 29 type_mapping)) = false) as Hx
    by (vm_compute; reflexivity).
  assert (existsb (str_eqb MICROBUS) (map snd (firstn 29 type_mapping)) = true) as Hy.
  { apply existsb_exists. exists MICROBUS. split; [done | by apply str_eqb_spec]. }
  congruence.
Qed.

Lemma microbus_key_unique (k : str) :
  In (k, MICROBUS) type_mapping -> k = u "микроавтобус".
Proof.
  assert (forallb (fun kv => negb (str_eqb (snd kv) MICROBUS)
                             || str_eqb (fst kv) (u "микроавтобус"))
            type_mapping = true) as H by (vm_compute; reflexivity).
  rewrite forallb_forall in H. intros Hin. specialize (H _ Hin). cbn [fst snd] in H.
  rewrite str_eqb_refl in H. by apply str_eqb_spec in H.
Qed.

(** X6: no text gets the label "Микроавтобус". The lexicon entry
    "микроавтобус" cannot be reached, because the entry "автобус" stands
    before it and occurs in every text that holds "микроавтобус"; and
    the fallback cannot give it either, because a text that capitalises
    to "Микроавтобус" holds "автобус" and is caught by the lexicon. *)
Theorem microbus_is_shadowed (tech_type : str) :
  normalize_tech_type tech_type <> Some MICROBUS.
Proof.
  unfold normalize_tech_type.
  destruct (str_eqb (strip tech_type) []); [done|].
  destruct (str_eqb (normalize_text tech_type) [] || _); [done|].
  destruct (any_in summary_keywords _); [done|].
  destruct (lookup_type type_mapping (normalize_text tech_type)) as [v|] eqn:Hl.
  - intros [= ->]. pose proof Hl as Hk.
    apply lookup_type_In in Hk as (k & Hin & Hk).
    apply microbus_key_unique in Hin. subst k.
    by apply microbus_key_shadowed in Hk.
  - intros [= Hc]. apply capitalize_microbus in Hc.
    rewrite Hc in Hl. vm_compute in Hl. discriminate.
Qed.

(** ** Aggregation engine: rows and totals of a ranked view *)

Lemma In_insert_key (x k : str) (l : list str) :
  In x (insert_key k l) <-> x = k \/ In x l.
Proof.
  induction l as [|k' l IH]; simpl; [intuition congruence|].
  destruct (str_compare k k') eqn:Hc; simpl.
  - apply str_compare_eq in Hc. subst k'. intuition congruence.
  - intuition congruence.
  - rewrite IH. intuition congruence.
Qed.

Lemma In_sorted_keys (x : str) (l : list str) : In x (sorted_keys l) <-> In x l.
Proof.
  unfold sorted_keys. induction l as [|k l IH]; simpl; [tauto|].
  rewrite In_insert_key, IH. intuition congruence.
Qed.

Lemma sorted_keys_NoDup (l : list str) : NoDup (sorted_keys l).
Proof.
  assert (StronglySorted str_lt (sorted_keys l)) as H.
  { apply Sorted_StronglySorted; [|apply sorted_keys_sorted].
    intros a b c. apply str_lt_trans. }
  induction H as [|k ks Hs IH Hall]; constructor; [|done].
  intros Hin. rewrite Forall_forall in Hall. by apply (str_lt_irrefl k), Hall.
Qed.

Lemma sum_totals_perm (l l' : list (str * Z)) : l ≡ₚ l' -> sum_totals l = sum_totals l'.
Proof.
  unfold sum_totals. induction 1 as [|x l l' _ IH|x y l|l l' l'' _ IH1 _ IH2]; simpl; lia.
Qed.

Lemma sum_totals_groups (g : str -> Z) (ks : list str) :
  sum_totals (map (fun k => (k, g k)) ks) = sum_over g ks.
Proof. unfold sum_totals. induction ks as [|k ks IH]; simpl; congruence. Qed.

Lemma wrap64_add_l (a b : Z) : wrap64 (wrap64 a + b) = wrap64 (a + b).
Proof. rewrite Z.add_comm, wrap64_add_r. f_equal. lia. Qed.

Lemma wrap64_idem (a : Z) : wrap64 (wrap64 a) = wrap64 a.
Proof. rewrite <- (Z.add_0_l (wrap64 a)), wrap64_add_r. by rewrite Z.add_0_l. Qed.

Lemma sum_other_key (g : str -> Z) (q : Z) (k0 : str) (ks : list str) :
  ~ In k0 ks ->
  sum_over (fun k => if str_eqb k0 k then wrap64 (q + g k) else g k) ks = sum_over g ks.
Proof.
  induction ks as [|k ks IH]; cbn [sum_over]; [done|]. intros Hn.
  destruct (str_eqb k0 k) eqn:He.
  - apply str_eqb_spec in He. subst k. destruct Hn. by left.
  - rewrite IH; [done|]. intros H. apply Hn. by right.
Qed.

Lemma sum_one_key (g : str -> Z) (q : Z) (k0 : str) (ks : list str) :
  NoDup ks -> In k0 ks ->
  wrap64 (sum_over (fun k => if str_eqb k0 k then wrap64 (q + g k) else g k) ks)
  = wrap64 (q + sum_over g ks).
Proof.
  induction 1 as [|k ks Hk Hnd IH]; [done|]. intros Hin.
  cbn [sum_over]. destruct (str_eqb k0 k) eqn:He.
  - apply str_eqb_spec in He. subst k. rewrite sum_other_key.
    + rewrite wrap64_add_l. f_equal. lia.
    + intros H. apply Hk. by apply list_elem_of_In.
  - destruct Hin as [->|Hin].
    { assert (str_eqb k0 k0 = true) by by apply str_eqb_spec. congruence. }
    rewrite <- wrap64_add_r, (IH Hin), wrap64_add_r. f_equal. lia.
Qed.

Lemma group_totals_conserve (key : record -> str) (df : DataFrame) (ks : list str) :
  NoDup ks -> (forall r, In r df -> In (key r) ks) ->
  wrap64 (sum_over (group_total key df) ks) = qty_sum df.
Proof.
  intros Hnd. unfold qty_sum. induction df as [|r df IH]; intros Hks.
  - simpl. f_equal. clear Hnd Hks. induction ks as [|k ks IHk]; simpl; [done|].
    by rewrite IHk.
  - change (group_total key (r :: df)) with
      (fun k => if str_eqb (key r) k then wrap64 (qty r + group_total key df k)
                else group_total key df k).
    rewrite sum_one_key; [|done | apply Hks; by left].
    rewrite <- wrap64_add_r, IH, wrap64_add_r; [done|].
    intros r' Hr'. apply Hks. by right.
Qed.

Lemma In_sort_values_desc_iff (y : str * Z) (l : list (str * Z)) :
  In y (sort_values_desc l) <-> In y l.
Proof.
  split; [apply In_sort_values_desc|]. intros H.
  apply list_elem_of_In. rewrite sort_values_desc_perm. by apply list_elem_of_In.
Qed.

Lemma In_ranked (key : record -> str) (df : DataFrame) (k : str) (q : Z) :
  In (k, q) (ranked key df) <-> In k (map key df) /\ q = group_total key df k.
Proof.
  unfold ranked. rewrite In_sort_values_desc_iff. unfold groupby_sum.
  rewrite in_map_iff. split.
  - intros (k' & [= <- <-] & Hin). apply (proj1 (In_sorted_keys _ _)) in Hin. by split.
  - intros [Hin ->]. exists k. split; [done|]. by apply In_sorted_keys.
Qed.

Lemma ranked_keys_NoDup (key : record -> str) (df : DataFrame) :
  NoDup (map fst (ranked key df)).
Proof.
  unfold ranked.
  assert (map fst (sort_values_desc (groupby_sum key df))
          ≡ₚ map fst (groupby_sum key df)) as ->
    by (apply Permutation_map, sort_values_desc_perm).
  unfold groupby_sum. rewrite map_map. simpl. rewrite map_id.
  apply sorted_keys_NoDup.
Qed.

Lemma ranked_conserves (key : record -> str) (df : DataFrame) :
  wrap64 (sum_totals (ranked key df)) = qty_sum df.
Proof.
  unfold ranked. rewrite (sum_totals_perm _ _ (sort_values_desc_perm _)).
  unfold groupby_sum. rewrite sum_totals_groups.
  apply group_totals_conserve; [apply sorted_keys_NoDup|].
  intros r Hr. apply In_sorted_keys. by apply in_map.
Qed.

(** X7: the type summary and the status distribution have one row per
    distinct key of the frame, each with the total of its group, and
    their totals add up to the sum of the quantity column (as int64
    values): no unit is lost or counted twice. *)
Theorem summaries_conserve_quantity (df : DataFrame) :
  (forall k q, In (k, q) (all_types_summary df) <->
     In k (map type_normalized df) /\ q = group_total type_normalized df k) /\
  (forall k q, In (k, q) (get_status_distribution_any df) <->
     In k (map status_normalized df) /\ q = group_total status_normalized df k) /\
  NoDup (map fst (all_types_summary df)) /\
  NoDup (map fst (get_status_distribution_any df)) /\
  wrap64 (sum_totals (all_types_summary df)) = qty_sum df /\
  wrap64 (sum_totals (get_status_distribution_any df)) = qty_sum df.
Proof.
  unfold all_types_summary, get_status_distribution_any. rewrite !ranked_guard.
  split; [intros k q; apply In_ranked|].
  split; [intros k q; apply In_ranked|].
  split; [apply ranked_keys_NoDup|].
  split; [apply ranked_keys_NoDup|].
  split; apply ranked_conserves.
Qed.

(** X8: a type whose label is a fixed point of [normalize_tech_type]
    (every label of the lexicon that can be reached is one) is found
    again by [count_type_per_region]: each region that has a record of
    that type has a row, with the total of its records of that type. *)
Theorem count_type_per_region_finds (df : DataFrame) (t : str) (r : record) :
  normalize_tech_type t = Some t ->
  In r df -> type_normalized r = t ->
  In (region_name r, group_total region_name (of_type t df) (region_name r))
     (count_type_per_region df t).
Proof.
  intros Ht Hr Hrt. rewrite count_type_per_region_view, Ht.
  pose proof (normalize_tech_type_some _ _ Ht) as Hne.
  destruct t as [|c t]; [done|].
  unfold view. apply In_ranked. split; [|done].
  apply in_map. apply filter_In. split; [done|]. by apply str_eqb_spec.
Qed.

Lemma count_type_per_region_finds_witness :
  normalize_tech_type (u "ЗИЛ") = Some (u "ЗИЛ") /\
  In five_zil [one_kamaz; five_zil] /\
  In (u "Андижон", 5) (count_type_per_region [one_kamaz; five_zil] (u "ЗИЛ")).
Proof.
  assert (normalize_tech_type (u "ЗИЛ") = Some (u "ЗИЛ")) as H1 by (vm_compute; reflexivity).
  assert (In five_zil [one_kamaz; five_zil]) as H2 by (right; left; reflexivity).
  split; [exact H1|]. split; [exact H2|].
  exact (count_type_per_region_finds [one_kamaz; five_zil] (u "ЗИЛ") five_zil H1 H2 eq_refl).
Defined.

Lemma lexicon_labels_fixed (k v : str) :
  In (k, v) type_mapping -> v <> MICROBUS -> normalize_tech_type v = Some v.
Proof.
  assert (forallb (fun kv => str_eqb (snd kv) MICROBUS
                             || bool_decide (normalize_tech_type (snd kv) = Some (snd kv)))
            type_mapping = true) as H by (vm_compute; reflexivity).
  rewrite forallb_forall in H. intros Hin Hv. specialize (H _ Hin). simpl in H.
  apply orb_true_iff in H. destruct H as [H|H].
  - by apply str_eqb_spec in H.
  - by apply bool_decide_eq_true in H.
Qed.

(** ** Category split *)

Lemma wrap64_small (x : Z) : 0 <= x < 2 ^ 63 -> wrap64 x = x.
Proof. intros H. unfold wrap64. rewrite Z.mod_small; lia. Qed.

Lemma qty_total_split (P : record -> bool) (df : DataFrame) :
  qty_total df
  = qty_total (List.filter (fun r => negb (P r)) df) + qty_total (List.filter P df).
Proof.
  unfold qty_total. induction df as [|r df IH]; simpl; [done|].
  destruct (P r); simpl; lia.
Qed.

Lemma qty_total_filter_bounds (P : record -> bool) (df : DataFrame) :
  Forall (fun r => 0 <= qty r) df ->
  0 <= qty_total (List.filter P df) <= qty_total df.
Proof.
  unfold qty_total. induction 1 as [|r df Hr Hdf IH]; simpl; [lia|].
  destruct (P r); simpl; lia.
Qed.

(** X9: the category summary counts every unit once: vehicles plus
    equipment is the total, the total is the sum of the quantity column
    (as an int64 value, and exactly when the quantities are not negative
    and their sum fits), and the status distribution shown for each
    half adds up to the quantity of that half. *)
Theorem category_split_conserves (df : DataFrame) :
  snd (summarize_region_categories df)
    = fst (fst (summarize_region_categories df))
      + snd (fst (summarize_region_categories df)) /\
  wrap64 (snd (summarize_region_categories df)) = qty_sum df /\
  wrap64 (sum_totals (get_status_distribution_any (auto_frame df)))
    = fst (fst (summarize_region_categories df)) /\
  wrap64 (sum_totals (get_status_distribution_any (equip_frame df)))
    = snd (fst (summarize_region_categories df)) /\
  (fits_int64 df ->
   snd (summarize_region_categories df) = qty_total df /\
   fst (fst (summarize_region_categories df)) = qty_total (auto_frame df) /\
   snd (fst (summarize_region_categories df)) = qty_total (equip_frame df)).
Proof.
  assert (summarize_region_categories df
          = (qty_sum (auto_frame df), qty_sum (equip_frame df),
             qty_sum (auto_frame df) + qty_sum (equip_frame df))) as ->.
  { destruct df; [|done]. vm_compute. reflexivity. }
  cbn [fst snd].
  assert (qty_total df = qty_total (auto_frame df) + qty_total (equip_frame df)) as Hs
    by apply qty_total_split.
  split; [done|]. split.
  { unfold qty_sum. rewrite wrap64_add_l, wrap64_add_r. by rewrite Hs. }
  split.
  { unfold get_status_distribution_any. rewrite ranked_guard. apply ranked_conserves. }
  split.
  { unfold get_status_distribution_any. rewrite ranked_guard. apply ranked_conserves. }
  intros [Hpos Hfit].
  assert (0 <= qty_total (auto_frame df) <= qty_total df) as Ha
    by by apply qty_total_filter_bounds.
  assert (0 <= qty_total (equip_frame df) <= qty_total df) as He
    by by apply qty_total_filter_bounds.
  unfold qty_sum.
  rewrite (wrap64_small (qty_total (auto_frame df))) by lia.
  rewrite (wrap64_small (qty_total (equip_frame df))) by lia. lia.
Qed.

Lemma category_split_conserves_witness :
  fits_int64 [one_kamaz; two_trailers; five_zil] /\
  summarize_region_categories [one_kamaz; two_trailers; five_zil] = (6, 2, 8) /\
  snd (summarize_region_categories [one_kamaz; two_trailers; five_zil])
    = qty_total [one_kamaz; two_trailers; five_zil].
Proof.
  assert (fits_int64 [one_kamaz; two_trailers; five_zil]) as H.
  { split; [|vm_compute; reflexivity]. repeat constructor; vm_compute; discriminate. }
  split; [exact H|]. split; [vm_compute; reflexivity|].
  exact (proj1 (proj2 (proj2 (proj2 (proj2
    (category_split_conserves [one_kamaz; two_trailers; five_zil])))) H)).
Defined.

(** ** Row pipeline: the records of a source *)

Lemma lstrip_head (s : str) :
  lstrip s = [] \/ exists c t, lstrip s = c :: t /\ is_space c = false.
Proof.
  induction s as [|c s IH]; simpl; [by left|].
  destruct (is_space c) eqn:Hc; [done|]. right. by exists c, s.
Qed.

Lemma lstrip_idem (s : str) : lstrip (lstrip s) = lstrip s.
Proof.
  destruct (lstrip_head s) as [->|(c & t & -> & Hc)]; [done|]. simpl. by rewrite Hc.
Qed.

Lemma rstrip_cons_nonspace (c : Z) (t : str) :
  is_space c = false -> rstrip (c :: t) = c :: rstrip t.
Proof. intros Hc. exact (rstrip_app_nonspace [] t c Hc). Qed.

Lemma rstrip_idem (s : str) : rstrip (rstrip s) = rstrip s.
Proof. unfold rstrip. rewrite rev_involutive. by rewrite lstrip_idem. Qed.

Lemma strip_idem (s : str) : strip (strip s) = strip s.
Proof.
  unfold strip.
  destruct (lstrip_head s) as [->|(c & t & -> & Hc)]; [done|].
  rewrite (rstrip_cons_nonspace c t Hc). cbn [lstrip]. rewrite Hc.
  rewrite (rstrip_cons_nonspace c (rstrip t) Hc). by rewrite rstrip_idem.
Qed.

Lemma normalize_status_range (status : str) :
  In (normalize_status status) [Operational; NonOperational; NeedsRepair; Unknown].
Proof.
  assert (In Unknown [Operational; NonOperational; NeedsRepair; Unknown]) as HU
    by (right; right; right; left; reflexivity).
  unfold normalize_status.
  destruct (str_eqb (strip status) []); [exact HU|].
  generalize (normalize_text status). intros s. unfold classify_status.
  destruct (any_in icons_ok s); [left; reflexivity|].
  destruct (any_in icons_bad s); [right; left; reflexivity|].
  destruct (any_in icons_repair s); [right; right; left; reflexivity|].
  destruct (is_operational s); [left; reflexivity|].
  destruct (is_non_operational s); [right; left; reflexivity|].
  destruct (is_repair s); [right; right; left; reflexivity | exact HU].
Qed.

Lemma row_status_range (columns : list str) (status_col : option str) (row : list cell) :
  In (row_status columns status_col row)
     [Operational; NonOperational; NeedsRepair; Unknown].
Proof.
  assert (In Unknown [Operational; NonOperational; NeedsRepair; Unknown]) as HU
    by (right; right; right; left; reflexivity).
  unfold row_status. destruct status_col as [c|]; [|exact HU].
  destruct (truthy (Some c)); [|exact HU].
  destruct (get_cell columns row c); try exact HU. apply normalize_status_range.
Qed.

Lemma row_district_shape (E : env) (region : str) (columns : list str)
    (region_col : option str) (row : list cell) :
  row_district E region columns region_col row = region \/
  (row_district E region columns region_col row <> [] /\
   strip (row_district E region columns region_col row)
   = row_district E region columns region_col row).
Proof.
  unfold row_district. destruct region_col as [c|]; [|by left].
  destruct (truthy (Some c)); [|by left].
  destruct (_ || str_eqb (strip (py_str E (get_cell columns row c))) []) eqn:Hb; [by left|].
  right. apply orb_false_iff in Hb. destruct Hb as [_ Hb]. split.
  - intros He. rewrite He in Hb.
    assert (str_eqb [] [] = true) by by apply str_eqb_spec. congruence.
  - apply strip_idem.
Qed.

Lemma row_record_canonical (E : env) (region : str) (columns : list str)
    (sc tc rc qc kc : option str) (t : str) (row : list cell) (r : record) :
  row_record E region columns sc tc rc qc kc t row = RowKept r -> canonical region r.
Proof.
  unfold row_record. destruct (row_qty E columns qc row) as [q|] eqn:Hq; [|done].
  cbv zeta. destruct (row_type _ t _) as [[|c s]|]; try done.
  intros [= <-]. unfold canonical. simpl.
  split; [done|]. split; [done|]. split; [apply row_status_range|].
  split; [by apply row_qty_pos in Hq | apply row_district_shape].
Qed.

Lemma collect_rows_length (rs : list row_result) (df : DataFrame) :
  collect_rows rs = Some df -> (length df <= length rs)%nat.
Proof.
  revert df; induction rs as [|res rs IH]; intros df; simpl.
  - by intros [= <-].
  - destruct res as [| |r0]; [done | |].
    + intros H. apply IH in H. lia.
    + destruct (collect_rows rs) as [df0|]; simpl; [|done].
      intros [= <-]. specialize (IH _ eq_refl). simpl. lia.
Qed.

Lemma process_canonical (E : env) (region : str) (ws : worksheet) (r : record) :
  In r (frame_or_empty (process E region ws)) -> canonical region r.
Proof.
  unfold process. destruct (header ws) as [|h hs]; [done|].
  destruct (body ws) as [|b bs]; [done|]. unambiguous.
  destruct (collect_rows _) as [df0|] eqn:Hc; [|done].
  destruct (truthy (find_column _ TYPE_ALIASES)); [|done]. simpl. intros Hr.
  apply (collect_rows_In _ _ _ Hc) in Hr. apply in_map_iff in Hr.
  destruct Hr as (row & Hrow & _). by apply row_record_canonical in Hrow.
Qed.

Lemma process_length (E : env) (region : str) (ws : worksheet) :
  (length (frame_or_empty (process E region ws)) <= length (body ws))%nat.
Proof.
  unfold process. destruct (header ws) as [|h hs]; [simpl; lia|].
  destruct (body ws) as [|b bs] eqn:Hb; [simpl; lia|]. unambiguous.
  destruct (collect_rows _) as [df0|] eqn:Hc; [|simpl; lia].
  apply collect_rows_length in Hc. rewrite length_map in Hc.
  unfold unify_columns in Hc. rewrite length_map in Hc.
  destruct (truthy (find_column _ TYPE_ALIASES)); simpl in *; lia.
Qed.

Lemma load_single_region_sync_canonical (E : env) (n : nat) (region : str)
    (sheet_id : option str) (r : record) :
  In r (snd (fst (load_single_region_sync E n (region, sheet_id)))) ->
  canonical region r.
Proof.
  unfold load_single_region_sync.
  destruct (truthy sheet_id); [|done].
  destruct (gc_open E n _) as [ws|msg]; simpl; [apply process_canonical|].
  destruct (str_in _ msg); [|done].
  destruct (gc_open E (S n) _) as [ws|msg']; simpl; [apply process_canonical | done].
Qed.

Lemma load_single_region_sync_name (E : env) (n : nat) (rs : str * option str) :
  fst (fst (load_single_region_sync E n rs)) = fst rs.
Proof.
  unfold load_single_region_sync. destruct rs as [region sheet_id].
  destruct (truthy sheet_id); [|done].
  destruct (gc_open E n _) as [ws|msg]; [done|].
  destruct (str_in _ msg); [|done].
  by destruct (gc_open E (S n) _).
Qed.

Lemma gather_results (E : env) (regions : list (str * option str)) (w : world)
    (res : str * DataFrame) :
  In (Some res) (fst (gather E w regions)) ->
  exists n rs, In rs regions /\ res = fst (load_single_region_sync E n rs).
Proof.
  revert w; induction regions as [|rs regions IH]; intros w; simpl; [done|].
  destruct (load_single_region_async E w rs) as [r w1] eqn:H1.
  destruct (gather E w1 regions) as [results w2] eqn:H2. simpl.
  intros [Hr|Hr].
  - subst r. unfold load_single_region_async in H1.
    destruct (task_fails E (tasks w)); [done|].
    destruct (load_single_region_sync E (api_calls w) rs) as [r' n'] eqn:Hl.
    injection H1 as H1 _. exists (api_calls w), rs. rewrite Hl. auto.
  - destruct (IH w1) as (n & rs' & ? & ?); [by rewrite H2|]. exists n, rs'. auto.
Qed.

Lemma nonempty_parts_concat (results : list (option (str * DataFrame))) :
  concat (nonempty_parts results) = concat (map result_frame results).
Proof.
  induction results as [|res results IH]; simpl; [done|].
  destruct res as [[name [|r0 df]]|]; simpl; congruence.
Qed.

Lemma load_all_regions_async_concat (E : env) (w : world) :
  fst (load_all_regions_async E w)
  = concat (map result_frame (fst (gather E w (configured E)))).
Proof.
  unfold load_all_regions_async, configured.
  destruct (List.filter _ (REGION_SHEETS E)) as [|rs0 regions]; [done|].
  destruct (gather E w (rs0 :: regions)) as [results w'] eqn:Hg. simpl.
  rewrite <- nonempty_parts_concat. by destruct (nonempty_parts results).
Qed.

Lemma load_all_records (E : env) (w : world) (r : record) :
  In r (fst (load_all_regions_async E w)) ->
  exists region sheet_id,
    In (region, sheet_id) (configured E) /\ canonical region r.
Proof.
  rewrite load_all_regions_async_concat. intros Hr.
  apply in_concat in Hr. destruct Hr as (part & Hpart & Hr).
  apply in_map_iff in Hpart. destruct Hpart as ([[name df]|] & <- & Hres); [|done].
  apply gather_results in Hres. destruct Hres as (n & [region sheet_id] & Hrs & Hl).
  exists region, sheet_id. split; [done|].
  apply (load_single_region_sync_canonical E n region sheet_id).
  rewrite <- Hl. exact Hr.
Qed.

(** X10: every record the loader returns for a source is canonical: it
    carries the name of that source, a type label that is not empty, one
    of the four status labels, a quantity of at least 1, and as district
    either the name of the source or a text that is not empty and has no
    surrounding whitespace; a sheet gives at most one record per row; and
    every record of the combined frame is a canonical record of one of
    the configured sources. *)
Theorem loader_records_canonical (E : env) :
  (forall n region sheet_id r,
     In r (snd (fst (load_single_region_sync E n (region, sheet_id)))) ->
     canonical region r) /\
  (forall region ws,
     (length (frame_or_empty (process E region ws)) <= length (body ws))%nat) /\
  (forall w r,
     In r (fst (load_all_regions_async E w)) ->
     exists region sheet_id,
       In (region, sheet_id) (configured E) /\ canonical region r).
Proof.
  split; [apply load_single_region_sync_canonical|].
  split; [apply process_length | apply load_all_records].
Qed.

Lemma loader_records_canonical_witness :
  In demo_record (snd (fst (load_single_region_sync demo_env 0 demo_source))) /\
  canonical (u "Андижон") demo_record /\
  In demo_record (fst (load_all_regions_async demo_env start_world)) /\
  exists region sheet_id,
    In (region, sheet_id) (configured demo_env) /\ canonical region demo_record.
Proof.
  assert (In demo_record (snd (fst (load_single_region_sync demo_env 0 demo_source)))) as H1
    by (vm_compute; left; reflexivity).
  assert (In demo_record (fst (load_all_regions_async demo_env start_world))) as H2
    by (vm_compute; left; reflexivity).
  destruct (loader_records_canonical demo_env) as (T1 & _ & T3).
  split; [exact H1|].
  split; [exact (T1 0%nat (u "Андижон") (Some (u "sheet-1")) demo_record H1)|].
  split; [exact H2|]. exact (T3 start_world demo_record H2).
Defined.


(** ** Region counts *)

Lemma table_get_groups (g : str -> Z) (ks : list str) (k : str) :
  (In k ks -> table_get k (map (fun k => (k, g k)) ks) = Some (g k)) /\
  (~ In k ks -> table_get k (map (fun k => (k, g k)) ks) = None).
Proof.
  induction ks as [|k0 ks [IH1 IH2]]; simpl; [by split|].
  destruct (str_eqb k k0) eqn:He.
  - apply str_eqb_spec in He. subst k0. split; [done|]. intros Hn. destruct Hn. by left.
  - split.
    + intros [->|Hin]; [|by apply IH1].
      assert (str_eqb k k = true) by by apply str_eqb_spec. congruence.
    + intros Hn. apply IH2. intros H. apply Hn. by right.
Qed.

Lemma group_total_absent (key : record -> str) (df : DataFrame) (k : str) :
  ~ In k (map key df) -> group_total key df k = 0.
Proof.
  unfold group_total. induction df as [|r df IH]; simpl; [done|]. intros Hn.
  destruct (str_eqb (key r) k) eqn:He.
  - apply str_eqb_spec in He. destruct Hn. by left.
  - apply IH. intros H. apply Hn. by right.
Qed.

Lemma get_region_counts_totals (E : env) (df : DataFrame) :
  get_region_counts E df
  = map (fun region => (region, group_total region_name df region))
        (map fst (REGION_SHEETS E)).
Proof.
  unfold get_region_counts. destruct df as [|r0 df]; [done|].
  apply map_ext. intros region. f_equal.
  unfold groupby_sum.
  destruct (table_get_groups (group_total region_name (r0 :: df))
              (sorted_keys (map region_name (r0 :: df))) region) as [H1 H2].
  destruct (decide (region ∈ map region_name (r0 :: df))) as [Hin|Hn];
    rewrite list_elem_of_In in *.
  - rewrite H1; [done|]. by apply In_sorted_keys.
  - rewrite H2.
    + cbn [default]. symmetry. by apply group_total_absent.
    + intros H. apply Hn. by apply (proj1 (In_sorted_keys _ _)).
Qed.

Lemma region_names_NoDup (E : env) : NoDup (map fst (REGION_SHEETS E)).
Proof.
  assert (bool_decide (NoDup (map fst (REGION_SHEETS E))) = true) as H
    by (vm_compute; reflexivity).
  by apply bool_decide_eq_true in H.
Qed.

(** X11: [get_region_counts] gives each configured region, in the
    order of the configuration, the total of the records that carry its
    name, and 0 when there is none; for the combined frame of a load the
    counts add up to the sum of the quantity column (as int64 values). *)
Theorem get_region_counts_spec (E : env) :
  (forall df,
     get_region_counts E df
     = map (fun region => (region, group_total region_name df region))
           (map fst (REGION_SHEETS E))) /\
  (forall w,
     wrap64 (sum_totals (get_region_counts E (fst (load_all_regions_async E w))))
     = qty_sum (fst (load_all_regions_async E w))).
Proof.
  split; [apply get_region_counts_totals|].
  intros w. rewrite get_region_counts_totals, sum_totals_groups.
  apply group_totals_conserve; [apply region_names_NoDup|].
  intros r Hr. apply load_all_records in Hr.
  destruct Hr as (region & sheet_id & Hin & Hc & _). rewrite Hc.
  unfold configured in Hin. apply filter_In in Hin. destruct Hin as [Hin _].
  by apply (in_map fst) in Hin.
Qed.

(** ** The budget of service calls *)

Lemma load_single_region_sync_calls (E : env) (n : nat) (rs : str * option str) :
  (n <= snd (load_single_region_sync E n rs) <= n + 2)%nat.
Proof.
  unfold load_single_region_sync. destruct rs as [region sheet_id].
  destruct (truthy sheet_id); [|simpl; lia].
  destruct (gc_open E n _) as [ws|msg]; [simpl; lia|].
  destruct (str_in _ msg); [|simpl; lia].
  destruct (gc_open E (S n) _); simpl; lia.
Qed.

Lemma load_single_region_async_calls (E : env) (w : world) (rs : str * option str) :
  tasks (snd (load_single_region_async E w rs)) = S (tasks w) /\
  (api_calls w <= api_calls (snd (load_single_region_async E w rs)) <= api_calls w + 2)%nat.
Proof.
  unfold load_single_region_async. destruct (task_fails E (tasks w)); [simpl; lia|].
  pose proof (load_single_region_sync_calls E (api_calls w) rs) as H.
  destruct (load_single_region_sync E (api_calls w) rs) as [r n]. simpl in *. lia.
Qed.

Lemma gather_calls (E : env) (regions : list (str * option str)) (w : world) :
  length (fst (gather E w regions)) = length regions /\
  tasks (snd (gather E w regions)) = (tasks w + length regions)%nat /\
  (api_calls w <= api_calls (snd (gather E w regions))
   <= api_calls w + 2 * length regions)%nat.
Proof.
  revert w; induction regions as [|rs regions IH]; intros w; simpl; [lia|].
  pose proof (load_single_region_async_calls E w rs) as H1.
  destruct (load_single_region_async E w rs) as [r w1].
  specialize (IH w1). destruct (gather E w1 regions) as [results w2].
  simpl in *. lia.
Qed.

Lemma load_all_regions_async_calls (E : env) (w : world) :
  tasks (snd (load_all_regions_async E w)) = (tasks w + length (configured E))%nat /\
  (api_calls w <= api_calls (snd (load_all_regions_async E w))
   <= api_calls w + 2 * length (configured E))%nat.
Proof.
  unfold load_all_regions_async, configured.
  destruct (List.filter _ (REGION_SHEETS E)) as [|rs0 regions]; [simpl; lia|].
  pose proof (gather_calls E (rs0 :: regions) w) as H.
  destruct (gather E w (rs0 :: regions)) as [results w'].
  destruct (nonempty_parts results); simpl in *; lia.
Qed.

Lemma configured_length (E : env) : (length (configured E) <= 18)%nat.
Proof.
  unfold configured.
  etransitivity; [apply filter_length_le|]. reflexivity.
Qed.

Lemma fetch_frame_calls (E : env) (w : world) (region : option str) :
  (api_calls w <= api_calls (snd (fetch_frame E w region)) <= api_calls w + 36)%nat.
Proof.
  unfold fetch_frame.
  destruct (truthy region && negb (str_eqb (default [] region) ALL)).
  - pose proof (load_single_region_async_calls E w
                  (default [] region, sheets_get (default [] region) (REGION_SHEETS E))) as H.
    destruct (load_single_region_async E w _) as [r w']. simpl in *. lia.
  - pose proof (load_all_regions_async_calls E w) as H.
    pose proof (configured_length E) as Hc.
    destruct (load_all_regions_async E w) as [df w']. simpl in *. lia.
Qed.

(** X12: the calls made to the spreadsheet service are bounded: a load
    of one source makes at most two (the call and one retry), a load of
    all sources starts one task per configured source and makes at most
    two calls for each, and one call of [get_df_async] makes at most 36
    calls and never takes one back. *)
Theorem service_call_budget (E : env) :
  (forall n rs, (n <= snd (load_single_region_sync E n rs) <= n + 2)%nat) /\
  (forall w,
     tasks (snd (load_all_regions_async E w)) = (tasks w + length (configured E))%nat /\
     (api_calls w <= api_calls (snd (load_all_regions_async E w))
      <= api_calls w + 2 * length (configured E))%nat) /\
  (length (configured E) <= 18)%nat /\
  (forall st now region force,
     (api_calls (outside st)
      <= api_calls (outside (snd (get_df_async E st now region force)))
      <= api_calls (outside st) + 36)%nat).
Proof.
  split; [apply load_single_region_sync_calls|].
  split; [apply load_all_regions_async_calls|].
  split; [apply configured_length|].
  intros st now region force. unfold get_df_async.
  destruct (if force then None else fresh_entry _ _ _); [simpl; lia|].
  pose proof (fetch_frame_calls E (outside st) region) as H.
  destruct (fetch_frame E (outside st) region) as [[df|] w]; simpl in *; [lia|].
  destruct (CACHE st !! cache_key region) as [[df e]|]; simpl; lia.
Qed.

(** ** Cache: keys, expiry, clearing *)

(** X13: a call of [get_df_async] touches the entry of its own key
    only: every other key keeps its entry, and the entry of the key is
    either left as it was or replaced by the returned frame with expiry
    [now + CACHE_TTL]. *)
Theorem get_df_async_other_keys (E : env) (st : state) (now : Z)
    (region : option str) (force : bool) :
  (forall k, k <> cache_key region ->
     CACHE (snd (get_df_async E st now region force)) !! k = CACHE st !! k) /\
  (CACHE (snd (get_df_async E st now region force)) !! cache_key region
     = CACHE st !! cache_key region \/
   CACHE (snd (get_df_async E st now region force)) !! cache_key region
     = Some (fst (get_df_async E st now region force), now + CACHE_TTL)).
Proof.
  unfold get_df_async.
  destruct (if force then None else fresh_entry _ _ _); [by split; [|left]|].
  destruct (fetch_frame E (outside st) region) as [[df|] w]; simpl.
  - split; [|right; apply lookup_insert_eq].
    intros k Hk. by apply lookup_insert_ne.
  - destruct (CACHE st !! cache_key region) as [[df e]|] eqn:Hl; simpl;
      (split; [intros k Hk; reflexivity | left; congruence]).
Qed.

Lemma get_df_async_other_keys_witness :
  u "Бухоро" <> cache_key (Some (u "Андижон")) /\
  CACHE (snd (get_df_async demo_env stale_state 10 (Some (u "Андижон")) false))
    !! u "Бухоро"
  = CACHE stale_state !! u "Бухоро".
Proof.
  assert (u "Бухоро" <> cache_key (Some (u "Андижон"))) as H
    by (vm_compute; discriminate).
  split; [exact H|].
  exact (proj1 (get_df_async_other_keys demo_env stale_state 10
                  (Some (u "Андижон")) false) (u "Бухоро") H).
Defined.

Lemma get_df_async_miss_fetches (E : env) (st : state) (now : Z)
    (region : option str) (force : bool) :
  (if force then None else fresh_entry (CACHE st) (cache_key region) now) = None ->
  fetches (snd (get_df_async E st now region force)) = S (fetches st).
Proof.
  intros Hm. unfold get_df_async. rewrite Hm.
  destruct (fetch_frame E (outside st) region) as [[df|] w]; [done|].
  by destruct (CACHE st !! cache_key region) as [[df e]|].
Qed.

Lemma fresh_entry_expired (cache : gmap str (DataFrame * Z)) (key : str)
    (df : DataFrame) (expiry now : Z) :
  cache !! key = Some (df, expiry) -> expiry <= now ->
  fresh_entry cache key now = None.
Proof.
  intros Hl Hle. unfold fresh_entry. rewrite Hl.
  destruct (now <? expiry) eqn:H; [|done]. apply Z.ltb_lt in H. lia.
Qed.

(** X14: an entry is served strictly before its expiry and no longer:
    a call at or after the expiry goes to the loaders again, a forced
    call goes to the loaders whatever the entry, and after
    [CACHE.clear()] every call does. *)
Theorem get_df_async_refetches (E : env) (st : state) (now : Z) (region : option str) :
  (forall df expiry,
     CACHE st !! cache_key region = Some (df, expiry) -> expiry <= now ->
     fetches (snd (get_df_async E st now region false)) = S (fetches st)) /\
  fetches (snd (get_df_async E st now region true)) = S (fetches st) /\
  (forall force,
     fetches (snd (get_df_async E (clear_cache st) now region force)) = S (fetches st)) /\
  (forall df w now2,
     fetch_frame E (outside st) region = (Some df, w) ->
     now + CACHE_TTL <= now2 ->
     fetches (snd (get_df_async E (snd (get_df_async E st now region true)) now2
                     region false))
     = S (S (fetches st))).
Proof.
  split.
  { intros df expiry Hl Hle. apply get_df_async_miss_fetches.
    by apply (fresh_entry_expired _ _ df expiry). }
  split; [by apply get_df_async_miss_fetches|].
  split.
  { intros force. apply (get_df_async_miss_fetches E (clear_cache st)).
    destruct force; [done|]. unfold fresh_entry, clear_cache. simpl.
    by rewrite lookup_empty. }
  intros df w now2 Hf Hle.
  rewrite (get_df_async_fetched E st now region true df w eq_refl Hf). simpl.
  rewrite get_df_async_miss_fetches; [done|]. simpl.
  apply (fresh_entry_expired _ _ df (now + CACHE_TTL)); [apply lookup_insert_eq | done].
Qed.

Lemma get_df_async_refetches_witness :
  CACHE stale_state !! cache_key (Some (u "Андижон")) = Some ([demo_record], 5) /\
  fetches (snd (get_df_async demo_env stale_state 5 (Some (u "Андижон")) false)) = 1%nat /\
  fetches (snd (get_df_async demo_env
                  (snd (get_df_async demo_env empty_state 0 (Some (u "Андижон")) true))
                  CACHE_TTL (Some (u "Андижон")) false)) = 2%nat.
Proof.
  assert (CACHE stale_state !! cache_key (Some (u "Андижон")) = Some ([demo_record], 5))
    as H by (vm_compute; reflexivity).
  split; [exact H|]. split.
  - exact (proj1 (get_df_async_refetches demo_env stale_state 5 (Some (u "Андижон")))
             [demo_record] 5 H ltac:(lia)).
  - apply (proj2 (proj2 (proj2
             (get_df_async_refetches demo_env empty_state 0 (Some (u "Андижон")))))
             (snd (fst (load_single_region_sync demo_env 0 demo_source)))
             {| api_calls := 1; tasks := 1 |}).
    + vm_compute. reflexivity.
    + reflexivity.
Defined.

(** X15: a named region that has no sheet id (it is not a key of
    [REGION_SHEETS], or its variable is unset or empty) is answered
    with an empty frame without any call to the service, and the empty
    frame is cached under the name of the region. *)
Theorem get_df_async_without_sheet (E : env) (st : state) (now : Z)
    (region : str) (force : bool) :
  region <> [] -> region <> ALL ->
  truthy (sheets_get region (REGION_SHEETS E)) = false ->
  task_fails E (tasks (outside st)) = false ->
  (if force then None else fresh_entry (CACHE st) region now) = None ->
  fst (get_df_async E st now (Some region) force) = [] /\
  api_calls (outside (snd (get_df_async E st now (Some region) force)))
    = api_calls (outside st) /\
  CACHE (snd (get_df_async E st now (Some region) force)) !! region
    = Some ([], now + CACHE_TTL).
Proof.
  intros Hne Hall Hs Ht Hm.
  assert (cache_key (Some region) = region) as Hk by (by destruct region).
  assert (fetch_frame E (outside st) (Some region)
          = (Some [], {| api_calls := api_calls (outside st);
                         tasks := S (tasks (outside st)) |})) as Hf.
  { assert (truthy (Some region) = true) as Hr by (by destruct region).
    assert (str_eqb region ALL = false) as He.
    { destruct (str_eqb region ALL) eqn:He; [|done]. by apply str_eqb_spec in He. }
    unfold fetch_frame. change (default [] (Some region)) with region.
    rewrite Hr, He. cbn [negb andb].
    unfold load_single_region_async. rewrite Ht.
    unfold load_single_region_sync. by rewrite Hs. }
  rewrite (get_df_async_fetched E st now (Some region) force [] _
             ltac:(by rewrite Hk) Hf).
  simpl. rewrite Hk. split; [done|]. split; [done|]. apply lookup_insert_eq.
Qed.

Lemma get_df_async_without_sheet_witness :
  fst (get_df_async one_sheet_env empty_state 0 (Some (u "Марс")) false) = [] /\
  api_calls (outside (snd (get_df_async one_sheet_env empty_state 0 (Some (u "Марс")) false)))
    = 0%nat /\
  CACHE (snd (get_df_async one_sheet_env empty_state 0 (Some (u "Марс")) false)) !! u "Марс"
    = Some ([], 0 + CACHE_TTL).
Proof.
  apply (get_df_async_without_sheet one_sheet_env empty_state 0 (u "Марс") false).
  - vm_compute. discriminate.
  - vm_compute. discriminate.
  - vm_compute. reflexivity.
  - reflexivity.
  - vm_compute. reflexivity.
Defined.

(** ** Escaping of texts put into HTML messages *)

Lemma html_escape_app (a b : str) :
  html_escape (a ++ b) = html_escape a ++ html_escape b.
Proof. unfold html_escape, replace_char. by rewrite !flat_map_app. Qed.

Lemma entity_cases (c : Z) :
  (c = 38 /\ entity c = [38; 97; 109; 112; 59]) \/
  (c = 60 /\ entity c = [38; 108; 116; 59]) \/
  (c = 62 /\ entity c = [38; 103; 116; 59]) \/
  (c = 34 /\ entity c = [38; 113; 117; 111; 116; 59]) \/
  (c = 39 /\ entity c = [38; 35; 120; 50; 55; 59]) \/
  ((c <> 38 /\ c <> 60 /\ c <> 62 /\ c <> 34 /\ c <> 39) /\ entity c = [c]).
Proof.
  unfold entity.
  destruct (Z.eqb_spec c 38) as [->|H1]; [left; by split|right].
  destruct (Z.eqb_spec c 60) as [->|H2]; [left; by split|right].
  destruct (Z.eqb_spec c 62) as [->|H3]; [left; by split|right].
  destruct (Z.eqb_spec c 34) as [->|H4]; [left; by split|right].
  destruct (Z.eqb_spec c 39) as [->|H5]; [left; by split|right].
  done.
Qed.

Lemma html_escape_char (c : Z) : html_escape [c] = entity c.
Proof.
  destruct (entity_cases c) as
    [[-> ->]|[[-> ->]|[[-> ->]|[[-> ->]|[[-> ->]|[(H1 & H2 & H3 & H4 & H5) ->]]]]]];
    try (vm_compute; reflexivity).
  unfold html_escape, replace_char. cbn [flat_map app].
  apply Z.eqb_neq in H1, H2, H3, H4, H5.
  rewrite H1. cbn [flat_map app]. rewrite H2. cbn [flat_map app].
  rewrite H3. cbn [flat_map app]. rewrite H4. cbn [flat_map app].
  by rewrite H5.
Qed.

(** The five replacements amount to one pass that puts the entity of
    each character: nothing is escaped twice. *)
Lemma esc_one_pass (s : str) : esc s = flat_map entity s.
Proof.
  unfold esc. induction s as [|c s IH]; [done|].
  change (c :: s) with ([c] ++ s).
  by rewrite html_escape_app, html_escape_char, IH.
Qed.

Lemma entities_injective (a b : str) :
  flat_map entity a = flat_map entity b -> a = b.
Proof.
  revert b. induction a as [|x a IH]; intros [|y b] H.
  - done.
  - exfalso. cbn [flat_map] in H.
    destruct (entity_cases y) as
      [[_ Hy]|[[_ Hy]|[[_ Hy]|[[_ Hy]|[[_ Hy]|[_ Hy]]]]]]; rewrite Hy in H; discriminate.
  - exfalso. cbn [flat_map] in H.
    destruct (entity_cases x) as
      [[_ Hx]|[[_ Hx]|[[_ Hx]|[[_ Hx]|[[_ Hx]|[_ Hx]]]]]]; rewrite Hx in H; discriminate.
  - cbn [flat_map] in H.
    destruct (entity_cases x) as
      [[-> Hx]|[[-> Hx]|[[-> Hx]|[[-> Hx]|[[-> Hx]|[Nx Hx]]]]]];
    destruct (entity_cases y) as
      [[-> Hy]|[[-> Hy]|[[-> Hy]|[[-> Hy]|[[-> Hy]|[Ny Hy]]]]]];
    rewrite ?Hx, ?Hy in H; cbn [app] in H;
    try discriminate;
    try (injection H as H; f_equal; by apply IH);
    try (injection H as Hc H; exfalso; lia);
    try (injection H as Hc H; subst; f_equal; by apply IH).
Qed.

(** X16: [esc] leaves no character in a text that HTML reads as markup
    ([<], [>], a quote), it works piece by piece, it changes nothing in
    a text without those characters and without ampersand, and the
    escaped text determines the original. *)
Theorem esc_is_safe :
  (forall s c, In c (esc s) -> ~ In c markup_chars) /\
  (forall a b, esc (a ++ b) = esc a ++ esc b) /\
  (forall s, (forall c, In c s -> c <> 38 /\ ~ In c markup_chars) -> esc s = s) /\
  (forall a b, esc a = esc b -> a = b).
Proof.
  split; [|split; [|split]].
  - intros s c. rewrite esc_one_pass. intros Hin.
    apply in_flat_map in Hin as (x & _ & Hin).
    destruct (entity_cases x) as
      [[_ Hx]|[[_ Hx]|[[_ Hx]|[[_ Hx]|[[_ Hx]|[(H1 & H2 & H3 & H4 & H5) Hx]]]]]];
      rewrite Hx in Hin; unfold markup_chars; cbn [In] in *; lia.
  - apply html_escape_app.
  - intros s Hs. rewrite esc_one_pass.
    induction s as [|c s IH]; [done|]. cbn [flat_map].
    rewrite IH by (intros c' Hc'; apply Hs; by right).
    destruct (Hs c (or_introl eq_refl)) as [H38 Hm].
    unfold markup_chars in Hm. cbn [In] in Hm.
    destruct (entity_cases c) as
      [[Hc _]|[[Hc _]|[[Hc _]|[[Hc _]|[[Hc _]|[_ Hx]]]]]];
      [exfalso; lia..|by rewrite Hx].
  - intros a b. rewrite !esc_one_pass. apply entities_injective.
Qed.

Lemma esc_is_safe_witness :
  In 38 (esc (u "<b>")) /\ ~ In 38 markup_chars /\
  esc (u "a-b") = u "a-b" /\
  (esc (u "R&D") = esc (u "R&D") -> u "R&D" = u "R&D").
Proof.
  split; [vm_compute; by left|].
  split; [exact (proj1 esc_is_safe (u "<b>") 38 ltac:(vm_compute; by left))|].
  split.
  - apply (proj1 (proj2 (proj2 esc_is_safe)) (u "a-b")).
    intros c Hc. vm_compute in Hc.
    destruct Hc as [<-|[<-|[<-|[]]]]; (split; [lia|]);
      unfold markup_chars; cbn [In]; lia.
  - apply (proj2 (proj2 (proj2 esc_is_safe))).
Defined.

(** ** Long messages *)

Lemma message_parts_nil (size : nat) : message_parts size [] = [].
Proof.
  unfold message_parts, range_step. cbn [length].
  destruct size as [|n]; [done|].
  replace ((0 + S n - 1) / S n)%nat with 0%nat; [done|].
  symmetry. apply Nat.div_small. lia.
Qed.

Lemma message_parts_step (size : nat) (text : str) :
  (0 < size)%nat -> text <> [] ->
  message_parts size text = take size text :: message_parts size (drop size text).
Proof.
  intros Hs Hne. unfold message_parts, range_step.
  assert (0 < length text)%nat as Hl by (destruct text; [done|simpl; lia]).
  rewrite length_drop.
  assert (((length text + size - 1) / size
           = S ((length text - size + size - 1) / size))%nat) as ->.
  { destruct (Nat.le_gt_cases size (length text)) as [Hge|Hlt].
    - replace (length text + size - 1)%nat
        with ((length text - size + size - 1) + 1 * size)%nat by lia.
      rewrite Nat.div_add by lia. lia.
    - replace (length text - size + size - 1)%nat with (size - 1)%nat by lia.
      rewrite (Nat.div_small (size - 1)) by lia.
      replace (length text + size - 1)%nat
        with ((length text - 1) + 1 * size)%nat by lia.
      rewrite Nat.div_add by lia. rewrite Nat.div_small by lia; lia. }
  cbn [seq map]. rewrite Nat.mul_0_l, drop_0. f_equal.
  rewrite <- seq_shift, !map_map. apply map_ext. intros k.
  rewrite drop_drop. do 2 f_equal; lia.
Qed.

Lemma message_parts_spec (size : nat) (text : str) :
  (0 < size)%nat ->
  concat (message_parts size text) = text /\
  Forall (fun p => (1 <= length p <= size)%nat) (message_parts size text) /\
  (forall front last, message_parts size text = front ++ [last] ->
     Forall (fun p => length p = size) front).
Proof.
  intros Hs.
  remember (length text) as n eqn:Hn. revert text Hn.
  induction n as [n IH] using lt_wf_ind. intros text Hn.
  destruct text as [|c text].
  { rewrite message_parts_nil. split; [done|]. split; [constructor|].
    intros [|x front] last H; discriminate. }
  rewrite message_parts_step by done.
  set (t := c :: text) in *.
  assert (0 < length t)%nat as Hl by (unfold t; simpl; lia).
  destruct (IH (length (drop size t))) with (text := drop size t)
    as (Hc & Hf & Hfr); [rewrite length_drop; lia|done|].
  split; [|split].
  - cbn [concat]. rewrite Hc. apply take_drop.
  - constructor; [|done]. rewrite length_take. lia.
  - intros [|x front] last H.
    + constructor.
    + injection H as Hx H. constructor; [|by apply (Hfr front last)].
      subst x. rewrite length_take.
      destruct (drop size t) as [|d rest] eqn:Hd.
      * rewrite message_parts_nil in H. by destruct front.
      * assert (0 < length (drop size t))%nat as Hp by (rewrite Hd; simpl; lia).
        rewrite length_drop in Hp. lia.
Qed.

Lemma answer_all_spec (C : chat) (parts : list str) (log : list sent) :
  answer_all C parts = (log, None) -> log = map Answer parts.
Proof.
  revert log. induction parts as [|p parts IH]; intros log H; simpl in H.
  - by injection H as <-.
  - destruct (answer C p); [done|].
    destruct (answer_all C parts) as [l r]. injection H as <- ->.
    simpl. f_equal. by apply IH.
Qed.

Lemma answer_all_accepted (C : chat) (parts : list str) :
  Forall (fun p => answer C p = None) parts ->
  answer_all C parts = (map Answer parts, None).
Proof.
  induction 1 as [|p parts Hp _ IH]; simpl; [done|]. by rewrite Hp, IH.
Qed.

Lemma sent_text_answers (parts : list str) : map sent_text (map Answer parts) = parts.
Proof. rewrite map_map. cbn [sent_text]. apply map_id. Qed.

(** X17: a text is cut into pieces of 4000 characters, the last one
    shorter when the length is no multiple, none empty, which put
    together give the text again. When [safe_edit_message] returns, the
    chat has accepted either the whole text as the edited message, or,
    the first edit having failed with "message is too long", exactly
    these pieces in order: the first as the edited message, the others
    as new messages; whatever was accepted adds up to the text. It does
    return in this way when the chat finds the text too long and accepts
    every piece. *)
Theorem safe_edit_message_delivers (C : chat) (text : str) :
  (concat (message_parts 4000 text) = text /\
   Forall (fun p => (1 <= length p <= 4000)%nat) (message_parts 4000 text) /\
   (forall front last, message_parts 4000 text = front ++ [last] ->
      Forall (fun p => length p = 4000%nat) front)) /\
  (forall log, safe_edit_message C text = (log, None) ->
     concat (map sent_text log) = text /\
     ((edit_text C text = None /\ log = [Edit text]) \/
      (exists e p0 rest,
         edit_text C text = Some e /\
         str_in (u "message is too long") e = true /\
         message_parts 4000 text = p0 :: rest /\
         log = Edit p0 :: map Answer rest))) /\
  (forall e, edit_text C text = Some e ->
     str_in (u "message is too long") e = true ->
     text <> [] ->
     (forall p, In p (message_parts 4000 text) ->
        edit_text C p = None /\ answer C p = None) ->
     exists p0 rest,
       message_parts 4000 text = p0 :: rest /\
       safe_edit_message C text = (Edit p0 :: map Answer rest, None)).
Proof.
  assert (0 < 4000)%nat as Hs by lia.
  pose proof (message_parts_spec 4000 text Hs) as Hp.
  split; [exact Hp|]. destruct Hp as (Hc & Hf & _).
  split.
  - intros log. unfold safe_edit_message.
    destruct (edit_text C text) as [e|].
    2:{ intros [= <-]. split; [simpl; apply app_nil_r | by left]. }
    destruct (str_in _ e) eqn:Hlong; [|done].
    destruct (message_parts 4000 text) as [|p0 rest]; [done|].
    destruct (edit_text C p0); [done|].
    destruct (answer_all C rest) as [l r] eqn:Ha. intros [= <- ->].
    apply answer_all_spec in Ha. subst l. split.
    + cbn [map sent_text]. by rewrite sent_text_answers.
    + right. by exists e, p0, rest.
  - intros e He Hlong Hne Hall. unfold safe_edit_message. rewrite He, Hlong.
    destruct (message_parts 4000 text) as [|p0 rest] eqn:Hm.
    { rewrite message_parts_step in Hm by done. discriminate. }
    destruct (Hall p0 (or_introl eq_refl)) as [-> _].
    rewrite (answer_all_accepted C rest).
    + by exists p0, rest.
    + apply Forall_forall. intros p Hin. apply Hall. right.
      by apply list_elem_of_In.
Qed.

Lemma safe_edit_message_delivers_witness :
  exists p0 rest,
    message_parts 4000 long_text = p0 :: rest /\
    safe_edit_message bounded_chat long_text = (Edit p0 :: map Answer rest, None).
Proof.
  apply (proj2 (proj2 (safe_edit_message_delivers bounded_chat long_text))
           (u "Bad Request: message is too long")).
  - vm_compute. reflexivity.
  - vm_compute. reflexivity.
  - discriminate.
  - assert (forallb (fun p => match edit_text bounded_chat p, answer bounded_chat p with
                              | None, None => true
                              | _, _ => false
                              end) (message_parts 4000 long_text) = true) as H
      by (vm_compute; reflexivity).
    intros p Hin. rewrite forallb_forall in H. specialize (H p Hin).
    cbv beta in H. revert H.
    generalize (edit_text bounded_chat p), (answer bounded_chat p).
    intros [x|] [y|] H; try discriminate H. split; reflexivity.
Defined.

(** ** Rate limit *)

Section RateLimitWindow.
Context {T : Type}.
Variable expired : T -> T -> bool.
Variable limit : Z.
Variable le : T -> T -> Prop.
Hypothesis expired_later :
  forall c c' t, le c c' -> expired c t = true -> expired c' t = true.
Hypothesis expired_earlier :
  forall c t t', le t' t -> expired c t = true -> expired c t' = true.

Lemma pop_expired_split (now : T) (kept : list T) :
  exists gone, kept = gone ++ pop_expired expired now kept /\
    Forall (fun x => expired now x = true) gone.
Proof.
  induction kept as [|t kept IH]; [by exists []|].
  cbn [pop_expired]. destruct (expired now t) eqn:He.
  - destruct IH as (gone & Hg & HF). exists (t :: gone).
    split; [cbn [app]; by f_equal | by constructor].
  - by exists [].
Qed.

Lemma pop_expired_length (now : T) (kept : list T) :
  (length (pop_expired expired now kept) <= length kept)%nat.
Proof.
  destruct (pop_expired_split now kept) as (gone & Hg & _).
  rewrite Hg at 2. rewrite length_app. lia.
Qed.

Lemma pop_expired_filter (now : T) (kept : list T) :
  StronglySorted le kept ->
  pop_expired expired now kept = List.filter (fun t => negb (expired now t)) kept.
Proof.
  induction 1 as [|t kept HS IH HF]; [done|].
  cbn [pop_expired List.filter]. destruct (expired now t) eqn:He; cbn [negb]; [done|].
  f_equal. clear IH HS.
  induction HF as [|r kept Hr HF IH]; [done|].
  cbn [List.filter]. destruct (expired now r) eqn:Hr'; cbn [negb].
  - rewrite (expired_earlier now r t Hr Hr') in He. discriminate.
  - by f_equal.
Qed.

Lemma filter_expired (now : T) (gone : list T) :
  Forall (fun d => expired now d = true) gone ->
  List.filter (fun t => negb (expired now t)) gone = [].
Proof.
  induction 1 as [|d gone Hd _ IH]; [done|].
  cbn [List.filter]. by rewrite Hd.
Qed.

Lemma kept_inv_later (times hist kept : list T) (now : T) :
  kept_inv expired le times hist kept ->
  kept_inv expired le (times ++ [now]) hist kept.
Proof.
  intros (HS & HF & gone & Hh & Hg). split; [done|]. split.
  - eapply Forall_impl; [exact HF|]. intros t Ht. apply elem_of_app. by left.
  - exists gone. split; [done|]. eapply Forall_impl; [exact Hg|].
    intros d (m & Hm & He). exists m. split; [|done]. apply elem_of_app. by left.
Qed.

Lemma kept_inv_pop (times hist kept : list T) (now : T) :
  now ∈ times ->
  kept_inv expired le times hist kept ->
  kept_inv expired le times hist (pop_expired expired now kept).
Proof.
  intros Hnow (HS & HF & gone & Hh & Hg).
  destruct (pop_expired_split now kept) as (popped & Hk & Hp).
  rewrite Hk in HS, HF. split; [by apply StronglySorted_app_1_r in HS|].
  split; [by apply Forall_app in HF as [_ HF]|].
  exists (gone ++ popped). split.
  - by rewrite <- app_assoc, <- Hk.
  - apply Forall_app. split; [done|]. eapply Forall_impl; [exact Hp|].
    intros d Hd. by exists now.
Qed.

Lemma kept_inv_push (times hist kept : list T) (now : T) :
  now ∈ times -> Forall (fun t => le t now) kept ->
  kept_inv expired le times hist kept ->
  kept_inv expired le times (hist ++ [now]) (kept ++ [now]).
Proof.
  intros Hnow Hle (HS & HF & gone & Hh & Hg). split; [|split].
  - apply StronglySorted_app_2; [|done|repeat constructor].
    intros x1 x2 H1 H2. apply list_elem_of_singleton in H2 as ->.
    by apply (proj1 (Forall_forall _ _) Hle).
  - apply Forall_app. split; [done|]. by constructor.
  - exists gone. split; [|done]. by rewrite Hh, app_assoc.
Qed.

Lemma rate_limit_run_snoc (p : list (option Z * T)) (e : option Z * T) :
  rate_limit_run expired limit (p ++ [e])
  = rate_limit_next expired limit (rate_limit_run expired limit p) e.
Proof. unfold rate_limit_run. by rewrite fold_left_app. Qed.

Lemma handled_times_snoc (uid : Z) (p : list (option Z * T)) (flags : list bool)
    (e : option Z * T) (h : bool) :
  length p = length flags ->
  handled_times uid (p ++ [e]) (flags ++ [h])
  = handled_times uid p flags ++ (if handled_by uid (e, h) then [snd e] else []).
Proof.
  intros Hl. unfold handled_times. rewrite zip_with_app by done.
  rewrite List.filter_app, map_app. cbn [zip_with List.filter].
  by destruct (handled_by uid (e, h)).
Qed.

(** After any events at non-decreasing times, the timestamps kept for a
    user are the end of the times at which events of the user reached
    the handler. *)
Lemma rate_limit_run_inv (p : list (option Z * T)) :
  StronglySorted le (map snd p) ->
  length p = length (fst (rate_limit_run expired limit p)) /\
  forall uid,
    kept_inv expired le (map snd p)
      (handled_times uid p (fst (rate_limit_run expired limit p)))
      (default [] (snd (rate_limit_run expired limit p) !! uid)).
Proof.
  induction p as [|[from now] p IH] using rev_ind; intros Hs.
  { split; [done|]. intros uid. unfold rate_limit_run. cbn [fold_left snd fst].
    rewrite lookup_empty. split; [constructor|]. split; [constructor|].
    exists []. split; [done|constructor]. }
  rewrite map_app in Hs. cbn [map snd] in Hs.
  pose proof (StronglySorted_app_1_l _ _ _ Hs) as Hs'.
  destruct (IH Hs') as [Hlen Hinv]. clear IH.
  assert (forall t, t ∈ map snd p -> le t now) as Hle.
  { intros t Ht. apply (StronglySorted_app_1_elem_of _ _ _ _ _ Hs Ht).
    by apply list_elem_of_singleton. }
  assert (now ∈ map snd p ++ [now]) as Hnow
    by (apply elem_of_app; right; by apply list_elem_of_singleton).
  rewrite rate_limit_run_snoc, map_app. cbn [map snd].
  destruct (rate_limit_run expired limit p) as [flags users].
  cbn [fst snd] in *. unfold rate_limit_next. cbn [fst snd].
  destruct from as [v|]; cbn [rate_limit_call].
  2:{ cbn [fst snd]. split; [rewrite !length_app; cbn [length]; lia|].
      intros uid. rewrite handled_times_snoc by done.
      unfold handled_by. cbn [fst snd]. rewrite andb_false_r, app_nil_r.
      by apply kept_inv_later. }
  set (kept := pop_expired expired now (default [] (users !! v))).
  assert (forall hist, kept_inv expired le (map snd p) hist (default [] (users !! v)) ->
            kept_inv expired le (map snd p ++ [now]) hist kept) as Hpop.
  { intros hist H. apply kept_inv_pop; [done|]. by apply kept_inv_later. }
  assert (Forall (fun t => le t now) kept) as Hkle.
  { destruct (Hinv v) as (_ & HF & _).
    destruct (pop_expired_split now (default [] (users !! v))) as (gone & Hk & _).
    fold kept in Hk. rewrite Hk in HF. apply Forall_app in HF as [_ HF].
    eapply Forall_impl; [exact HF|]. intros t Ht. by apply Hle. }
  destruct (limit <=? Z.of_nat (length kept)) eqn:Hlim; cbn [fst snd];
    (split; [rewrite !length_app; cbn [length]; lia|]);
    intros uid; rewrite handled_times_snoc by done;
    unfold handled_by; cbn [fst snd andb];
    (destruct (Z.eqb_spec v uid) as [->|Hne];
     [rewrite lookup_insert_eq | rewrite lookup_insert_ne by done];
     cbn [default from_option id]).
  - rewrite app_nil_r. by apply Hpop.
  - rewrite app_nil_r. by apply kept_inv_later.
  - apply kept_inv_push; [done|done|]. by apply Hpop.
  - rewrite app_nil_r. by apply kept_inv_later.
Qed.

Lemma rate_limit_run_bound (p : list (option Z * T)) (uid : Z) :
  Z.of_nat (length (default [] (snd (rate_limit_run expired limit p) !! uid)))
  <= Z.max 0 limit.
Proof.
  induction p as [|[from now] p IH] using rev_ind.
  { unfold rate_limit_run. cbn [fold_left snd]. rewrite lookup_empty. cbn. lia. }
  rewrite rate_limit_run_snoc.
  destruct (rate_limit_run expired limit p) as [flags users].
  cbn [fst snd] in *. unfold rate_limit_next. cbn [fst snd].
  destruct from as [v|]; cbn [rate_limit_call]; [|done].
  pose proof (pop_expired_length now (default [] (users !! v))) as Hp.
  set (kept := pop_expired expired now (default [] (users !! v))) in *.
  destruct (Z.leb_spec limit (Z.of_nat (length kept))) as [Hl|Hl]; cbn [snd];
    (destruct (Z.eq_dec v uid) as [->|Hne];
     [rewrite lookup_insert_eq | by rewrite lookup_insert_ne by done];
     cbn [default from_option id]).
  - lia.
  - rewrite length_app. cbn [length]. lia.
Qed.

(** X18: the middleware is a sliding window. When the clock never goes
    back, and a timestamp expired at one reading has expired at every
    later one, and with it every earlier timestamp, then an event of a
    user reaches the handler exactly when fewer than [limit] of the
    earlier events of the user that reached the handler are unexpired;
    and whatever the clock does, no more than [limit] timestamps are
    kept for a user. *)
Theorem rate_limit_window (events : list (option Z * T)) (uid : Z) (now : T) :
  StronglySorted le (map snd events ++ [now]) ->
  fst (rate_limit_call expired limit (snd (rate_limit_run expired limit events))
         (Some uid) now)
  = (Z.of_nat (length (List.filter (fun t => negb (expired now t))
                         (handled_times uid events
                            (fst (rate_limit_run expired limit events)))))
     <? limit) /\
  forall v,
    Z.of_nat (length (default [] (snd (rate_limit_run expired limit events) !! v)))
    <= Z.max 0 limit.
Proof.
  intros Hs. split; [|intros v; apply rate_limit_run_bound].
  pose proof (StronglySorted_app_1_l _ _ _ Hs) as Hs'.
  destruct (rate_limit_run_inv events Hs') as [_ Hinv].
  destruct (Hinv uid) as (HS & _ & gone & Hh & Hg). rewrite Hh.
  assert (Forall (fun d => expired now d = true) gone) as Hgone.
  { eapply Forall_impl; [exact Hg|]. intros d (m & Hm & He).
    apply (expired_later m now d); [|done].
    apply (StronglySorted_app_1_elem_of _ _ _ _ _ Hs Hm).
    by apply list_elem_of_singleton. }
  rewrite List.filter_app, (filter_expired now gone Hgone).
  rewrite <- (pop_expired_filter now _ HS).
  cbn [app rate_limit_call]. rewrite Z.ltb_antisym.
  by destruct (limit <=? _).
Qed.

End RateLimitWindow.

Lemma rate_limit_window_witness :
  fst (rate_limit_call expired_us 5 (snd (rate_limit_run expired_us 5 burst))
         (Some 7) 50)
  = (Z.of_nat (length (List.filter (fun t => negb (expired_us 50 t))
                         (handled_times 7 burst
                            (fst (rate_limit_run expired_us 5 burst)))))
     <? 5) /\
  forall v,
    Z.of_nat (length (default [] (snd (rate_limit_run expired_us 5 burst) !! v)))
    <= Z.max 0 5.
Proof.
  apply (rate_limit_window expired_us 5 Z.le).
  - intros c c' t Hle H. unfold expired_us in *. apply Z.ltb_lt in H. apply Z.ltb_lt. lia.
  - intros c t t' Hle H. unfold expired_us in *. apply Z.ltb_lt in H. apply Z.ltb_lt. lia.
  - cbn [burst map snd app]. repeat constructor; lia.
Defined.

(** ** Details by location *)

Lemma dict_put_fresh {V : Type} (k : str) (v : V) (d : list (str * V)) :
  ~ In k (map fst d) -> dict_put k v d = d ++ [(k, v)].
Proof.
  induction d as [|[k' v'] d IH]; cbn [dict_put map fst app In]; [done|].
  intros Hn. destruct (str_eqb k k') eqn:He.
  - apply str_eqb_spec in He. destruct Hn. by left.
  - f_equal. apply IH. intros H. apply Hn. by right.
Qed.

Lemma In_unique (x : str) (l : list str) : In x (unique l) <-> In x l.
Proof.
  induction l as [|y l IH]; cbn [unique In]; [done|].
  rewrite filter_In, IH. split.
  - intros [H|[H _]]; [by left | by right].
  - intros [H|H]; [by left|].
    destruct (str_eqb x y) eqn:He.
    + apply str_eqb_spec in He. left. congruence.
    + right. by split.
Qed.

Lemma NoDup_filter_bool (P : str -> bool) (l : list str) :
  NoDup l -> NoDup (List.filter P l).
Proof.
  induction 1 as [|x l Hx Hl IH]; cbn [List.filter]; [constructor|].
  destruct (P x); [|done]. constructor; [|done].
  intros H. apply Hx. apply list_elem_of_In. apply list_elem_of_In in H.
  by apply filter_In in H as [H _].
Qed.

Lemma unique_NoDup (l : list str) : NoDup (unique l).
Proof.
  induction l as [|x l IH]; cbn [unique]; constructor.
  - intros H. apply list_elem_of_In, filter_In in H as [_ H].
    assert (str_eqb x x = true) as Hx by by apply str_eqb_spec.
    by rewrite Hx in H.
  - by apply NoDup_filter_bool.
Qed.

Lemma fits_int64_filter (P : record -> bool) (df : DataFrame) :
  fits_int64 df -> fits_int64 (List.filter P df).
Proof.
  intros [Hq Ht]. split.
  - apply Forall_forall. intros r Hr. apply list_elem_of_In, filter_In in Hr as [Hr _].
    apply (proj1 (Forall_forall _ _) Hq). by apply list_elem_of_In.
  - pose proof (qty_total_filter_bounds P df Hq). lia.
Qed.

Lemma fits_int64_sum (df : DataFrame) :
  fits_int64 df -> qty_sum df = qty_total df /\ 0 <= qty_total df.
Proof.
  intros [Hq Ht].
  pose proof (qty_total_filter_bounds (fun _ => true) df Hq) as Hb.
  rewrite filter_all in Hb. split; [|lia].
  unfold qty_sum. apply wrap64_small. lia.
Qed.

Lemma sum_over_other (g : str -> Z) (q : Z) (k0 : str) (ks : list str) :
  ~ In k0 ks ->
  sum_over (fun k => if str_eqb k0 k then q + g k else g k) ks = sum_over g ks.
Proof.
  induction ks as [|k ks IH]; cbn [sum_over]; [done|]. intros Hn.
  destruct (str_eqb k0 k) eqn:He.
  - apply str_eqb_spec in He. subst k. destruct Hn. by left.
  - rewrite IH; [done|]. intros H. apply Hn. by right.
Qed.

Lemma sum_over_one (g : str -> Z) (q : Z) (k0 : str) (ks : list str) :
  NoDup ks -> In k0 ks ->
  sum_over (fun k => if str_eqb k0 k then q + g k else g k) ks = q + sum_over g ks.
Proof.
  induction 1 as [|k ks Hk Hnd IH]; [done|]. intros Hin.
  cbn [sum_over]. destruct (str_eqb k0 k) eqn:He.
  - apply str_eqb_spec in He. subst k. rewrite sum_over_other; [lia|].
    intros H. apply Hk. by apply list_elem_of_In.
  - destruct Hin as [->|Hin].
    { assert (str_eqb k0 k0 = true) by by apply str_eqb_spec. congruence. }
    rewrite (IH Hin). lia.
Qed.

(** Rows grouped by a key: the groups of distinct keys that cover the
    frame hold every unit once. *)
Lemma qty_total_groups (key : record -> str) (df : DataFrame) (ks : list str) :
  NoDup ks -> (forall r, In r df -> In (key r) ks) ->
  sum_over (fun k => qty_total (List.filter (fun r => str_eqb (key r) k) df)) ks
  = qty_total df.
Proof.
  intros Hnd. induction df as [|r df IH]; intros Hks.
  - cbn [List.filter]. clear. induction ks as [|k ks IH]; cbn [sum_over]; [done|].
    rewrite IH. done.
  - change (qty_total (r :: df)) with (qty r + qty_total df).
    rewrite <- IH by (intros r' Hr'; apply Hks; by right).
    rewrite <- (sum_over_one _ (qty r) (key r) ks Hnd (Hks r (or_introl eq_refl))).
    clear. induction ks as [|k ks IHk]; cbn [sum_over]; [done|].
    rewrite IHk. f_equal. cbn [List.filter].
    by destruct (str_eqb (key r) k).
Qed.

(** A loop of guarded assignments under keys that are distinct builds
    the table of the entries that pass the guard, in order. *)
Lemma fold_dict_put {V : Type} (keyf : str -> str) (val : str -> V) (keep : str -> bool)
    (ks : list str) (acc : list (str * V)) :
  NoDup (map keyf ks) ->
  (forall k, In k ks -> ~ In (keyf k) (map fst acc)) ->
  fold_left (fun d x => if keep x then dict_put (keyf x) (val x) d else d) ks acc
  = acc ++ map (fun x => (keyf x, val x)) (List.filter keep ks).
Proof.
  revert acc. induction ks as [|k ks IH]; intros acc Hnd Hacc.
  { cbn [fold_left List.filter map]. by rewrite app_nil_r. }
  cbn [map] in Hnd. apply NoDup_cons in Hnd as [Hk Hnd].
  cbn [fold_left List.filter]. destruct (keep k).
  - rewrite IH; [|done|].
    + rewrite dict_put_fresh by (apply Hacc; by left).
      cbn [map]. by rewrite <- app_assoc.
    + intros k' Hk'. rewrite dict_put_fresh by (apply Hacc; by left).
      rewrite map_app, in_app_iff. cbn [map fst In]. intros [H|[H|[]]].
      * by apply (Hacc k' (or_intror Hk')).
      * apply Hk. rewrite H. apply list_elem_of_In. by apply in_map.
  - apply IH; [done|]. intros k' Hk'. apply Hacc. by right.
Qed.

Lemma sum_totals_positive (g : str -> Z) (ks : list str) :
  (forall k, In k ks -> 0 <= g k) ->
  sum_totals (map (fun k => (k, g k)) (List.filter (fun k => 0 <? g k) ks))
  = sum_over g ks.
Proof.
  unfold sum_totals. induction ks as [|k ks IH]; intros Hg; cbn [List.filter sum_over];
    [done|].
  specialize (IH (fun k' Hk' => Hg k' (or_intror Hk'))).
  specialize (Hg k (or_introl eq_refl)).
  destruct (Z.ltb_spec 0 (g k)); cbn [map foldr snd]; lia.
Qed.

Lemma status_order_NoDup : NoDup STATUS_ORDER.
Proof.
  assert (bool_decide (NoDup STATUS_ORDER) = true) as H by (vm_compute; reflexivity).
  by apply bool_decide_eq_true in H.
Qed.

Lemma status_counts_table (cd : DataFrame) :
  status_counts cd
  = map (fun st => (st, qty_sum (status_rows st cd)))
        (List.filter (fun st => 0 <? qty_sum (status_rows st cd)) STATUS_ORDER).
Proof.
  unfold status_counts.
  rewrite (fold_dict_put (fun st => st) (fun st => qty_sum (status_rows st cd))
             (fun st => 0 <? qty_sum (status_rows st cd)) STATUS_ORDER []).
  - done.
  - rewrite map_id. apply status_order_NoDup.
  - intros k _ [].
Qed.

Lemma status_counts_spec (cd : DataFrame) :
  fits_int64 cd ->
  (forall st n, In (st, n) (status_counts cd) <->
     In st STATUS_ORDER /\ n = qty_total (status_rows st cd) /\ 0 < n) /\
  sum_totals (status_counts cd)
  = sum_over (fun st => qty_total (status_rows st cd)) STATUS_ORDER.
Proof.
  intros Hf.
  assert (forall st, qty_sum (status_rows st cd) = qty_total (status_rows st cd)
                     /\ 0 <= qty_total (status_rows st cd)) as Hs.
  { intros st. apply fits_int64_sum. by apply fits_int64_filter. }
  rewrite status_counts_table.
  assert (forall l, map (fun st => (st, qty_sum (status_rows st cd)))
                      (List.filter (fun st => 0 <? qty_sum (status_rows st cd)) l)
                    = map (fun st => (st, qty_total (status_rows st cd)))
                        (List.filter (fun st => 0 <? qty_total (status_rows st cd)) l))
    as ->.
  { induction l as [|st l IH]; cbn [List.filter]; [done|].
    destruct (Hs st) as [-> _].
    destruct (0 <? qty_total (status_rows st cd)); cbn [map]; [|done].
    destruct (Hs st) as [-> _]. by f_equal. }
  split.
  - intros st n. rewrite in_map_iff. split.
    + intros (st' & [= <- <-] & Hin). apply filter_In in Hin as [Hin Hpos].
      apply Z.ltb_lt in Hpos. done.
    + intros (Hin & -> & Hpos). exists st. split; [done|].
      apply filter_In. split; [done|]. by apply Z.ltb_lt.
  - apply (sum_totals_positive (fun st => qty_total (status_rows st cd))).
    intros k _. apply Hs.
Qed.

Lemma city_key_located (city : str) : strip city <> [] -> city_key city = city.
Proof. unfold city_key. by destruct (strip city). Qed.

Lemma sum_over_ext (f g : str -> Z) (ks : list str) :
  (forall k, In k ks -> f k = g k) -> sum_over f ks = sum_over g ks.
Proof.
  induction ks as [|k ks IH]; intros H; cbn [sum_over]; [done|].
  rewrite (H k (or_introl eq_refl)), IH; [done|]. intros k' Hk'. apply H. by right.
Qed.

Lemma grand_total_positive (counts : str -> list (str * Z)) (ks : list str) :
  (forall k, In k ks -> 0 <= sum_totals (counts k)) ->
  grand_total (map (fun k => (k, counts k))
                 (List.filter (fun k => 0 <? sum_totals (counts k)) ks))
  = sum_over (fun k => sum_totals (counts k)) ks.
Proof.
  unfold grand_total. induction ks as [|k ks IH]; intros Hg; cbn [List.filter sum_over];
    [done|].
  specialize (IH (fun k' Hk' => Hg k' (or_intror Hk'))).
  specialize (Hg k (or_introl eq_refl)).
  destruct (Z.ltb_spec 0 (sum_totals (counts k))); cbn [map foldr snd]; lia.
Qed.

Lemma located_filter (P : record -> bool) (df : DataFrame) :
  located df -> located (List.filter P df).
Proof. intros H r Hr. apply filter_In in Hr as [Hr _]. by apply H. Qed.

(** The units of a frame, status by status. *)
Lemma status_counts_total (cd : DataFrame) :
  fits_int64 cd -> located cd -> sum_totals (status_counts cd) = qty_total cd.
Proof.
  intros Hf Hl. rewrite (proj2 (status_counts_spec cd Hf)).
  apply (qty_total_groups status_normalized cd STATUS_ORDER status_order_NoDup).
  intros r Hr. by apply Hl.
Qed.

Lemma get_detailed_city_status_table (df : DataFrame) (tech_type t region : str) :
  normalize_tech_type tech_type = Some t -> located df ->
  get_detailed_city_status df tech_type region
  = map (fun c => (c, status_counts (city_rows c (selected t region df))))
        (List.filter
           (fun c => 0 <? sum_totals (status_counts (city_rows c (selected t region df))))
           (unique (map city_district (selected t region df)))).
Proof.
  intros Ht Hloc. unfold get_detailed_city_status. rewrite Ht.
  pose proof (normalize_tech_type_some _ _ Ht) as Hne.
  destruct t as [|c t]; [done|].
  destruct df as [|r0 df]; [done|].
  cbv zeta. set (sel := selected (c :: t) region (r0 :: df)).
  assert (located sel) as Hsel by by apply located_filter.
  clearbody sel.
  assert (fold_left
            (fun city_status city =>
               if 0 <? sum_totals (status_counts (city_rows city sel))
               then dict_put (city_key city) (status_counts (city_rows city sel))
                      city_status
               else city_status)
            (unique (map city_district sel)) []
          = map (fun c0 => (c0, status_counts (city_rows c0 sel)))
              (List.filter (fun c0 => 0 <? sum_totals (status_counts (city_rows c0 sel)))
                 (unique (map city_district sel)))) as Hfold.
  { assert (forall x, In x (unique (map city_district sel)) -> city_key x = x) as Hk.
    { intros x Hx. apply In_unique, in_map_iff in Hx as (r & <- & Hr).
      apply city_key_located. by apply Hsel. }
    rewrite (fold_dict_put city_key
               (fun c0 => status_counts (city_rows c0 sel))
               (fun c0 => 0 <? sum_totals (status_counts (city_rows c0 sel)))).
    - cbn [app]. apply map_ext_in. intros x Hx. apply filter_In in Hx as [Hx _].
      by rewrite (Hk x Hx).
    - rewrite (map_ext_in _ (fun x => x) _ Hk), map_id. apply unique_NoDup.
    - intros k _ []. }
  rewrite <- Hfold. by destruct sel.
Qed.

Lemma get_detailed_city_status_total (df : DataFrame) (tech_type t region : str) :
  normalize_tech_type tech_type = Some t -> fits_int64 df -> located df ->
  grand_total (get_detailed_city_status df tech_type region)
  = qty_total (selected t region df).
Proof.
  intros Ht Hf Hl. rewrite (get_detailed_city_status_table df tech_type t region Ht Hl).
  set (sel := selected t region df).
  assert (fits_int64 sel) as Hfs by by apply fits_int64_filter.
  assert (located sel) as Hls by by apply located_filter.
  assert (forall c, sum_totals (status_counts (city_rows c sel))
                    = qty_total (city_rows c sel)) as Hc.
  { intros c. apply status_counts_total;
      [by apply fits_int64_filter | by apply located_filter]. }
  rewrite grand_total_positive.
  - rewrite (sum_over_ext _ (fun c => qty_total (city_rows c sel)))
      by (intros k _; apply Hc).
    apply (qty_total_groups city_district sel); [apply unique_NoDup|].
    intros r Hr. apply In_unique. by apply in_map.
  - intros k _. rewrite Hc.
    apply (fits_int64_sum (city_rows k sel)). by apply fits_int64_filter.
Qed.

(** X19: the details by location of a type in a region account for
    every unit of that type and region once, when the locations are not
    blank, the statuses are the four labels, and the quantities are not
    negative with a sum that fits an int64: the counts add up to the
    quantity of the selected rows, a location is listed once, and every
    count listed is positive and is the quantity of the rows of its
    location and status. *)
Theorem get_detailed_city_status_conserves (df : DataFrame)
    (tech_type t region : str) :
  normalize_tech_type tech_type = Some t -> fits_int64 df -> located df ->
  grand_total (get_detailed_city_status df tech_type region)
  = qty_total (selected t region df) /\
  NoDup (map fst (get_detailed_city_status df tech_type region)) /\
  (forall city counts st n,
     In (city, counts) (get_detailed_city_status df tech_type region) ->
     In (st, n) counts ->
     0 < n /\ n = qty_total (status_rows st (city_rows city (selected t region df)))).
Proof.
  intros Ht Hf Hl.
  split; [by apply get_detailed_city_status_total|].
  rewrite (get_detailed_city_status_table df tech_type t region Ht Hl).
  set (sel := selected t region df).
  assert (fits_int64 sel) as Hfs by by apply fits_int64_filter.
  split.
  - rewrite map_map. cbn [fst]. rewrite map_id.
    apply NoDup_filter_bool, unique_NoDup.
  - intros city counts st n Hin Hn.
    apply in_map_iff in Hin as (c & [= <- <-] & _).
    apply (proj1 (status_counts_spec (city_rows c sel)
                    ltac:(by apply fits_int64_filter))) in Hn.
    by destruct Hn as (_ & -> & Hpos).
Qed.

Lemma get_detailed_city_status_conserves_witness :
  grand_total (get_detailed_city_status [one_kamaz; five_zil] (u "зил") (u "Андижон"))
  = qty_total (selected (u "ЗИЛ") (u "Андижон") [one_kamaz; five_zil]) /\
  NoDup (map fst (get_detailed_city_status [one_kamaz; five_zil] (u "зил") (u "Андижон"))) /\
  (forall city counts st n,
     In (city, counts)
        (get_detailed_city_status [one_kamaz; five_zil] (u "зил") (u "Андижон")) ->
     In (st, n) counts ->
     0 < n /\
     n = qty_total (status_rows st (city_rows city
                      (selected (u "ЗИЛ") (u "Андижон") [one_kamaz; five_zil])))).
Proof.
  apply get_detailed_city_status_conserves.
  - vm_compute. reflexivity.
  - split; [repeat constructor; vm_compute; discriminate | vm_compute; reflexivity].
  - intros r [<-|[<-|[]]]; (split; [vm_compute; discriminate|]); vm_compute.
    + left. reflexivity.
    + right. right. left. reflexivity.
Defined.

(** ** The screens agree *)

Lemma group_total_filter (key : record -> str) (df : DataFrame) (k : str) :
  group_total key df k = qty_sum (List.filter (fun r => str_eqb (key r) k) df).
Proof.
  unfold group_total, qty_sum, qty_total.
  induction df as [|r df IH]; cbn [foldr List.filter]; [done|].
  destruct (str_eqb (key r) k); [|done].
  cbn [foldr]. by rewrite IH, wrap64_add_r.
Qed.

Lemma selected_of_type (t region : str) (df : DataFrame) :
  selected t region df
  = List.filter (fun r => str_eqb (region_name r) region) (of_type t df).
Proof.
  unfold selected, of_type. induction df as [|r df IH]; cbn [List.filter]; [done|].
  destruct (str_eqb (type_normalized r) t), (str_eqb (region_name r) region) eqn:Hr;
    cbn [andb List.filter]; rewrite ?Hr; by rewrite ?IH.
Qed.

Lemma get_status_distribution_for_type_region_view (df : DataFrame)
    (tech_type t region : str) :
  normalize_tech_type tech_type = Some t ->
  get_status_distribution_for_type_region df tech_type region
  = ranked status_normalized (selected t region df).
Proof.
  intros Ht. pose proof (normalize_tech_type_some _ _ Ht) as Hne.
  unfold get_status_distribution_for_type_region. rewrite Ht.
  destruct t as [|c t]; [done|]. cbv zeta.
  fold (selected (c :: t) region df). rewrite ranked_guard. by destruct df.
Qed.

(** X20: the screens of a type agree. The count shown for a region by
    [count_type_per_region] is the sum of the status distribution shown
    for that type and region (as an int64 value), and, when the
    locations are not blank, the statuses are the four labels and the
    quantities are not negative with a sum that fits an int64, it is
    also the sum of all counts of the details by location. *)
Theorem type_screens_agree (df : DataFrame) (tech_type t region : str) (q : Z) :
  normalize_tech_type tech_type = Some t ->
  In (region, q) (count_type_per_region df tech_type) ->
  wrap64 (sum_totals (get_status_distribution_for_type_region df tech_type region)) = q /\
  (fits_int64 df -> located df ->
   grand_total (get_detailed_city_status df tech_type region) = q).
Proof.
  intros Ht Hin. pose proof (normalize_tech_type_some _ _ Ht) as Hne.
  assert (q = qty_sum (selected t region df)) as ->.
  { rewrite count_type_per_region_view, Ht in Hin.
    destruct t as [|c t]; [done|]. unfold view in Hin.
    apply In_ranked in Hin as [_ ->].
    fold (of_type (c :: t) df). by rewrite group_total_filter, selected_of_type. }
  split.
  - rewrite (get_status_distribution_for_type_region_view _ _ t) by done.
    apply ranked_conserves.
  - intros Hf Hl. rewrite (get_detailed_city_status_total df tech_type t region Ht Hf Hl).
    symmetry. apply fits_int64_sum. by apply fits_int64_filter.
Qed.

Lemma type_screens_agree_witness :
  wrap64 (sum_totals (get_status_distribution_for_type_region
                        [one_kamaz; five_zil] (u "зил") (u "Андижон"))) = 5 /\
  (fits_int64 [one_kamaz; five_zil] -> located [one_kamaz; five_zil] ->
   grand_total (get_detailed_city_status [one_kamaz; five_zil] (u "зил") (u "Андижон"))
   = 5).
Proof.
  apply (type_screens_agree [one_kamaz; five_zil] (u "зил") (u "ЗИЛ")).
  - vm_compute. reflexivity.
  - vm_compute. left. reflexivity.
Defined.

(** X21: the tracker count takes the flagged records only: a region has
    a row exactly when it has a flagged record, the row carries the
    total of the flagged records of the region, a region has one row,
    and the rows add up to the quantity of the flagged records (as int64
    values). *)
Theorem count_trackers_by_region_flagged (df : DataFrame) :
  (forall k q, In (k, q) (count_trackers_by_region df) <->
     (exists r, In r df /\ has_tracker r = true /\ region_name r = k) /\
     q = qty_sum (List.filter (fun r => str_eqb (region_name r) k)
                    (List.filter has_tracker df))) /\
  NoDup (map fst (count_trackers_by_region df)) /\
  wrap64 (sum_totals (count_trackers_by_region df))
  = qty_sum (List.filter has_tracker df).
Proof.
  rewrite count_trackers_by_region_view. unfold view.
  split; [|split; [apply ranked_keys_NoDup | apply ranked_conserves]].
  intros k q. rewrite In_ranked, group_total_filter, in_map_iff.
  split.
  - intros [(r & Hk & Hr) ->]. split; [|done].
    apply filter_In in Hr as [Hr Hf]. by exists r.
  - intros [(r & Hr & Hf & Hk) ->]. split; [|done].
    exists r. split; [done|]. by apply filter_In.
Qed.

(** ** The tracker column *)

Lemma in_list_In (x : str) (l : list str) : in_list x l = true <-> In x l.
Proof.
  unfold in_list. rewrite existsb_exists. split.
  - intros (y & Hy & He). apply str_eqb_spec in He. by subst.
  - intros H. exists x. split; [done | apply str_eqb_refl].
Qed.

Lemma In_add_column (columns : list str) (name x : str) :
  In x (add_column columns name) <-> In x columns \/ x = name.
Proof.
  unfold add_column. destruct (in_list name columns) eqn:Hn.
  - apply in_list_In in Hn. split; [by left|]. intros [H| ->]; done.
  - rewrite in_app_iff. cbn [In]. intuition congruence.
Qed.

Lemma status_normalized_added (columns : list str) :
  In (u "status_normalized") (fold_left add_column derived_columns columns).
Proof.
  unfold derived_columns. cbn [fold_left].
  apply In_add_column. left. apply In_add_column. by right.
Qed.

Lemma exact_match_alias (d : dict) (aliases : list str) (h : str) :
  exact_match d aliases = Some h ->
  exists a, In a aliases /\ dict_get (_normalize_header a) d = Some h.
Proof.
  induction aliases as [|a aliases IH]; simpl; [done|].
  destruct (dict_get _ _) as [orig|] eqn:Hg.
  - intros [= <-]. exists a. auto.
  - intros H. destruct (IH H) as (a' & ? & ?). exists a'. auto.
Qed.

Lemma tracker_aliases_nonblank (a : str) :
  In a TRACKER_ALIASES -> _normalize_header a <> [].
Proof.
  assert (forallb (fun a => negb (str_eqb (_normalize_header a) [])) TRACKER_ALIASES
          = true) as H by (vm_compute; reflexivity).
  rewrite forallb_forall in H. intros Hin He. specialize (H a Hin).
  rewrite He in H. by vm_compute in H.
Qed.

Lemma any_in_nonempty (tokens : list str) (s : str) :
  Forall (fun t => t <> []) tokens -> any_in tokens s = true -> s <> [].
Proof.
  intros Ht Hs ->. unfold any_in in Hs. apply existsb_exists in Hs as (t & Hin & Hs).
  rewrite Forall_forall in Ht. apply list_elem_of_In, Ht in Hin.
  destruct t; [done|]. by vm_compute in Hs.
Qed.

(** X22: the loader always finds a tracker column, so the branch that
    sets [has_tracker] to [False] for want of a column is never taken.
    The column is looked for when the loader has added its own columns,
    among them [status_normalized], whose name holds the status token
    "status": when no header matches a tracker alias, the token step
    gives a column that holds a status token (the status column of the
    sheet, or [status_normalized]), and the flags are read from it. *)
Theorem tracker_column_always_resolved (columns : list str) :
  exists h,
    find_column (fold_left add_column derived_columns columns) TRACKER_ALIASES = Some h /\
    truthy (Some h) = true /\
    In h (fold_left add_column derived_columns columns) /\
    (exact_match (_norm_map (fold_left add_column derived_columns columns))
       TRACKER_ALIASES = None ->
     truthy (substring_match (_norm_map (fold_left add_column derived_columns columns))
               TRACKER_ALIASES) = false ->
     any_in status_tokens (_normalize_header h) = true).
Proof.
  set (added := fold_left add_column derived_columns columns).
  assert (forall h, h <> [] -> truthy (Some h) = true) as Htruthy
    by (by intros [|c h]).
  unfold find_column.
  destruct (exact_match (_norm_map added) TRACKER_ALIASES) as [h|] eqn:He.
  { exists h. split; [done|]. split; [|split; [by apply exact_match_member in He | done]].
    apply exact_match_alias in He as (a & Ha & Hg).
    apply dict_get_In, norm_map_from_columns in Hg as [_ Hn].
    apply Htruthy. intros ->. by apply (tracker_aliases_nonblank a). }
  destruct (truthy (substring_match (_norm_map added) TRACKER_ALIASES)) eqn:Hs.
  { destruct (substring_match (_norm_map added) TRACKER_ALIASES) as [h|] eqn:Hb; [|done].
    exists h. split; [done|]. split; [done|]. split; [|done].
    pose proof (substring_match_matches added TRACKER_ALIASES) as Hm.
    rewrite Hb in Hm. by destruct (Hm h eq_refl). }
  unfold token_sets, token_heuristic.
  destruct (first_with_token status_tokens (_norm_map added)) as [h|] eqn:Hf.
  - apply first_with_token_hits in Hf as [Hin Hany]. exists h.
    split; [done|]. split; [|by split].
    apply Htruthy. intros ->. by vm_compute in Hany.
  - exfalso. apply first_with_token_misses in Hf.
    specialize (Hf _ (status_normalized_added columns)). by vm_compute in Hf.
Qed.

(** The sheet of three headers without tracker column: the flags are
    read from the status column "Холати". *)
Lemma tracker_column_always_resolved_witness :
  find_column (fold_left add_column derived_columns (header tie_sheet)) TRACKER_ALIASES
  = Some (u "Холати") /\
  any_in status_tokens (_normalize_header (u "Холати")) = true.
Proof.
  destruct (tracker_column_always_resolved (header tie_sheet))
    as (h & Hf & _ & _ & Htok).
  assert (find_column (fold_left add_column derived_columns (header tie_sheet))
            TRACKER_ALIASES = Some (u "Холати")) as Hc by (vm_compute; reflexivity).
  split; [exact Hc|].
  rewrite Hc in Hf. injection Hf as <-.
  apply Htok; vm_compute; reflexivity.
Defined.

(** ** Quantities are int64 values *)

Lemma row_qty_int64 (E : env) (columns : list str) (qty_col : option str)
    (row : list cell) (q : Z) :
  row_qty E columns qty_col row = Some q -> 1 <= q < 2 ^ 63.
Proof.
  unfold row_qty. destruct qty_col as [c|]; [|intros [= <-]; lia].
  destruct (truthy (Some c)); [|intros [= <-]; lia].
  destruct (to_numeric E (get_cell columns row c)) as [| |n d];
    cbn [fillna0_astype_int option_map]; [intros [= <-]; by vm_compute | done |].
  cbv zeta. destruct (_ && _) eqn:Hr; cbn [option_map]; intros [= <-];
    unfold clamp_qty.
  - apply andb_true_iff in Hr as [_ Hr]. apply Z.ltb_lt in Hr.
    destruct (n ÷ Z.pos d <=? 0) eqn:Hle; [lia|]. apply Z.leb_gt in Hle. lia.
  - by vm_compute.
Qed.

Lemma load_single_region_sync_int64 (E : env) (n : nat) (rs : str * option str)
    (r : record) :
  In r (snd (fst (load_single_region_sync E n rs))) -> 1 <= qty r < 2 ^ 63.
Proof.
  assert (forall region ws, In r (frame_or_empty (process E region ws)) ->
                            1 <= qty r < 2 ^ 63) as Hp.
  { intros region ws. destruct (process E region ws) as [df|] eqn:Hp; simpl; [|done].
    intros Hr. destruct (process_rows _ _ _ _ _ Hp Hr) as (row & _ & Hq).
    by apply row_qty_int64 in Hq. }
  unfold load_single_region_sync. destruct rs as [region sheet_id].
  destruct (truthy sheet_id); [|done].
  destruct (gc_open E n _) as [ws|msg]; simpl; [apply Hp|].
  destruct (str_in _ msg); [|done].
  destruct (gc_open E (S n) _) as [ws|msg']; simpl; [apply Hp | done].
Qed.

(** X23: the quantity of every record the loader returns is an int64
    value of at least 1: the cast to int brings a reading outside the
    int64 range to the least int64, which, not being positive, becomes
    1 like every reading that is not positive. *)
Theorem loaded_quantities_are_int64 (E : env) :
  (forall n rs r,
     In r (snd (fst (load_single_region_sync E n rs))) -> 1 <= qty r < 2 ^ 63) /\
  (forall w r, In r (fst (load_all_regions_async E w)) -> 1 <= qty r < 2 ^ 63) /\
  (forall columns c row n d,
     c <> [] -> to_numeric E (get_cell columns row c) = FFin n d ->
     (2 ^ 63 <= n ÷ Z.pos d \/ n ÷ Z.pos d < - 2 ^ 63) ->
     row_qty E columns (Some c) row = Some 1).
Proof.
  split; [apply load_single_region_sync_int64|]. split.
  - intros w r. rewrite load_all_regions_async_concat. intros Hr.
    apply in_concat in Hr. destruct Hr as (part & Hpart & Hr).
    apply in_map_iff in Hpart. destruct Hpart as ([[name df]|] & <- & Hres); [|done].
    apply gather_results in Hres. destruct Hres as (n & rs & _ & Hl).
    apply (load_single_region_sync_int64 E n rs). rewrite <- Hl. exact Hr.
  - intros columns c row n d Hc Hx Hout. unfold row_qty.
    destruct c as [|c0 c]; [done|]. cbn [truthy]. rewrite Hx.
    cbn [fillna0_astype_int]. cbv zeta.
    destruct (_ && _) eqn:Hr; [|done]. exfalso.
    apply andb_true_iff in Hr as [Hlo Hhi].
    apply Z.leb_le in Hlo. apply Z.ltb_lt in Hhi. unfold INT64_MIN in Hlo. lia.
Qed.

Lemma loaded_quantities_are_int64_witness :
  (In demo_record (snd (fst (load_single_region_sync demo_env 0 demo_source))) /\
   1 <= qty demo_record < 2 ^ 63) /\
  row_qty demo_env [u "Сони"] (Some (u "Сони")) [CInt (2 ^ 63)] = Some 1.
Proof.
  assert (In demo_record (snd (fst (load_single_region_sync demo_env 0 demo_source))))
    as H1 by (vm_compute; auto).
  split; [split; [exact H1|]|].
  - exact (proj1 (loaded_quantities_are_int64 demo_env) 0%nat demo_source demo_record H1).
  - apply (proj2 (proj2 (loaded_quantities_are_int64 demo_env))
             [u "Сони"] (u "Сони") [CInt (2 ^ 63)] (2 ^ 63) 1%positive).
    + vm_compute. discriminate.
    + vm_compute. reflexivity.
    + left. vm_compute. discriminate.
Defined.

